(** * mnemonic-otp: a shallow embedding of src/index.ts

    JS strings are modelled as lists of code units, each an [ascii] (eight
    bits).  [String.prototype.toUpperCase] is modelled on [a]..[z] only and
    iteration by code points ([Array.from], [for ... of]) as iteration by
    code units: both are exact on 7-bit ASCII text ([is_ascii7]), and the
    statements that depend on them beyond the strings they name carry that
    hypothesis.  JS numbers used as lengths and indices are [nat]s. *)

From Stdlib Require Import Ascii String List Bool Arith Lia ZArith Reals Lra Permutation Sorted.
From Stdlib Require Import PrimInt63 PrimFloat SpecFloat.
Set Warnings "-register-all".

Import ListNotations.

Definition str := list ascii.

Definition s (x : string) : str := list_ascii_of_string x.

(** ** Generic helpers *)

Definition ascii_eqb (a b : ascii) : bool := Ascii.eqb a b.

Fixpoint str_eqb (x y : str) : bool :=
  match x, y with
  | [], [] => true
  | a :: x', b :: y' => ascii_eqb a b && str_eqb x' y'
  | _, _ => false
  end.

(** [String.prototype.toUpperCase] on one ASCII code unit. *)
Definition char_upper (c : ascii) : ascii :=
  let n := nat_of_ascii c in
  if (97 <=? n) && (n <=? 122) then ascii_of_nat (n - 32) else c.

Definition toUpperCase (x : str) : str := map char_upper x.

(** A code unit of 7-bit ASCII (U+0000..U+007F): a code point of its own,
    upper-cased by [toUpperCase] exactly as [char_upper] does. *)
Definition is_ascii7 (c : ascii) : bool := nat_of_ascii c <? 128.

(** [/^[A-Z]$/.test(upper)] *)
Definition is_upper_letter (c : ascii) : bool :=
  let n := nat_of_ascii c in (65 <=? n) && (n <=? 90).

(** [set.has(ch)] for a [Set] built from a list of code units. *)
Definition mem (c : ascii) (l : str) : bool := existsb (ascii_eqb c) l.

(** ** Results of code that may throw *)

Inductive err :=
| ErrPatternEmpty        (* "Pattern must be at least one character long" *)
| ErrPatternLetters      (* "Pattern may only contain letters A–Z" *)
| ErrAlphabetTooShort    (* "Alphabet must contain at least 2 symbols" *)
| ErrAlphabetDuplicate   (* "Alphabet must not contain duplicate symbols" *)
| ErrNoTemplate          (* "At least one template required" *)
| ErrTypeUndefined.      (* TypeError: reading [.idx] of [undefined] *)

Inductive jsres (A : Type) :=
| Ok (a : A)
| Throw (e : err).
Arguments Ok {A} a.
Arguments Throw {A} e.

(** ** Templates ([interface Template]) *)

Record Template := mkTemplate {
  name : str;
  idx : list nat
}.

(** [pattern(str)]: the [Map<string, number>] is an association list whose
    size is its length; labels get numbers in first-occurrence order. *)
Fixpoint pattern_idx (m : list (ascii * nat)) (cs : str) : jsres (list nat) :=
  match cs with
  | [] => Ok []
  | ch :: rest =>
      let upper := char_upper ch in
      if negb (is_upper_letter upper) then Throw ErrPatternLetters else
      let m' := match find (fun p => ascii_eqb (fst p) upper) m with
                | Some _ => m
                | None => m ++ [(upper, length m)]
                end in
      let i := match find (fun p => ascii_eqb (fst p) upper) m' with
               | Some p => snd p
               | None => 0
               end in
      match pattern_idx m' rest with
      | Ok is => Ok (i :: is)
      | Throw e => Throw e
      end
  end.

Definition pattern (x : str) : jsres Template :=
  match x with
  | [] => Throw ErrPatternEmpty
  | _ => match pattern_idx [] x with
         | Ok is => Ok {| name := toUpperCase x; idx := is |}
         | Throw e => Throw e
         end
  end.

(** A template literal of the module: [pattern] applied to a constant that
    it accepts (the module would throw at load time otherwise). *)
Definition pattern_lit (x : string) : Template :=
  match pattern (s x) with
  | Ok t => t
  | Throw _ => {| name := []; idx := [] |}
  end.

Definition DEFAULT_ALPHABET : str := s "0123456789ABCDEFGHJKMNPQRSTUVWXYZ".

Definition DEFAULT_TEMPLATES : list Template :=
  [pattern_lit "ABCABC"; pattern_lit "AAABBB"; pattern_lit "ABABAB";
   pattern_lit "ABCDAB"; pattern_lit "ABCCBA"].

(** [1 + Math.max(...t.idx)]; for an empty [idx] this is [-Infinity] and
    every loop bounded by it runs zero times, which [0] stands for. *)
Definition unique_slots (t : Template) : nat :=
  match idx t with
  | [] => 0
  | i :: is => 1 + fold_left Nat.max is i
  end.

(** Vocabulary for the proofs about [pattern]: the keys its map collects,
    in insertion order ([extend_keys]), the position of a key in that order
    ([pos]), and the letter test it applies to each character. *)
Definition add_key (acc : str) (c : ascii) : str := if mem c acc then acc else acc ++ [c].
Definition extend_keys (ks : str) (l : str) : str := fold_left add_key l ks.
Fixpoint pos (c : ascii) (l : str) : nat :=
  match l with [] => 0 | c' :: l' => if ascii_eqb c c' then 0 else S (pos c l') end.
Definition is_letter (c : ascii) : bool := is_upper_letter (char_upper c).

(** ** [matchesTemplate(code, t)]

    The loop over [i < code.length] reads [t.idx[i]] and [code[i]]; the
    lengths are equal at that point, so it walks the pairs in order.  The
    [Map<number, string>] is an association list. *)
Fixpoint assoc (k : nat) (m : list (nat * ascii)) : option ascii :=
  match m with
  | [] => None
  | (k', v) :: m' => if Nat.eqb k k' then Some v else assoc k m'
  end.

Fixpoint matches_loop (m : list (nat * ascii)) (ps : list (nat * ascii)) : bool :=
  match ps with
  | [] => true
  | (slot, c) :: ps' =>
      match assoc slot m with
      | None => matches_loop ((slot, c) :: m) ps'
      | Some c' => if ascii_eqb c' c then matches_loop m ps' else false
      end
  end.

Definition matchesTemplate (code : str) (t : Template) : bool :=
  if negb (Nat.eqb (length code) (length (idx t))) then false
  else matches_loop [] (combine (idx t) code).

(** ** Buffers and their text encodings

    A [Buffer] is a list of bytes.  [buf.toString(enc)] and
    [Buffer.from(str, enc)] are Node's codecs: hex is lower-case and decodes
    pairs of hex digits up to the first pair that is not one; base64 is
    RFC 4648 with [=] padding, and decoding reads the standard and URL-safe
    alphabets, skips any other character, stops at [=], and keeps the whole
    bytes of the bit stream. *)

Definition bytes := list Byte.byte.

Definition hex_digit (n : nat) : ascii :=
  if n <? 10 then ascii_of_nat (48 + n) else ascii_of_nat (87 + n).

Definition hex_of_byte (b : Byte.byte) : str :=
  let n := N.to_nat (Byte.to_N b) in [hex_digit (n / 16); hex_digit (n mod 16)].

Definition unhex (c : ascii) : option nat :=
  let n := nat_of_ascii c in
  if (48 <=? n) && (n <=? 57) then Some (n - 48)
  else if (97 <=? n) && (n <=? 102) then Some (n - 87)
  else if (65 <=? n) && (n <=? 70) then Some (n - 55)
  else None.

Fixpoint hex_decode (cs : str) : bytes :=
  match cs with
  | c1 :: c2 :: rest =>
      match unhex c1, unhex c2 with
      | Some h, Some l =>
          match Byte.of_N (N.of_nat (16 * h + l)) with
          | Some b => b :: hex_decode rest
          | None => []
          end
      | _, _ => []
      end
  | _ => []
  end.

Definition bits_of_byte (b : Byte.byte) : list bool :=
  map (fun i => N.testbit (Byte.to_N b) (N.of_nat i)) [7; 6; 5; 4; 3; 2; 1; 0].

Definition value_of_bits (l : list bool) : nat :=
  fold_left (fun acc (bit : bool) => 2 * acc + (if bit then 1 else 0)) l 0.

Definition bits6 (v : nat) : list bool :=
  map (fun i => Nat.testbit v i) [5; 4; 3; 2; 1; 0].

Definition b64_table : str :=
  s "ABCDEFGHIJKLMNOPQRSTUVWXYZabcdefghijklmnopqrstuvwxyz0123456789+/".

Definition b64_char (v : nat) : ascii := nth v b64_table "A"%char.

Fixpoint index_of (c : ascii) (l : str) (i : nat) : option nat :=
  match l with
  | [] => None
  | c' :: l' => if ascii_eqb c c' then Some i else index_of c l' (S i)
  end.

Definition unbase64 (c : ascii) : option nat :=
  if ascii_eqb c "-" then Some 62
  else if ascii_eqb c "_" then Some 63
  else index_of c b64_table 0.

Fixpoint chunk6 (l : list bool) : list (list bool) :=
  match l with
  | b1 :: b2 :: b3 :: b4 :: b5 :: b6 :: r => [b1; b2; b3; b4; b5; b6] :: chunk6 r
  | [] => []
  | _ => [l]
  end.

Fixpoint chunk8 (l : list bool) : list (list bool) :=
  match l with
  | b1 :: b2 :: b3 :: b4 :: b5 :: b6 :: b7 :: b8 :: r =>
      [b1; b2; b3; b4; b5; b6; b7; b8] :: chunk8 r
  | _ => []
  end.

Definition pad_to (k : nat) (n : nat) : nat := (k - n mod k) mod k.

(** [buf.toString("base64")] *)
Definition b64_encode (bs : bytes) : str :=
  let bits := flat_map bits_of_byte bs in
  let padded := bits ++ repeat false (pad_to 6 (length bits)) in
  let body := map (fun l => b64_char (value_of_bits l)) (chunk6 padded) in
  body ++ repeat "="%char (pad_to 4 (length body)).

Fixpoint b64_sextets (cs : str) : list nat :=
  match cs with
  | [] => []
  | c :: cs' =>
      if ascii_eqb c "=" then []
      else match unbase64 c with
           | Some v => v :: b64_sextets cs'
           | None => b64_sextets cs'
           end
  end.

Definition byte_of_bits (l : list bool) : option Byte.byte :=
  Byte.of_N (N.of_nat (value_of_bits l)).

Fixpoint somes {A} (l : list (option A)) : list A :=
  match l with
  | [] => []
  | Some a :: l' => a :: somes l'
  | None :: l' => somes l'
  end.

(** [Buffer.from(str, "base64")] *)
Definition b64_decode (cs : str) : bytes :=
  somes (map byte_of_bits (chunk8 (flat_map bits6 (b64_sextets cs)))).

Inductive hmac_encoding := hex | base64 | base64url.
Inductive hmac_algorithm := sha256 | sha512.

Definition replace_char (a b : ascii) (x : str) : str :=
  map (fun c => if ascii_eqb c a then b else c) x.

(** [x.replace(/=+$/g, "")] *)
Fixpoint drop_leading_eq (l : str) : str :=
  match l with
  | c :: l' => if ascii_eqb c "=" then drop_leading_eq l' else l
  | [] => []
  end.

Definition strip_trailing_eq (x : str) : str := rev (drop_leading_eq (rev x)).

(** [encodeBuffer(buf, enc)] *)
Definition encodeBuffer (buf : bytes) (enc : hmac_encoding) : str :=
  match enc with
  | hex => flat_map hex_of_byte buf
  | base64 => b64_encode buf
  | base64url =>
      strip_trailing_eq (replace_char "/" "_" (replace_char "+" "-" (b64_encode buf)))
  end.

(** [decodeHmacToBuffer(hmac, enc)]; [Buffer.from] does not throw on a
    string, so the [catch] branch is never taken. *)
Definition decodeHmacToBuffer (h : str) (enc : hmac_encoding) : option bytes :=
  match enc with
  | hex => if Nat.odd (length h) then None else Some (hex_decode h)
  | base64 => Some (b64_decode h)
  | base64url =>
      let r := length h mod 4 in
      let padLen := (4 - (if r =? 0 then 4 else r)) mod 4 in
      let padded := replace_char "_" "/" (replace_char "-" "+" h) ++ repeat "="%char padLen in
      Some (b64_decode padded)
  end.

(** ** JS values and [canonicalize]

    [JObject] is a plain object (prototype [Object.prototype] or [null]) with
    its own enumerable properties; [JOther] is any other value reaching the
    final [String(value)] branch (functions, symbols, non-plain objects),
    carried with the text [String(value)] gives. *)

Inductive jsval :=
| JUndefined
| JNull
| JBool (b : bool)
| JNumber (x : PrimFloat.float)
| JString (x : str)
| JBigInt (z : Z)
| JArray (xs : list jsval)
| JObject (fs : list (str * jsval))
| JOther (repr : str).

Fixpoint uint_to_str (u : Decimal.uint) : str :=
  match u with
  | Decimal.Nil => []
  | Decimal.D0 u' => "0"%char :: uint_to_str u'
  | Decimal.D1 u' => "1"%char :: uint_to_str u'
  | Decimal.D2 u' => "2"%char :: uint_to_str u'
  | Decimal.D3 u' => "3"%char :: uint_to_str u'
  | Decimal.D4 u' => "4"%char :: uint_to_str u'
  | Decimal.D5 u' => "5"%char :: uint_to_str u'
  | Decimal.D6 u' => "6"%char :: uint_to_str u'
  | Decimal.D7 u' => "7"%char :: uint_to_str u'
  | Decimal.D8 u' => "8"%char :: uint_to_str u'
  | Decimal.D9 u' => "9"%char :: uint_to_str u'
  end.

(** [BigInt.prototype.toString()] *)
Definition bigint_toString (z : Z) : str :=
  match z with
  | Z0 => s "0"
  | Zpos p => uint_to_str (Pos.to_uint p)
  | Zneg p => "-"%char :: uint_to_str (Pos.to_uint p)
  end.

(** [Array.prototype.sort()] on strings: code-unit order. *)
Fixpoint str_ltb (x y : str) : bool :=
  match x, y with
  | [], [] => false
  | [], _ :: _ => true
  | _ :: _, [] => false
  | a :: x', b :: y' =>
      let na := nat_of_ascii a in let nb := nat_of_ascii b in
      if na <? nb then true else if nb <? na then false else str_ltb x' y'
  end.

Fixpoint insert_sorted (k : str) (l : list str) : list str :=
  match l with
  | [] => [k]
  | k' :: l' => if str_ltb k' k then k' :: insert_sorted k l' else k :: l
  end.

Definition sort_keys (l : list str) : list str := fold_right insert_sorted [] l.

Fixpoint lookup_str {A} (k : str) (l : list (str * A)) : option A :=
  match l with
  | [] => None
  | (k', v) :: l' => if str_eqb k k' then Some v else lookup_str k l'
  end.

Definition is_undefined (v : jsval) : bool :=
  match v with JUndefined => true | _ => false end.

(** The object branch: for [key] of the sorted keys, skip an [undefined]
    value, otherwise store the canonical value.  Each property is paired
    with [typeof v === "undefined"] and [canonicalize(v)] beforehand
    ([canonicalize] is pure, so the order of evaluation is immaterial). *)
Definition canon_object (cfs : list (str * (bool * jsval))) : list (str * jsval) :=
  flat_map (fun k => match lookup_str k cfs with
                     | Some (false, cv) => [(k, cv)]
                     | _ => []
                     end) (sort_keys (map fst cfs)).

Fixpoint canonicalize (v : jsval) : jsval :=
  match v with
  | JNull => JNull
  | JBool b => JBool b
  | JNumber x => JNumber x
  | JString x => JString x
  | JBigInt z => JString (bigint_toString z)
  | JArray xs => JArray (map canonicalize xs)
  | JObject fs =>
      JObject (canon_object (map (fun kv => (fst kv, (is_undefined (snd kv), canonicalize (snd kv)))) fs))
  | JOther r => JString r
  | JUndefined => JString (s "undefined")
  end.

(** The keys on which [JObject]'s association list is exact.  JS lists an
    object's array-index keys (the canonical decimal form of an integer in
    [[0, 2 ^ 32 - 2]]) first, in numeric order, and [out["__proto__"] = v]
    sets the prototype instead of a property; [canonicalize] keeps the
    sorted insertion order of the list and stores every key.  A value has
    plain keys when no object in it, at any depth, has either kind of key. *)
Definition is_digit (c : ascii) : bool :=
  let n := nat_of_ascii c in (48 <=? n) && (n <=? 57).

Fixpoint digits_value (x : str) (acc : Z) : Z :=
  match x with
  | [] => acc
  | c :: x' => digits_value x' (acc * 10 + Z.of_nat (nat_of_ascii c - 48))
  end.

Definition is_array_index (k : str) : bool :=
  match k with
  | [] => false
  | c :: rest =>
      forallb is_digit k &&
      (negb (ascii_eqb c "0") || match rest with [] => true | _ => false end) &&
      (digits_value k 0 <? 4294967295)%Z
  end.

Fixpoint plain_keys (v : jsval) : bool :=
  match v with
  | JArray xs => forallb plain_keys xs
  | JObject fs =>
      forallb (fun kv => negb (str_eqb (fst kv) (s "__proto__")) &&
                         negb (is_array_index (fst kv)) && plain_keys (snd kv)) fs
  | _ => true
  end.

(** [asFlatMetaObject(meta)]: the result of [canonicalize] is a plain object
    exactly when it is a [JObject]. *)
Definition asFlatMetaObject (m : jsval) : list (str * jsval) :=
  match m with
  | JUndefined => []
  | _ => match canonicalize m with
         | JObject fs => fs
         | canon => [(s "meta", canon)]
         end
  end.

(** Property assignment on an object literal under construction: an
    existing key keeps its place and takes the new value. *)
Definition set_prop (o : list (str * jsval)) (k : str) (v : jsval) : list (str * jsval) :=
  if existsb (fun kv => str_eqb k (fst kv)) o
  then map (fun kv => if str_eqb k (fst kv) then (fst kv, v) else kv) o
  else o ++ [(k, v)].

(** [{ code, ...asFlatMetaObject(meta) }] *)
Definition payload_object (code : str) (m : jsval) : jsval :=
  JObject (fold_left (fun o kv => set_prop o (fst kv) (snd kv))
                     (asFlatMetaObject m) [(s "code", JString code)]).

(** [bigint] values replaced by their decimal strings, everywhere. *)
Fixpoint debigint (v : jsval) : jsval :=
  match v with
  | JBigInt z => JString (bigint_toString z)
  | JArray xs => JArray (map debigint xs)
  | JObject fs => JObject (map (fun kv => (fst kv, debigint (snd kv))) fs)
  | _ => v
  end.

Inductive secret_key :=
| SecretString (x : str)
| SecretBuffer (b : bytes).

(** Truthiness of [opts.secret] and [opts.hmac]. *)
Definition secret_truthy (o : option secret_key) : bool :=
  match o with
  | None => false
  | Some (SecretString []) => false
  | Some _ => true
  end.

Definition hmac_truthy (o : option str) : bool :=
  match o with
  | None | Some [] => false
  | Some _ => true
  end.

Definition default {A} (o : option A) (d : A) : A :=
  match o with Some a => a | None => d end.

(** [GenerateOptions & HmacOptions] without [rng], which [generate] takes
    already resolved ([opts.rng ?? defaultRng]).  An absent [meta] is
    [JUndefined]. *)
Record Options := mkOptions {
  alphabet : option str;
  templates : option (list Template);
  secret : option secret_key;
  meta : jsval;
  hmacAlgorithm : option hmac_algorithm;
  hmacEncoding : option hmac_encoding;
  hmac : option str
}.

Definition no_options : Options :=
  {| alphabet := None; templates := None; secret := None; meta := JUndefined;
     hmacAlgorithm := None; hmacEncoding := None; hmac := None |}.

(** ** Random draws as an effect

    [generate] reaches the random source only through [rng(maxExclusive)].
    A [Prog] is a computation that may return, throw, or ask for one draw
    and continue with the value it receives. *)

Inductive Prog (A : Type) :=
| Ret (a : A)
| Fail (e : err)
| Draw (maxExclusive : nat) (k : nat -> Prog A).
Arguments Ret {A} a.
Arguments Fail {A} e.
Arguments Draw {A} maxExclusive k.

Fixpoint bind {A B} (p : Prog A) (f : A -> Prog B) : Prog B :=
  match p with
  | Ret a => f a
  | Fail e => Fail e
  | Draw m k => Draw m (fun v => bind (k v) f)
  end.

Notation "x <- p ;; q" := (bind p (fun x => q)) (at level 61, p at next level, right associativity).

(** A stateful random source [rng : σ -> nat -> nat * σ] runs a [Prog];
    the run also returns the draws made, as (range, value) pairs. *)
Section Run.
Context {σ : Type} (rng : σ -> nat -> nat * σ).

Fixpoint run {A} (p : Prog A) (st : σ) : jsres A * σ * list (nat * nat) :=
  match p with
  | Ret a => (Ok a, st, [])
  | Fail e => (Throw e, st, [])
  | Draw m k =>
      let (v, st') := rng st m in
      let '(r, st'', tr) := run (k v) st' in
      (r, st'', (m, v) :: tr)
  end.
End Run.

(** Replaying a [Prog] against a list of draw values. *)
Fixpoint replay {A} (p : Prog A) (vs : list nat) : option (jsres A) :=
  match p, vs with
  | Ret a, [] => Some (Ok a)
  | Fail e, [] => Some (Throw e)
  | Draw _ k, v :: vs' => replay (k v) vs'
  | _, _ => None
  end.

(** The counter source of the test suite: [(max) => seq++ % max], [seq]
    starting at 0. *)
Definition counter_rng (seq : nat) (max : nat) : nat * nat := (seq mod max, S seq).

(** ** The digest protocol, [validateCode] and [generate]

    [JSON.stringify] and [createHmac(algo, secret).update(payload).digest()]
    are the platform's; they are parameters here. *)

Record GeneratedCode := mkGenerated {
  code : str;
  template : str;
  (* [entropyBits] is [calcPoolEntropyBits(templates, alphabet.length)],
     modelled on its own below; it takes no part in [code], [template] or
     [hmac]. *)
  gen_hmac : option str
}.

Class Platform := {
  JSON_stringify : jsval -> str;
  createHmac_digest : hmac_algorithm -> secret_key -> str -> bytes
}.

Section Digest.
Context {platform : Platform}.

Definition canonicalJson (v : jsval) : str := JSON_stringify (canonicalize v).

Definition computeCodeHmacRaw (code : str) (secret : secret_key) (m : jsval)
    (algo : option hmac_algorithm) : bytes :=
  createHmac_digest (default algo sha256) secret (canonicalJson (payload_object code m)).

Definition computeCodeHmac (code : str) (secret : secret_key) (m : jsval)
    (algo : option hmac_algorithm) (enc : option hmac_encoding) : str :=
  encodeBuffer (computeCodeHmacRaw (toUpperCase code) secret m algo) (default enc hex).

Fixpoint bytes_eqb (x y : bytes) : bool :=
  match x, y with
  | [], [] => true
  | a :: x', b :: y' => Byte.eqb a b && bytes_eqb x' y'
  | _, _ => false
  end.

(** The syntactic part of [validateCode]: every character of the
    upper-cased candidate is in the alphabet and some template matches. *)
Definition syntactic (up : str) (alpha : str) (pool : list Template) : bool :=
  forallb (fun ch => mem ch alpha) up && existsb (matchesTemplate up) pool.

Definition integrity_check (up : str) (o : Options) (h : str) (sec : secret_key) : bool :=
  let expectedRaw := computeCodeHmacRaw up sec (meta o) (hmacAlgorithm o) in
  let enc := default (hmacEncoding o) hex in
  match decodeHmacToBuffer h enc with
  | None => false
  | Some providedRaw =>
      if negb (Nat.eqb (length providedRaw) (length expectedRaw)) then false
      else bytes_eqb providedRaw expectedRaw
  end.

Definition validateCode (code : str) (o : Options) : bool :=
  let alpha := default (alphabet o) DEFAULT_ALPHABET in
  let pool := default (templates o) DEFAULT_TEMPLATES in
  let up := toUpperCase code in
  if negb (forallb (fun ch => mem ch alpha) up) then false else
  if negb (existsb (matchesTemplate up) pool) then false else
  match hmac o, secret o with
  | Some h, Some sec =>
      if hmac_truthy (hmac o) && secret_truthy (secret o)
      then integrity_check up o h sec else true
  | _, _ => true
  end.

(** [ensureUniqueAlphabet]: [true] when some symbol repeats. *)
Fixpoint has_duplicate (seen : str) (l : str) : bool :=
  match l with
  | [] => false
  | ch :: l' => if mem ch seen then true else has_duplicate (ch :: seen) l'
  end.

(** The [symbols] loop: [unique] draws in [[0, alphabet.length)], each
    kept as [alphabet[k]] ([None] for [undefined]). *)
Fixpoint draw_symbols (alpha : str) (unique : nat) : Prog (list (option ascii)) :=
  match unique with
  | 0 => Ret []
  | S n => Draw (length alpha) (fun k =>
             rest <- draw_symbols alpha n ;; Ret (nth_error alpha k :: rest))
  end.

(** [t.idx.map((i) => symbols[i]!).join("")]: [undefined] joins as "". *)
Definition assemble (ix : list nat) (symbols : list (option ascii)) : str :=
  flat_map (fun i => match nth_error symbols i with
                     | Some (Some c) => [c]
                     | _ => []
                     end) ix.

Definition select_template (pool : list Template) : Prog Template :=
  match pool with
  | [t] => Ret t
  | _ => Draw (length pool) (fun i =>
           match nth_error pool i with
           | Some t => Ret t
           | None => Fail ErrTypeUndefined
           end)
  end.

(** The object [out] that [generate] returns: the assembled [code], the
    template's [name], and [hmac] when [opts.secret] is truthy. *)
Definition build_output (o : Options) (t : Template) (symbols : list (option ascii))
    : GeneratedCode :=
  let c := assemble (idx t) symbols in
  {| code := c; template := name t;
     gen_hmac := match secret o with
                 | Some sec => if secret_truthy (secret o)
                               then Some (computeCodeHmac c sec (meta o)
                                            (hmacAlgorithm o) (hmacEncoding o))
                               else None
                 | None => None
                 end |}.

Definition generate (o : Options) : Prog GeneratedCode :=
  let alpha := default (alphabet o) DEFAULT_ALPHABET in
  let pool := default (templates o) DEFAULT_TEMPLATES in
  if length alpha <? 2 then Fail ErrAlphabetTooShort else
  if has_duplicate [] alpha then Fail ErrAlphabetDuplicate else
  if Nat.eqb (length pool) 0 then Fail ErrNoTemplate else
  t <- select_template pool ;;
  symbols <- draw_symbols alpha (unique_slots t) ;;
  Ret (build_output o t symbols).
End Digest.

(** A platform to run the model on concrete inputs: an empty serialisation
    and a constant one-byte digest. *)
#[export] Instance sample_platform : Platform := {|
  JSON_stringify := fun _ => [];
  createHmac_digest := fun _ _ _ => [Byte.x00]
|}.

(** Options of the examples below: a lower-case two-symbol alphabet, a
    one-symbol alphabet, and an alphabet with a repeated symbol, each with
    the one-slot template [pattern("A")]. *)
Definition lower_ab_options : Options :=
  mkOptions (Some (s "ab")) (Some [pattern_lit "A"]) None JUndefined None None None.

Definition one_symbol_options : Options :=
  mkOptions (Some (s "A")) (Some [pattern_lit "A"]) None JUndefined None None None.

Definition duplicate_symbol_options : Options :=
  mkOptions (Some (s "AA")) (Some [pattern_lit "A"]) None JUndefined None None None.

(** The same options as [o] with [alphabet] and [templates] filled in by
    their defaults. *)
Definition with_defaults (o : Options) : Options :=
  mkOptions (Some (default (alphabet o) DEFAULT_ALPHABET))
            (Some (default (templates o) DEFAULT_TEMPLATES))
            (secret o) (meta o) (hmacAlgorithm o) (hmacEncoding o) (hmac o).

(** ** [calcPoolEntropyBits]

    [1 + Math.max(...t.idx)] as a JS number: [None] is [-Infinity] (empty
    [idx]).  [unique_slots] above is the number of loop iterations it
    allows. *)
Definition slot_count (t : Template) : option nat :=
  match idx t with
  | [] => None
  | i :: is => Some (1 + fold_left Nat.max is i)
  end.

(** [let uMax = 0; ... if (u > uMax) uMax = u;] ([-Infinity > uMax] is false) *)
Definition max_unique (uniques : list (option nat)) : nat :=
  fold_left (fun uMax u => match u with
                           | Some u => if uMax <? u then u else uMax
                           | None => uMax
                           end) uniques 0.

(** *** In exact real arithmetic

    JS numbers read as reals: [Math.log2(x)] is [ln x / ln 2], [2 ** e] is
    [Rpower 2 e] ([2 ** -Infinity] is [0]), [Math.floor] is [Int_part]. *)

Definition Math_log2 (x : R) : R := (ln x / ln 2)%R.

Definition calcPoolEntropyBits_R (pool : list Template) (alphaLen : nat) : jsres Z :=
  if alphaLen <? 2 then Throw ErrAlphabetTooShort else
  match pool with
  | [] => Throw ErrNoTemplate
  | _ =>
      let log2a := Math_log2 (INR alphaLen) in
      let uniques := map slot_count pool in
      let uMax := max_unique uniques in
      let sumScaled :=
        fold_left (fun acc u => (acc + match u with
                                       | Some u => Rpower 2 ((INR u - INR uMax) * log2a)
                                       | None => 0
                                       end)%R) uniques 0%R in
      let bits := (INR uMax * log2a + Math_log2 sumScaled)%R in
      Ok (Int_part bits)
  end.

(** The quantity of the documentation: [floor(log2(Σ_t a ^ uniqueSlots(t)))],
    over the integers. *)
Definition pool_outcomes (pool : list Template) (alphaLen : nat) : Z :=
  fold_right (fun t acc => (Z.of_nat alphaLen ^ Z.of_nat (unique_slots t) + acc)%Z) 0%Z pool.

Definition pool_bits_exact (pool : list Template) (alphaLen : nat) : Z :=
  Z.log2 (pool_outcomes pool alphaLen).

(** *** In IEEE-754 binary64

    [+], [-], [*] are the primitive (correctly rounded) float operations.
    [Math.log2] and [2 ** e] are given only where their result is exact: at
    a power of two and at an integer exponent; elsewhere the model answers
    [None].  [Math.floor] is given on [[0, 4096)]. *)

Definition int_of_nat (n : nat) : PrimInt63.int :=
  Nat.iter n (fun i => PrimInt63.add i 1%uint63) 0%uint63.

Definition float_of_nat (n : nat) : PrimFloat.float := PrimFloat.of_uint63 (int_of_nat n).

(** [frshiftexp x = (m, e)] with [x = m * 2 ^ (e - 2101)], [m] in [[0.5, 1)]. *)
Definition Math_log2_F (x : PrimFloat.float) : option PrimFloat.float :=
  let (m, e) := PrimFloat.frshiftexp x in
  if PrimFloat.eqb m 0.5%float
  then Some (PrimFloat.sub (PrimFloat.of_uint63 e) (float_of_nat 2102))
  else None.

Fixpoint pow2_search (e : PrimFloat.float) (k fuel : nat) : option PrimFloat.float :=
  match fuel with
  | 0 => None
  | S fuel' =>
      if PrimFloat.eqb e (float_of_nat k)
      then Some (PrimFloat.ldshiftexp 1%float (PrimInt63.add 2101%uint63 (int_of_nat k)))
      else if PrimFloat.eqb e (PrimFloat.opp (float_of_nat k))
      then Some (PrimFloat.ldshiftexp 1%float (PrimInt63.sub 2101%uint63 (int_of_nat k)))
      else pow2_search e (S k) fuel'
  end.

(** [2 ** e] for an integer [e] with [|e| <= 1000]. *)
Definition pow2_F (e : PrimFloat.float) : option PrimFloat.float := pow2_search e 0 1001.

Fixpoint floor_search (x : PrimFloat.float) (n fuel : nat) : option nat :=
  match fuel with
  | 0 => None
  | S fuel' =>
      if PrimFloat.leb (float_of_nat n) x && PrimFloat.ltb x (float_of_nat (S n))
      then Some n else floor_search x (S n) fuel'
  end.

Definition Math_floor_F (x : PrimFloat.float) : option nat := floor_search x 0 4096.

Definition calcPoolEntropyBits_F (pool : list Template) (alphaLen : nat) : jsres (option nat) :=
  if alphaLen <? 2 then Throw ErrAlphabetTooShort else
  match pool with
  | [] => Throw ErrNoTemplate
  | _ =>
      Ok (match Math_log2_F (float_of_nat alphaLen) with
          | None => None
          | Some log2a =>
              let uniques := map slot_count pool in
              let uMax := max_unique uniques in
              let sumScaled :=
                fold_left (fun acc u =>
                  match acc, u with
                  | Some acc, Some u =>
                      match pow2_F (PrimFloat.mul (PrimFloat.sub (float_of_nat u) (float_of_nat uMax)) log2a) with
                      | Some p => Some (PrimFloat.add acc p)
                      | None => None
                      end
                  | Some acc, None => Some acc     (* 2 ** -Infinity === 0 *)
                  | None, _ => None
                  end) uniques (Some 0%float) in
              match sumScaled with
              | None => None
              | Some sumScaled =>
                  match Math_log2_F sumScaled with
                  | None => None
                  | Some l => Math_floor_F (PrimFloat.add (PrimFloat.mul (float_of_nat uMax) log2a) l)
                  end
              end
          end)
  end.

(** *** In IEEE-754 binary64, with [Math.log2] and [**] as parameters

    Doubles as [SpecFloat]'s [spec_float] with 53-bit significands and
    exponents below 1024: [+], [-], [*] round to nearest, ties to even
    ([SFadd], [SFsub], [SFmul]); [B2R] is the real value of a finite
    double.  ECMAScript leaves the results of [Math.log2] and [**]
    implementation-approximated, so the function takes them as arguments
    and returns, with its result, the list of their calls. *)
Definition f64 := spec_float.
Definition f64_add : f64 -> f64 -> f64 := SFadd 53 1024.
Definition f64_sub : f64 -> f64 -> f64 := SFsub 53 1024.
Definition f64_mul : f64 -> f64 -> f64 := SFmul 53 1024.

Definition B2R (x : f64) : R :=
  match x with
  | S754_finite sg m e => (IZR (cond_Zopp sg (Zpos m)) * powerRZ 2 e)%R
  | _ => 0%R
  end.

(** [n] as a double (exact below [2 ^ 53]). *)
Definition f64_of_nat (n : nat) : f64 := binary_normalize 53 1024 (Z.of_nat n) 0 false.
Definition f64_zero : f64 := S754_zero false.
Definition f64_one : f64 := f64_of_nat 1.
Definition f64_neg_infinity : f64 := S754_infinity true.

(** [Math.max(...xs)]: [-Infinity] for no argument. *)
Definition Math_max_f64 (xs : list f64) : f64 :=
  fold_left (fun m x => if SFltb m x then x else m) xs f64_neg_infinity.

(** [Math.floor]: [None] for [NaN] and the infinities. *)
Definition Math_floor_f64 (x : f64) : option Z :=
  match x with
  | S754_zero _ => Some 0%Z
  | S754_finite sg m e => Some (Z.shiftl (cond_Zopp sg (Zpos m)) e)
  | _ => None
  end.

(** A call of [Math.log2] or of [2 ** x]: argument and result. *)
Inductive math_call : Type :=
| Log2Call (x r : f64)
| Pow2Call (x r : f64).

(** Lines of [calcPoolEntropyBits] in order: the guards, [log2a], the
    [uniques] and [uMax] loop, the [sumScaled] loop, [bits] and
    [Math.floor]. *)
Definition calcPoolEntropyBits_B (log2_impl pow2_impl : f64 -> f64)
    (pool : list Template) (alphaLen : nat) : jsres (option Z) * list math_call :=
  if (alphaLen <? 2)%nat then (Throw ErrAlphabetTooShort, []) else
  match pool with
  | [] => (Throw ErrNoTemplate, [])
  | _ =>
      let a := f64_of_nat alphaLen in
      let log2a := log2_impl a in
      let uniques := map (fun t => f64_add f64_one (Math_max_f64 (map f64_of_nat (idx t)))) pool in
      let uMax := fold_left (fun uMax u => if SFltb uMax u then u else uMax) uniques f64_zero in
      let '(sumScaled, pow_calls) :=
        fold_left (fun '(acc, calls) u =>
                     let exp := f64_mul (f64_sub u uMax) log2a in
                     let p := pow2_impl exp in
                     (f64_add acc p, calls ++ [Pow2Call exp p])) uniques (f64_zero, []) in
      let l := log2_impl sumScaled in
      let bits := f64_add (f64_mul uMax log2a) l in
      (Ok (Math_floor_f64 bits), Log2Call a log2a :: pow_calls ++ [Log2Call sumScaled l])
  end.

Definition is_finite_f64 (x : f64) : bool :=
  match x with
  | S754_zero _ | S754_finite _ _ _ => true
  | _ => false
  end.

(** A call is accurate to [eps] when a finite argument (positive for
    [Math.log2]) gives a finite result within [eps] of [log2 x], or within
    [eps * 2 ^ x] of [2 ^ x]. *)
Definition call_accurate (eps : R) (c : math_call) : Prop :=
  match c with
  | Log2Call x r =>
      is_finite_f64 x = true -> (0 < B2R x)%R ->
      is_finite_f64 r = true /\ (Rabs (B2R r - Math_log2 (B2R x)) <= eps)%R
  | Pow2Call x r =>
      is_finite_f64 x = true ->
      is_finite_f64 r = true /\ (Rabs (B2R r - Rpower 2 (B2R x)) <= eps * Rpower 2 (B2R x))%R
  end.

(** A [Math.log2] and a [2 ** x] accurate to 1/64 on the calls that
    [calcPoolEntropyBits(DEFAULT_TEMPLATES, 33)] makes: [log2(33)] is
    answered by 323/64, any other argument by 3/32; [2 ** (-323/64)] by
    31/1024, [2 ** (-323/32)] by 15/16384, anything else by 1. *)
Definition log2_33_approx : f64 := S754_finite false (323 * 2 ^ 44) (-50).
Definition log2_sum_approx : f64 := S754_finite false (3 * 2 ^ 51) (-56).
Definition exp_minus_L : f64 := S754_finite true (323 * 2 ^ 44) (-50).
Definition exp_minus_2L : f64 := S754_finite true (323 * 2 ^ 44) (-49).
Definition pow2_minus_L : f64 := S754_finite false (31 * 2 ^ 48) (-58).
Definition pow2_minus_2L : f64 := S754_finite false (15 * 2 ^ 49) (-63).
Definition approx_log2 (x : f64) : f64 := if SFeqb x (f64_of_nat 33) then log2_33_approx else log2_sum_approx.
Definition approx_pow2 (x : f64) : f64 :=
  if SFeqb x exp_minus_L then pow2_minus_L else if SFeqb x exp_minus_2L then pow2_minus_2L else f64_one.

(** Per-character URL-safe substitution and its inverse, and lists of
    six-bit groups: vocabulary of the codec proofs. *)
Definition url_char (c : ascii) : ascii :=
  if ascii_eqb c "/" then "_"%char else if ascii_eqb c "+" then "-"%char else c.

Definition unurl_char (c : ascii) : ascii :=
  if ascii_eqb c "_" then "/"%char else if ascii_eqb c "-" then "+"%char else c.

Fixpoint all_six (ls : list (list bool)) : Prop :=
  match ls with
  | [] => True
  | l :: ls' => length l = 6 /\ all_six ls'
  end.

(** Fifty-four templates whose unique-slot counts are 1, 2, ..., 54. *)
Definition pool_1_to_54 : list Template :=
  map (fun u => mkTemplate [] (seq 0 u)) (seq 1 54).

(** Vocabulary of the further properties: the order [sort()] leaves keys
    in, the shape of [canonicalize]'s results, objects under construction
    that differ at one key, the URL-safe base64 alphabet, and options and a
    source for the concrete runs. *)
Definition str_le (x y : str) : Prop := str_ltb y x = false.

Fixpoint keys_sorted (l : list str) : bool :=
  match l with
  | k1 :: ((k2 :: _) as l') => negb (str_ltb k2 k1) && keys_sorted l'
  | _ => true
  end.


Definition agree_except (k0 : str) (o1 o2 : list (str * jsval)) : Prop :=
  Forall2 (fun a b => fst a = fst b /\ (snd a = snd b \/ fst a = k0)) o1 o2.

Definition b64url_table : str :=
  s "ABCDEFGHIJKLMNOPQRSTUVWXYZabcdefghijklmnopqrstuvwxyz0123456789-_".

Definition secret_k_options : Options :=
  mkOptions None None (Some (SecretString (s "k"))) JUndefined None None None.

Definition secret_k_hmac_options (h : str) : Options :=
  mkOptions None None (Some (SecretString (s "k"))) JUndefined None None (Some h).

Definition always_max (st : unit) (m : nat) : nat * unit := (m, st).

(** * Proofs *)

(** *** Rounding of binary64 operations *)

Lemma digits2_pos_log2 (p : positive) : Zpos (digits2_pos p) = (Z.log2 (Zpos p) + 1)%Z.
Proof.
  induction p as [p IH|p IH|]; cbn [digits2_pos]; try reflexivity;
    rewrite Pos2Z.inj_succ, IH;
    [change (Zpos p~1) with (2 * Zpos p + 1)%Z; rewrite Z.log2_succ_double
    |change (Zpos p~0) with (2 * Zpos p)%Z; rewrite Z.log2_double]; lia.
Qed.

Lemma iter_pos_nat {A} (f : A -> A) (p : positive) (x : A) :
  iter_pos f p x = Nat.iter (Pos.to_nat p) f x.
Proof.
  revert x. induction p as [p IH|p IH|]; intro x; cbn [iter_pos].
  - rewrite IH, IH, Pos2Nat.inj_xI, <- Nat.iter_add.
    replace (Pos.to_nat p + Pos.to_nat p)%nat with (2 * Pos.to_nat p)%nat by lia.
    rewrite Nat.iter_succ_r. reflexivity.
  - rewrite IH, IH, Pos2Nat.inj_xO, <- Nat.iter_add. f_equal. lia.
  - reflexivity.
Qed.

Lemma shr_1_m (mrs : shr_record) : (0 <= shr_m mrs)%Z ->
  shr_m (shr_1 mrs) = Z.div2 (shr_m mrs) /\ (0 <= shr_m (shr_1 mrs))%Z.
Proof.
  destruct mrs as [m r sb]. cbn [shr_m]. intro Hm.
  destruct m as [|[p|p|]|p]; cbn; try lia; split; try reflexivity; lia.
Qed.

Lemma shr_iter_m (k : nat) (mrs : shr_record) : (0 <= shr_m mrs)%Z ->
  shr_m (Nat.iter k shr_1 mrs) = Z.shiftr (shr_m mrs) (Z.of_nat k) /\
  (0 <= shr_m (Nat.iter k shr_1 mrs))%Z.
Proof.
  intro H. induction k as [|k IH]; [split; [reflexivity | exact H]|].
  rewrite !Nat.iter_succ. destruct IH as [IH1 IH2].
  destruct (shr_1_m _ IH2) as [E1 E2]. split; [|exact E2].
  rewrite E1, IH1, Z.div2_spec, Z.shiftr_shiftr by lia. f_equal. lia.
Qed.

Lemma round_nearest_even_cases (x : Z) (l : location) :
  round_nearest_even x l = x \/ round_nearest_even x l = (x + 1)%Z.
Proof.
  destruct l as [|[| |]]; cbn; auto. destruct (Z.even x); auto.
Qed.

Lemma fexp_normal (d : Z) : (-1000 <= d)%Z -> fexp 53 1024 d = (d - 53)%Z.
Proof. intro H. unfold fexp, emin. lia. Qed.

Lemma log2_bounds (m : Z) : (0 < m)%Z -> (2 ^ Z.log2 m <= m < 2 ^ (Z.log2 m + 1))%Z.
Proof. intro H. destruct (Z.log2_spec m H) as [A B]. rewrite <- Z.add_1_r in B. lia. Qed.

Ltac round_noshift m e d Ep :=
  cbn [shr shr_record_of_loc loc_of_shr_record shr_m round_nearest_even Zdigits2];
  rewrite digits2_pos_log2; fold d; rewrite fexp_normal by lia;
  replace (d + e - 53 - e)%Z with (d - 53)%Z by lia; rewrite Ep; cbn [shr shr_m];
  match goal with |- context [(?a <=? ?b)%Z] =>
    replace (a <=? b)%Z with true by (symmetry; apply Z.leb_le; lia) end;
  exists m, e; split; [reflexivity|]; split; [lia|];
  rewrite Z.sub_diag, Z.pow_0_r, Z.mul_1_r, Z.sub_diag; cbn; lia.

(** Rounding a positive mantissa [m] at exponent [e] (the kernel of
    [SFmul] and [SFadd]): within the normal range the result is finite and
    its mantissa, scaled back to [e], is within [m / 2 ^ 52] of [m]. *)
Lemma round_aux_spec (sg : bool) (m : positive) (e : Z) :
  (-1000 <= Z.log2 (Zpos m) + 1 + e <= 900)%Z ->
  exists m' e', binary_round_aux 53 1024 sg (Zpos m) e loc_Exact = S754_finite sg m' e' /\
    (e <= e')%Z /\ (2 ^ 52 * Z.abs (Zpos m' * 2 ^ (e' - e) - Zpos m) <= Zpos m)%Z.
Proof.
  intro Hr. unfold binary_round_aux, shr_fexp. cbn [Zdigits2].
  rewrite digits2_pos_log2. rewrite fexp_normal by lia.
  set (d := (Z.log2 (Zpos m) + 1)%Z) in *.
  pose proof (log2_bounds (Zpos m) eq_refl) as [Hlo Hhi]. pose proof (Z.log2_nonneg (Zpos m)).
  replace (d + e - 53 - e)%Z with (d - 53)%Z by lia.
  destruct (d - 53)%Z as [|p|p] eqn:Ep.
  - round_noshift m e d Ep.
  - cbn [shr shr_record_of_loc].
    rewrite iter_pos_nat.
    destruct (shr_iter_m (Pos.to_nat p) {| shr_m := Zpos m; shr_r := false; shr_s := false |} ltac:(cbn; lia))
      as [Hm1 _].
    set (R1 := Nat.iter (Pos.to_nat p) shr_1 _) in *.
    cbn [shr_m] in Hm1. rewrite positive_nat_Z, Z.shiftr_div_pow2 in Hm1 by lia.
    set (m1 := shr_m R1) in *.
    assert (Hp : Zpos p = (d - 53)%Z) by lia.
    assert (Hm1lo : (2 ^ 52 <= m1)%Z).
    { rewrite Hm1. apply Z.div_le_lower_bound; [apply Z.pow_pos_nonneg; lia|].
      rewrite <- Z.pow_add_r by lia. replace (Zpos p + 52)%Z with (Z.log2 (Zpos m)) by lia. lia. }
    assert (Hm1hi : (m1 < 2 ^ 53)%Z).
    { rewrite Hm1. apply Z.div_lt_upper_bound; [apply Z.pow_pos_nonneg; lia|].
      rewrite <- Z.pow_add_r by lia. replace (Zpos p + 53)%Z with d by lia. exact Hhi. }
    assert (Hdiv : (m1 * 2 ^ Zpos p <= Zpos m < (m1 + 1) * 2 ^ Zpos p)%Z).
    { rewrite Hm1. pose proof (Z.pow_pos_nonneg 2 (Zpos p) ltac:(lia) ltac:(lia)) as Hpp.
      pose proof (Z.mul_div_le (Zpos m) (2 ^ Zpos p) Hpp).
      pose proof (Z.mod_pos_bound (Zpos m) (2 ^ Zpos p) Hpp).
      pose proof (Z.div_mod (Zpos m) (2 ^ Zpos p) ltac:(lia)). nia. }
    set (r := round_nearest_even m1 (loc_of_shr_record R1)).
    assert (Hr2 : r = m1 \/ r = (m1 + 1)%Z) by apply round_nearest_even_cases.
    assert (Hrpos : (0 < r)%Z) by lia.
    destruct r as [|q|q] eqn:Er; try lia.
    cbn [shr_record_of_loc Zdigits2]. rewrite digits2_pos_log2.
    assert (Hq : (2 ^ 52 <= Zpos q <= 2 ^ 53)%Z) by lia.
    destruct (Z.eq_dec (Zpos q) (2 ^ 53)) as [Eq|Nq].
    + (* carry into a new binade *)
      rewrite Eq. rewrite Z.log2_pow2 by lia.
      rewrite fexp_normal by lia.
      replace (53 + 1 + (e + Zpos p) - 53 - (e + Zpos p))%Z with 1%Z by lia.
      change (2 ^ 53)%Z with (Zpos 9007199254740992). cbn [shr iter_pos shr_1 shr_m shr_r shr_s].
      match goal with |- context [(?a <=? ?b)%Z] => replace (a <=? b)%Z with true by (symmetry; apply Z.leb_le; lia) end.
      eexists _, _. split; [reflexivity|]. split; [lia|].
      replace (e + Zpos p + 1 - e)%Z with (Zpos p + 1)%Z by lia.
      assert (E53 : (Zpos 4503599627370496 * 2 ^ (Zpos p + 1) = Zpos q * 2 ^ Zpos p)%Z)
        by (rewrite Eq, Z.pow_add_r by lia; change (2 ^ 53)%Z with (4503599627370496 * 2 ^ 1)%Z; ring).
      rewrite E53.
      pose proof (Z.pow_pos_nonneg 2 (Zpos p) ltac:(lia) ltac:(lia)).
      assert (Hd : (Z.abs (Zpos q * 2 ^ Zpos p - Zpos m) <= 2 ^ Zpos p)%Z) by (apply Z.abs_le; nia).
      assert (Hm : (2 ^ 52 * 2 ^ Zpos p <= Zpos m)%Z).
      { rewrite <- Z.pow_add_r by lia. replace (52 + Zpos p)%Z with (Z.log2 (Zpos m)) by lia. lia. }
      nia.
    + assert (Hlq : Z.log2 (Zpos q) = 52%Z).
      { apply Z.log2_unique; [lia|]. split; [lia|]. cbn [Z.succ]. lia. }
      rewrite Hlq, fexp_normal by lia.
      replace (52 + 1 + (e + Zpos p) - 53 - (e + Zpos p))%Z with 0%Z by lia.
      cbn [shr shr_m].
      match goal with |- context [(?a <=? ?b)%Z] => replace (a <=? b)%Z with true by (symmetry; apply Z.leb_le; lia) end.
      eexists _, _. split; [reflexivity|]. split; [lia|].
      replace (e + Zpos p - e)%Z with (Zpos p) by lia.
      pose proof (Z.pow_pos_nonneg 2 (Zpos p) ltac:(lia) ltac:(lia)).
      assert (Hd : (Z.abs (Zpos q * 2 ^ Zpos p - Zpos m) <= 2 ^ Zpos p)%Z) by (apply Z.abs_le; nia).
      assert (Hm : (2 ^ 52 * 2 ^ Zpos p <= Zpos m)%Z).
      { rewrite <- Z.pow_add_r by lia. replace (52 + Zpos p)%Z with (Z.log2 (Zpos m)) by lia. lia. }
      pose proof (Z.mul_le_mono_nonneg_l _ _ (2 ^ 52) ltac:(lia) Hd). lia.
  - round_noshift m e d Ep.
Qed.

Lemma Rabs_le_between' (x a : R) : (Rabs x <= a)%R -> (- a <= x <= a)%R.
Proof. unfold Rabs. destruct (Rcase_abs x); intro; lra. Qed.

Lemma powerRZ2_IZR (k : Z) : (0 <= k)%Z -> powerRZ 2 k = IZR (2 ^ k).
Proof.
  intro Hk. destruct k as [|p|p]; [reflexivity| |lia].
  cbn [powerRZ]. rewrite <- (positive_nat_Z p), pow_IZR. reflexivity.
Qed.

Lemma powerRZ2_pos (k : Z) : (0 < powerRZ 2 k)%R.
Proof. apply powerRZ_lt. lra. Qed.

Lemma powerRZ2_add (a b : Z) : powerRZ 2 (a + b) = (powerRZ 2 a * powerRZ 2 b)%R.
Proof. apply powerRZ_add. lra. Qed.

Lemma powerRZ2_lt (a b : Z) : (a < b)%Z -> (powerRZ 2 a < powerRZ 2 b)%R.
Proof.
  intro H. rewrite !powerRZ_Rpower by lra. apply Rpower_lt; [lra|]. apply IZR_lt, H.
Qed.

(** The value of a positive mantissa [M] at exponent [e] lies in the
    binade [[2 ^ (log2 M + e), 2 ^ (log2 M + 1 + e))]. *)
Lemma value_binade (M : Z) (e : Z) : (0 < M)%Z ->
  (powerRZ 2 (Z.log2 M + e) <= IZR M * powerRZ 2 e < powerRZ 2 (Z.log2 M + 1 + e))%R.
Proof.
  intro HM. pose proof (log2_bounds M HM) as [Hlo Hhi].
  pose proof (Z.log2_nonneg M). pose proof (powerRZ2_pos e).
  rewrite (powerRZ2_add (Z.log2 M) e), (powerRZ2_add (Z.log2 M + 1) e).
  rewrite (powerRZ2_IZR (Z.log2 M)), (powerRZ2_IZR (Z.log2 M + 1)) by lia.
  split.
  - apply Rmult_le_compat_r; [lra|]. apply IZR_le, Hlo.
  - apply Rmult_lt_compat_r; [lra|]. apply IZR_lt, Hhi.
Qed.

Lemma range_of_value (M : Z) (e : Z) : (0 < M)%Z ->
  (powerRZ 2 (-900) <= IZR M * powerRZ 2 e <= powerRZ 2 800)%R ->
  (-1000 <= Z.log2 M + 1 + e <= 900)%Z.
Proof.
  intros HM [Hl Hu]. pose proof (value_binade M e HM) as [A B].
  split.
  - destruct (Z_lt_le_dec (Z.log2 M + 1 + e) (-900)) as [Hlt|]; [|lia].
    pose proof (powerRZ2_lt _ _ Hlt). lra.
  - destruct (Z_lt_le_dec 800 (Z.log2 M + e)) as [Hlt|]; [|lia].
    pose proof (powerRZ2_lt _ _ Hlt). lra.
Qed.

Lemma IZR_cond_Zopp (sg : bool) (z : Z) : IZR (cond_Zopp sg z) = (if sg then - IZR z else IZR z)%R.
Proof. destruct sg; cbn [cond_Zopp]; [apply opp_IZR | reflexivity]. Qed.

(** [binary_round_aux] in real terms: relative error at most [2 ^ -52]. *)
Lemma round_aux_real (sg : bool) (m : positive) (e : Z) :
  (powerRZ 2 (-900) <= IZR (Zpos m) * powerRZ 2 e <= powerRZ 2 800)%R ->
  exists m' e', binary_round_aux 53 1024 sg (Zpos m) e loc_Exact = S754_finite sg m' e' /\
    (Rabs (B2R (S754_finite sg m' e') - IZR (cond_Zopp sg (Zpos m)) * powerRZ 2 e)
       <= / IZR (2 ^ 52) * (IZR (Zpos m) * powerRZ 2 e))%R.
Proof.
  intro Hv. pose proof (range_of_value (Zpos m) e eq_refl Hv) as Hr.
  destruct (round_aux_spec sg m e Hr) as [m' [e' [Eq [He Hb]]]].
  exists m', e'. split; [exact Eq|]. cbn [B2R].
  replace e' with ((e' - e) + e)%Z at 1 by lia.
  rewrite powerRZ2_add, powerRZ2_IZR by lia.
  rewrite !IZR_cond_Zopp.
  assert (Hd : (Rabs (IZR (Zpos m') * IZR (2 ^ (e' - e)) - IZR (Zpos m)) * IZR (2 ^ 52)
                <= IZR (Zpos m))%R).
  { rewrite <- mult_IZR, <- minus_IZR, <- abs_IZR, <- mult_IZR. apply IZR_le. lia. }
  pose proof (powerRZ2_pos e) as Hp.
  assert (H52 : (0 < IZR (2 ^ 52))%R) by (apply IZR_lt; reflexivity).
  replace (Rabs _) with (Rabs (IZR (Zpos m') * IZR (2 ^ (e' - e)) - IZR (Zpos m)) * powerRZ 2 e)%R.
  - replace (/ IZR (2 ^ 52) * (IZR (Zpos m) * powerRZ 2 e))%R
      with ((IZR (Zpos m) / IZR (2 ^ 52)) * powerRZ 2 e)%R by (field; lra).
    apply Rmult_le_compat_r; [lra|]. apply (Rmult_le_reg_r (IZR (2 ^ 52))); [exact H52|].
    unfold Rdiv. rewrite Rmult_assoc, Rinv_l, Rmult_1_r by lra. exact Hd.
  - symmetry. set (X := (IZR (Zpos m') * IZR (2 ^ (e' - e)) - IZR (Zpos m))%R).
    destruct sg; match goal with |- Rabs ?a = _ => idtac end.
    + match goal with |- Rabs ?a = _ => replace a with (- (X * powerRZ 2 e))%R by (unfold X; ring) end.
      rewrite Rabs_Ropp, Rabs_mult, (Rabs_pos_eq (powerRZ 2 e)) by lra. reflexivity.
    + match goal with |- Rabs ?a = _ => replace a with (X * powerRZ 2 e)%R by (unfold X; ring) end.
      rewrite Rabs_mult, (Rabs_pos_eq (powerRZ 2 e)) by lra. reflexivity.
Qed.

Lemma Pos_iter_xO (mx d : positive) : Zpos (Pos.iter xO mx d) = (Zpos mx * 2 ^ Zpos d)%Z.
Proof.
  induction d as [|d IH] using Pos.peano_ind; [cbn; lia|].
  rewrite Pos.iter_succ. change (Zpos (xO (Pos.iter xO mx d))) with (2 * Zpos (Pos.iter xO mx d))%Z.
  rewrite IH, Pos2Z.inj_succ, Z.pow_succ_r by lia. ring.
Qed.

Lemma shl_align_value (M : positive) (e e' : Z) :
  (snd (shl_align M e e') <= e)%Z /\
  Zpos (fst (shl_align M e e')) = (Zpos M * 2 ^ (e - snd (shl_align M e e')))%Z.
Proof.
  unfold shl_align. destruct (e' - e)%Z as [|d|d] eqn:E; cbn [fst snd].
  - rewrite Z.sub_diag. split; [lia | ring].
  - rewrite Z.sub_diag. split; [lia | ring].
  - split; [lia|]. rewrite Pos_iter_xO. f_equal. f_equal. lia.
Qed.

Lemma B2R_finite (sg : bool) (m : positive) (e : Z) :
  B2R (S754_finite sg m e) = (IZR (cond_Zopp sg (Zpos m)) * powerRZ 2 e)%R.
Proof. reflexivity. Qed.

(** Product of two finite doubles, in the normal range. *)
Lemma f64_mul_finite (sx sy : bool) (mx my : positive) (ex ey : Z) :
  let x := S754_finite sx mx ex in let y := S754_finite sy my ey in
  (powerRZ 2 (-900) <= Rabs (B2R x * B2R y) <= powerRZ 2 800)%R ->
  exists m' e', f64_mul x y = S754_finite (xorb sx sy) m' e' /\
    (Rabs (B2R (S754_finite (xorb sx sy) m' e') - B2R x * B2R y) <= / IZR (2 ^ 52) * Rabs (B2R x * B2R y))%R.
Proof.
  intros x y Hr.
  assert (Ev : (B2R x * B2R y = IZR (cond_Zopp (xorb sx sy) (Zpos (mx * my))) * powerRZ 2 (ex + ey))%R).
  { unfold x, y. rewrite !B2R_finite, !IZR_cond_Zopp, powerRZ2_add, Pos2Z.inj_mul, mult_IZR.
    destruct sx, sy; cbn [xorb]; ring. }
  assert (Ea : (Rabs (B2R x * B2R y) = IZR (Zpos (mx * my)) * powerRZ 2 (ex + ey))%R).
  { rewrite Ev, Rabs_mult, IZR_cond_Zopp, (Rabs_pos_eq (powerRZ 2 _)) by (left; apply powerRZ2_pos).
    f_equal. destruct (xorb sx sy); [rewrite Rabs_Ropp|]; apply Rabs_pos_eq, IZR_le; lia. }
  rewrite Ea in Hr |- *. rewrite Ev.
  exact (round_aux_real (xorb sx sy) (mx * my) (ex + ey) Hr).
Qed.

(** Sum of two positive finite doubles, in the normal range. *)
Lemma f64_add_pos (mx my : positive) (ex ey : Z) :
  let x := S754_finite false mx ex in let y := S754_finite false my ey in
  (powerRZ 2 (-900) <= B2R x + B2R y <= powerRZ 2 800)%R ->
  exists m' e', f64_add x y = S754_finite false m' e' /\
    (Rabs (B2R (S754_finite false m' e') - (B2R x + B2R y)) <= / IZR (2 ^ 52) * (B2R x + B2R y))%R.
Proof.
  intros x y Hr. unfold f64_add, SFadd, x, y.
  set (ez := Z.min ex ey).
  pose proof (shl_align_value mx ex ez) as [_ Ha].
  pose proof (shl_align_value my ey ez) as [_ Hb].
  assert (Sa : snd (shl_align mx ex ez) = ez).
  { unfold shl_align. destruct (ez - ex)%Z eqn:E; cbn [snd]; try reflexivity; lia. }
  assert (Sb : snd (shl_align my ey ez) = ez).
  { unfold shl_align. destruct (ez - ey)%Z eqn:E; cbn [snd]; try reflexivity; lia. }
  rewrite Sa in Ha. rewrite Sb in Hb.
  set (a := fst (shl_align mx ex ez)) in *. set (b := fst (shl_align my ey ez)) in *.
  cbn [cond_Zopp Z.add binary_normalize].
  assert (Esum : (B2R x + B2R y = IZR (Zpos (a + b)) * powerRZ 2 ez)%R).
  { unfold x, y. rewrite !B2R_finite. cbn [cond_Zopp].
    rewrite Pos2Z.inj_add, plus_IZR, Ha, Hb, !mult_IZR.
    rewrite <- !powerRZ2_IZR by lia.
    replace ex with ((ex - ez) + ez)%Z at 1 by lia. replace ey with ((ey - ez) + ez)%Z at 1 by lia.
    rewrite !powerRZ2_add. ring. }
  fold x y. rewrite Esum in Hr |- *.
  unfold binary_round.
  pose proof (shl_align_value (a + b) ez (fexp 53 1024 (Zpos (digits2_pos (a + b)) + ez))) as [Hle Hv].
  destruct (shl_align (a + b) ez _) as [mz ez'] eqn:Es. cbn [fst snd] in Hle, Hv.
  assert (Ev : (IZR (Zpos (a + b)) * powerRZ 2 ez = IZR (Zpos mz) * powerRZ 2 ez')%R).
  { rewrite Hv, mult_IZR, <- powerRZ2_IZR by lia.
    replace ez with ((ez - ez') + ez')%Z at 1 by lia. rewrite powerRZ2_add. ring. }
  rewrite Ev in Hr |- *.
  exact (round_aux_real false mz ez' Hr).
Qed.


(** *** [matchesTemplate] *)

Lemma assoc_cons (k k' : nat) (c : ascii) (m : list (nat * ascii)) :
  assoc k ((k', c) :: m) = if Nat.eqb k k' then Some c else assoc k m.
Proof. reflexivity. Qed.

Lemma ascii_eqb_spec (a b : ascii) : ascii_eqb a b = true <-> a = b.
Proof. unfold ascii_eqb. apply Ascii.eqb_eq. Qed.

(** The loop accepts exactly when the pairs agree with the map and with
    one another on every slot. *)
Lemma matches_loop_spec (ps m : list (nat * ascii)) :
  matches_loop m ps = true <->
  (forall sl c c', In (sl, c) ps -> assoc sl m = Some c' -> c' = c) /\
  (forall sl c1 c2, In (sl, c1) ps -> In (sl, c2) ps -> c1 = c2).
Proof.
  revert m; induction ps as [|[sl c] ps IH]; intro m; simpl.
  - split; [intros _; split; intros; contradiction | reflexivity].
  - destruct (assoc sl m) as [c'|] eqn:Hm.
    + destruct (ascii_eqb c' c) eqn:Hc.
      * apply ascii_eqb_spec in Hc; subst c'.
        rewrite IH; split.
        -- intros [H1 H2]; split.
           ++ intros sl' d d' [Heq|Hin] Hl.
              ** inversion Heq; subst. congruence.
              ** eauto.
           ++ intros sl' d1 d2 [Heq1|Hin1] [Heq2|Hin2].
              ** inversion Heq1; inversion Heq2; congruence.
              ** inversion Heq1; subst. exact (H1 _ _ _ Hin2 Hm).
              ** inversion Heq2; subst. symmetry. exact (H1 _ _ _ Hin1 Hm).
              ** eauto.
        -- intros [H1 H2]; split; eauto.
      * split; [discriminate|].
        intros [H1 _]. specialize (H1 sl c c' (or_introl eq_refl) Hm).
        subst. rewrite (proj2 (ascii_eqb_spec c c) eq_refl) in Hc. discriminate.
    + rewrite IH; split.
      * intros [H1 H2]; split.
        -- intros sl' d d' [Heq|Hin] Hl.
           ++ inversion Heq; subst. congruence.
           ++ specialize (H1 sl' d d' Hin). rewrite assoc_cons in H1.
              destruct (Nat.eqb sl' sl) eqn:E.
              ** apply Nat.eqb_eq in E; subst. congruence.
              ** auto.
        -- intros sl' d1 d2 [Heq1|Hin1] [Heq2|Hin2].
           ++ inversion Heq1; inversion Heq2; congruence.
           ++ inversion Heq1; subst.
              apply (H1 sl' d2 d1 Hin2). rewrite assoc_cons, Nat.eqb_refl. reflexivity.
           ++ inversion Heq2; subst. symmetry.
              apply (H1 sl' d1 d2 Hin1). rewrite assoc_cons, Nat.eqb_refl. reflexivity.
           ++ eauto.
      * intros [H1 H2]; split.
        -- intros sl' d d' Hin Hl. rewrite assoc_cons in Hl.
           destruct (Nat.eqb sl' sl) eqn:E.
           ++ apply Nat.eqb_eq in E; subst. inversion Hl; subst.
              symmetry. apply (H2 sl d d'); auto.
           ++ eauto.
        -- eauto.
Qed.

Lemma nth_error_combine {A B} (l : list A) (l' : list B) (i : nat) :
  nth_error (combine l l') i =
  match nth_error l i, nth_error l' i with
  | Some a, Some b => Some (a, b)
  | _, _ => None
  end.
Proof.
  revert l' i; induction l as [|a l IH]; intros [|b l'] [|i]; simpl; auto.
  destruct (nth_error l i); reflexivity.
Qed.

Lemma In_combine_pos (ix : list nat) (code : str) sl c :
  In (sl, c) (combine ix code) <->
  exists i, nth_error ix i = Some sl /\ nth_error code i = Some c.
Proof.
  split.
  - intro H. apply In_nth_error in H as [i Hi].
    rewrite nth_error_combine in Hi.
    destruct (nth_error ix i) eqn:E1, (nth_error code i) eqn:E2; try discriminate.
    inversion Hi; subst. eauto.
  - intros [i [H1 H2]]. apply nth_error_In with (n := i).
    rewrite nth_error_combine, H1, H2. reflexivity.
Qed.

Lemma matchesTemplate_spec (code : str) (t : Template) :
  matchesTemplate code t = true <->
  length code = length (idx t) /\
  (forall i j sl, nth_error (idx t) i = Some sl -> nth_error (idx t) j = Some sl ->
                  nth_error code i = nth_error code j).
Proof.
  unfold matchesTemplate.
  destruct (Nat.eqb (length code) (length (idx t))) eqn:Hl; simpl.
  2:{ split; [discriminate|]. intros [H _]. apply Nat.eqb_neq in Hl. contradiction. }
  apply Nat.eqb_eq in Hl.
  rewrite matches_loop_spec. split.
  - intros [_ H]. split; [exact Hl|].
    intros i j sl Hi Hj.
    assert (Hi' : i < length code) by (rewrite Hl; apply nth_error_Some; congruence).
    assert (Hj' : j < length code) by (rewrite Hl; apply nth_error_Some; congruence).
    apply nth_error_Some in Hi', Hj'.
    destruct (nth_error code i) as [ci|] eqn:Ei; [|contradiction].
    destruct (nth_error code j) as [cj|] eqn:Ej; [|contradiction].
    f_equal. apply (H sl); apply In_combine_pos; eauto.
  - intros [_ H]. split; [intros; discriminate|].
    intros sl c1 c2 H1 H2.
    apply In_combine_pos in H1 as [i [Hi1 Hi2]].
    apply In_combine_pos in H2 as [j [Hj1 Hj2]].
    specialize (H i j sl Hi1 Hj1). congruence.
Qed.

(** *** Node's codecs invert [encodeBuffer] *)

Lemma hex_byte_roundtrip (b : Byte.byte) (rest : str) :
  hex_decode (hex_of_byte b ++ rest) = b :: hex_decode rest.
Proof. destruct b; reflexivity. Qed.

Lemma hex_roundtrip (bs : bytes) : hex_decode (flat_map hex_of_byte bs) = bs.
Proof.
  induction bs as [|b bs IH]; [reflexivity|].
  change (flat_map hex_of_byte (b :: bs)) with (hex_of_byte b ++ flat_map hex_of_byte bs).
  rewrite hex_byte_roundtrip, IH. reflexivity.
Qed.

Lemma hex_length (bs : bytes) : length (flat_map hex_of_byte bs) = 2 * length bs.
Proof. induction bs as [|b bs IH]; simpl; [reflexivity|]. rewrite IH. lia. Qed.

Lemma byte_of_bits_of_byte (b : Byte.byte) : byte_of_bits (bits_of_byte b) = Some b.
Proof. destruct b; reflexivity. Qed.

(** One base64 character per six bits: it decodes back to them, is not
    [=], and survives the URL-safe substitution and its inverse. *)
Lemma sextet_char (l : list bool) : length l = 6 ->
  let c := b64_char (value_of_bits l) in
  unbase64 c = Some (value_of_bits l) /\ bits6 (value_of_bits l) = l /\
  ascii_eqb c "=" = false /\ unurl_char (url_char c) = c.
Proof.
  intro H.
  destruct l as [|b1 [|b2 [|b3 [|b4 [|b5 [|b6 [|]]]]]]]; try discriminate.
  destruct b1, b2, b3, b4, b5, b6; vm_compute; repeat split.
Qed.

Lemma replace_char_map a b x :
  replace_char a b x = map (fun c => if ascii_eqb c a then b else c) x.
Proof. reflexivity. Qed.

Lemma chunk6_spec (n : nat) (l : list bool) : length l = 6 * n ->
  all_six (chunk6 l) /\ concat (chunk6 l) = l.
Proof.
  revert l; induction n as [|n IH]; intros l H.
  - destruct l; [split; reflexivity | discriminate].
  - destruct l as [|b1 [|b2 [|b3 [|b4 [|b5 [|b6 r]]]]]]; simpl in H; try lia.
    destruct (IH r) as [H1 H2]; [lia|].
    simpl. rewrite H2. split; [split; [reflexivity | exact H1] | reflexivity].
Qed.

Lemma sextets_body (ls : list (list bool)) (tail : str) :
  all_six ls -> (tail = [] \/ exists tl, tail = "="%char :: tl) ->
  b64_sextets (map (fun l => b64_char (value_of_bits l)) ls ++ tail) = map value_of_bits ls.
Proof.
  intros Hs Ht. induction ls as [|l ls IH]; simpl.
  - destruct Ht as [-> | [tl ->]]; reflexivity.
  - destruct Hs as [Hl Hs].
    destruct (sextet_char l Hl) as [Hu [_ [He _]]].
    rewrite He, Hu, IH by exact Hs. reflexivity.
Qed.

Lemma bits_of_sextets (ls : list (list bool)) :
  all_six ls -> flat_map bits6 (map value_of_bits ls) = concat ls.
Proof.
  induction ls as [|l ls IH]; [reflexivity|].
  intros [Hl Hs]. destruct (sextet_char l Hl) as [_ [Hb _]].
  change (bits6 (value_of_bits l) ++ flat_map bits6 (map value_of_bits ls) = l ++ concat ls).
  rewrite Hb, IH by exact Hs. reflexivity.
Qed.

Lemma chunk8_bytes (bs : bytes) (z : list bool) : length z < 8 ->
  chunk8 (flat_map bits_of_byte bs ++ z) = map bits_of_byte bs.
Proof.
  intro Hz. induction bs as [|b bs IH]; simpl.
  - destruct z as [|b1 [|b2 [|b3 [|b4 [|b5 [|b6 [|b7 [|b8 r]]]]]]]]; simpl in Hz;
      try reflexivity; lia.
  - rewrite IH. reflexivity.
Qed.

Lemma somes_map_some {A} (l : list A) : somes (map Some l) = l.
Proof. induction l; simpl; congruence. Qed.

Lemma length_bits (bs : bytes) : length (flat_map bits_of_byte bs) = 8 * length bs.
Proof. induction bs as [|b bs IH]; simpl; [reflexivity|]. rewrite IH. lia. Qed.

Lemma pad_to_6 (n : nat) : exists q, n + pad_to 6 n = 6 * q /\ pad_to 6 n < 6.
Proof.
  unfold pad_to.
  pose proof (Nat.div_mod n 6 ltac:(lia)) as Hd.
  pose proof (Nat.mod_upper_bound n 6 ltac:(lia)) as Hr.
  remember (n mod 6) as r. remember (n / 6) as q.
  destruct (Nat.eq_dec r 0) as [E|E].
  - subst r. rewrite E. exists q. simpl. lia.
  - rewrite (Nat.mod_small (6 - r) 6) by lia.
    exists (S q). split; lia.
Qed.

(** The sextets of an encoding, and the bits they carry. *)
Lemma b64_encode_parts (bs : bytes) :
  exists ls n,
    all_six ls /\ concat ls = flat_map bits_of_byte bs ++ repeat false n /\ n < 8 /\
    b64_encode bs = map (fun l => b64_char (value_of_bits l)) ls ++
                    repeat "="%char (pad_to 4 (length ls)).
Proof.
  unfold b64_encode.
  set (bits := flat_map bits_of_byte bs).
  destruct (pad_to_6 (length bits)) as [q [Hq Hlt]].
  destruct (chunk6_spec q (bits ++ repeat false (pad_to 6 (length bits)))) as [H1 H2].
  { rewrite length_app, repeat_length. exact Hq. }
  exists (chunk6 (bits ++ repeat false (pad_to 6 (length bits)))), (pad_to 6 (length bits)).
  split; [exact H1|]. split; [exact H2|]. split; [lia|].
  rewrite length_map. reflexivity.
Qed.

Lemma b64_decode_of_parts (bs : bytes) (ls : list (list bool)) (n : nat) (tail : str) :
  all_six ls -> concat ls = flat_map bits_of_byte bs ++ repeat false n -> n < 8 ->
  (tail = [] \/ exists tl, tail = "="%char :: tl) ->
  b64_decode (map (fun l => b64_char (value_of_bits l)) ls ++ tail) = bs.
Proof.
  intros Hs Hc Hn Ht. unfold b64_decode.
  rewrite sextets_body by assumption.
  rewrite bits_of_sextets, Hc by assumption.
  rewrite chunk8_bytes by (rewrite repeat_length; exact Hn).
  rewrite map_map.
  rewrite (map_ext _ Some byte_of_bits_of_byte). apply somes_map_some.
Qed.

Lemma url_replace (x : str) :
  replace_char "/" "_" (replace_char "+" "-" x) = map url_char x.
Proof.
  unfold replace_char. rewrite map_map. apply map_ext. intro c.
  unfold url_char.
  destruct (ascii_eqb c "+") eqn:E1.
  - apply ascii_eqb_spec in E1; subst. reflexivity.
  - reflexivity.
Qed.

Lemma unurl_replace (x : str) :
  replace_char "_" "/" (replace_char "-" "+" x) = map unurl_char x.
Proof.
  unfold replace_char. rewrite map_map. apply map_ext. intro c.
  unfold unurl_char.
  destruct (ascii_eqb c "-") eqn:E1.
  - apply ascii_eqb_spec in E1; subst. reflexivity.
  - reflexivity.
Qed.

Lemma rev_repeat {A} (a : A) (k : nat) : rev (repeat a k) = repeat a k.
Proof.
  induction k as [|k IH]; [reflexivity|].
  simpl. rewrite IH. clear IH. induction k as [|k IH]; [reflexivity|].
  simpl. rewrite IH. reflexivity.
Qed.

Lemma strip_trailing_eq_pad (x : str) (k : nat) :
  Forall (fun c => ascii_eqb c "=" = false) x ->
  strip_trailing_eq (x ++ repeat "="%char k) = x.
Proof.
  intro Hx. unfold strip_trailing_eq.
  rewrite rev_app_distr, rev_repeat.
  assert (Hd : forall z, drop_leading_eq (repeat "="%char k ++ z) = drop_leading_eq z).
  { induction k as [|k IH]; intro z; [reflexivity|]. simpl. exact (IH z). }
  rewrite Hd.
  apply Forall_rev in Hx.
  destruct (rev x) as [|c r] eqn:Er.
  - simpl. rewrite <- (rev_involutive x), Er. reflexivity.
  - inversion Hx as [|c' r' Hc Hr]; subst.
    simpl. rewrite Hc. rewrite <- Er. apply rev_involutive.
Qed.

Lemma body_no_eq (ls : list (list bool)) : all_six ls ->
  Forall (fun c => ascii_eqb c "=" = false) (map (fun l => b64_char (value_of_bits l)) ls).
Proof.
  induction ls as [|l ls IH]; simpl; [constructor|].
  intros [Hl Hs]. constructor; [apply (sextet_char l Hl) | exact (IH Hs)].
Qed.

Lemma body_unurl_url (ls : list (list bool)) : all_six ls ->
  map unurl_char (map url_char (map (fun l => b64_char (value_of_bits l)) ls)) =
  map (fun l => b64_char (value_of_bits l)) ls.
Proof.
  induction ls as [|l ls IH]; [reflexivity|].
  intros [Hl Hs]. cbn [map]. rewrite IH by exact Hs.
  destruct (sextet_char l Hl) as [_ [_ [_ H]]]. rewrite H. reflexivity.
Qed.

Lemma url_no_eq (x : str) :
  Forall (fun c => ascii_eqb c "=" = false) x ->
  Forall (fun c => ascii_eqb c "=" = false) (map url_char x).
Proof.
  intro H. apply Forall_map. revert H. apply Forall_impl. intros c Hc.
  unfold url_char.
  destruct (ascii_eqb c "/"); [reflexivity|].
  destruct (ascii_eqb c "+"); [reflexivity | exact Hc].
Qed.

Lemma pad_tail (k : nat) : repeat "="%char k = [] \/ exists tl, repeat "="%char k = "="%char :: tl.
Proof. destruct k; [left | right; eexists]; reflexivity. Qed.

(** [decodeHmacToBuffer] inverts [encodeBuffer], for every encoding. *)
Lemma decode_encode (raw : bytes) (enc : hmac_encoding) :
  decodeHmacToBuffer (encodeBuffer raw enc) enc = Some raw.
Proof.
  destruct enc; simpl.
  - rewrite hex_length.
    replace (Nat.odd (2 * length raw)) with false.
    + rewrite hex_roundtrip. reflexivity.
    + unfold Nat.odd. rewrite Nat.even_mul. reflexivity.
  - destruct (b64_encode_parts raw) as [ls [n [Hs [Hc [Hn ->]]]]].
    f_equal. eapply b64_decode_of_parts; eauto. apply pad_tail.
  - destruct (b64_encode_parts raw) as [ls [n [Hs [Hc [Hn ->]]]]].
    rewrite url_replace, map_app.
    replace (map url_char (repeat "="%char (pad_to 4 (length ls))))
      with (repeat "="%char (pad_to 4 (length ls)))
      by (rewrite map_repeat; reflexivity).
    rewrite strip_trailing_eq_pad.
    2:{ apply url_no_eq, body_no_eq, Hs. }
    rewrite unurl_replace, body_unurl_url by exact Hs.
    f_equal. eapply b64_decode_of_parts; eauto. apply pad_tail.
Qed.

(** *** [canonicalize] and [bigint] values *)

Section JsvalInd.
Variable P : jsval -> Prop.
Hypothesis HUndefined : P JUndefined.
Hypothesis HNull : P JNull.
Hypothesis HBool : forall b, P (JBool b).
Hypothesis HNumber : forall x, P (JNumber x).
Hypothesis HString : forall x, P (JString x).
Hypothesis HBigInt : forall z, P (JBigInt z).
Hypothesis HArray : forall xs, Forall P xs -> P (JArray xs).
Hypothesis HObject : forall fs, Forall (fun kv => P (snd kv)) fs -> P (JObject fs).
Hypothesis HOther : forall r, P (JOther r).

Fixpoint jsval_ind' (v : jsval) : P v :=
  match v with
  | JUndefined => HUndefined
  | JNull => HNull
  | JBool b => HBool b
  | JNumber x => HNumber x
  | JString x => HString x
  | JBigInt z => HBigInt z
  | JArray xs =>
      HArray xs ((fix go (l : list jsval) : Forall P l :=
                    match l with
                    | [] => Forall_nil _
                    | x :: l' => Forall_cons _ (jsval_ind' x) (go l')
                    end) xs)
  | JObject fs =>
      HObject fs ((fix go (l : list (str * jsval)) : Forall (fun kv => P (snd kv)) l :=
                     match l with
                     | [] => Forall_nil _
                     | (k, x) :: l' => Forall_cons (P := fun kv => P (snd kv)) (k, x) (jsval_ind' x) (go l')
                     end) fs)
  | JOther r => HOther r
  end.
End JsvalInd.

Lemma is_undefined_debigint (v : jsval) : is_undefined (debigint v) = is_undefined v.
Proof. destruct v; reflexivity. Qed.

Lemma canonicalize_debigint (v : jsval) : canonicalize (debigint v) = canonicalize v.
Proof.
  induction v using jsval_ind'; try reflexivity.
  - simpl. f_equal. rewrite map_map. apply map_ext_in.
    intros x Hx. rewrite Forall_forall in H. apply H, Hx.
  - simpl. f_equal. f_equal. rewrite map_map. apply map_ext_in.
    intros kv Hkv. rewrite Forall_forall in H. simpl.
    rewrite is_undefined_debigint, (H kv Hkv). reflexivity.
Qed.

Lemma asFlatMetaObject_debigint (m : jsval) : asFlatMetaObject (debigint m) = asFlatMetaObject m.
Proof.
  unfold asFlatMetaObject. rewrite canonicalize_debigint.
  destruct m; reflexivity.
Qed.

Lemma payload_object_debigint (code : str) (m : jsval) :
  payload_object code (debigint m) = payload_object code m.
Proof. unfold payload_object. rewrite asFlatMetaObject_debigint. reflexivity. Qed.

(** *** Running a [Prog] *)

Section RunFacts.
Context {σ : Type} (rng : σ -> nat -> nat * σ).

(** What a run returns is a function of the values it drew. *)
Lemma run_replay {A} (p : Prog A) (st st' : σ) r tr :
  run rng p st = (r, st', tr) -> replay p (map snd tr) = Some r.
Proof.
  revert st st' r tr; induction p as [a|e|m k IH]; intros st st' r tr Hrun; simpl in Hrun.
  - inversion Hrun; reflexivity.
  - inversion Hrun; reflexivity.
  - destruct (rng st m) as [v st1].
    destruct (run rng (k v) st1) as [[r1 st2] tr1] eqn:E.
    inversion Hrun; subst. simpl. eapply IH; eauto.
Qed.

Lemma run_bind {A B} (p : Prog A) (f : A -> Prog B) (st : σ) :
  run rng (bind p f) st =
  let '(r, st1, tr1) := run rng p st in
  match r with
  | Ok a => let '(r2, st2, tr2) := run rng (f a) st1 in (r2, st2, tr1 ++ tr2)
  | Throw e => (Throw e, st1, tr1)
  end.
Proof.
  revert st; induction p as [a|e|m k IH]; intro st; simpl.
  - destruct (run rng (f a) st) as [[r2 st2] tr2]; reflexivity.
  - reflexivity.
  - destruct (rng st m) as [v st1]. rewrite IH.
    destruct (run rng (k v) st1) as [[[a|e] st2] tr1]; simpl; [|reflexivity].
    destruct (run rng (f a) st2) as [[r3 st3] tr3]; reflexivity.
Qed.

(** The symbol loop draws exactly [unique] times, each in
    [[0, alphabet.length)], and keeps [alphabet[v]] for each value [v]. *)
Lemma run_draw_symbols (alpha : str) (n : nat) (st : σ) :
  exists st' tr,
    run rng (draw_symbols alpha n) st =
      (Ok (map (fun v => nth_error alpha v) (map snd tr)), st', tr) /\
    length tr = n /\ Forall (fun d => fst d = length alpha) tr.
Proof.
  revert st; induction n as [|n IH]; intro st.
  - exists st, []. split; [reflexivity | split; [reflexivity | constructor]].
  - simpl. destruct (rng st (length alpha)) as [v st1] eqn:Hr.
    rewrite run_bind.
    destruct (IH st1) as [st2 [tr [Hrun [Hlen Hf]]]].
    rewrite Hrun. simpl.
    exists st2, ((length alpha, v) :: tr). simpl. rewrite app_nil_r.
    split; [reflexivity | split; [congruence | constructor; auto]].
Qed.
End RunFacts.

Lemma bytes_eqb_refl (x : bytes) : bytes_eqb x x = true.
Proof.
  induction x as [|b x IH]; [reflexivity|].
  simpl. rewrite IH, andb_true_r. destruct b; reflexivity.
Qed.

(** *** Bounds and the shape of a [generate] run *)

(** Every slot index of a template is below its unique-slot count. *)
Lemma slot_lt_unique_slots (t : Template) (i : nat) :
  In i (idx t) -> i < unique_slots t.
Proof.
  unfold unique_slots. destruct (idx t) as [|j l]; [intros []|].
  assert (Hmono : forall (xs : list nat) a, a <= fold_left Nat.max xs a).
  { induction xs as [|x xs IH]; intro a; simpl; [lia|].
    specialize (IH (Nat.max a x)). lia. }
  assert (Hin : forall (xs : list nat) a k, In k xs -> k <= fold_left Nat.max xs a).
  { induction xs as [|x xs IH]; intros a k Hk; [destruct Hk|].
    destruct Hk as [Hk|Hk]; simpl.
    - subst x. specialize (Hmono xs (Nat.max a k)). lia.
    - apply IH, Hk. }
  intros [Hi|Hi].
  - subst j. specialize (Hmono l i). lia.
  - specialize (Hin l j i Hi). lia.
Qed.

(** Assembling from in-range draws reads [alphabet[v]] for each slot. *)
Lemma assemble_map (ix vals : list nat) (A : str) (d : ascii) :
  Forall (fun i => i < length vals) ix ->
  Forall (fun v => v < length A) vals ->
  assemble ix (map (nth_error A) vals) = map (fun i => nth (nth i vals 0) A d) ix.
Proof.
  intros Hix Hv. induction Hix as [|i ix Hi Hix IH]; [reflexivity|].
  unfold assemble in *. simpl. rewrite IH.
  rewrite nth_error_map.
  destruct (nth_error vals i) as [v|] eqn:Ei.
  - rewrite (nth_error_nth _ _ _ Ei). simpl.
    assert (v < length A).
    { rewrite Forall_forall in Hv. apply Hv. eapply nth_error_In; eauto. }
    rewrite (nth_error_nth' A d H). reflexivity.
  - apply nth_error_None in Ei. lia.
Qed.

Section RunRange.
Context {σ : Type} (rng : σ -> nat -> nat * σ).
Hypothesis rng_in_range : forall st m, 0 < m -> fst (rng st m) < m.

(** A source that answers in range yields a trace of in-range draws. *)
Lemma run_trace_in_range {A} (p : Prog A) st r st' tr :
  run rng p st = (r, st', tr) -> Forall (fun d => 0 < fst d -> snd d < fst d) tr.
Proof.
  revert st r st' tr; induction p as [a|e|m k IH]; intros st r st' tr H; simpl in H.
  - inversion H; constructor.
  - inversion H; constructor.
  - destruct (rng st m) as [v st1] eqn:E.
    destruct (run rng (k v) st1) as [[r1 st2] tr1] eqn:E1.
    inversion H; subst. constructor.
    + simpl. intro Hm. specialize (rng_in_range st m Hm). rewrite E in rng_in_range. exact rng_in_range.
    + eapply IH; eauto.
Qed.
End RunRange.

Section GenerateFacts.
Context {platform : Platform}.
Context {σ : Type} (rng : σ -> nat -> nat * σ).

Lemma run_draw_then {A} (alpha : str) (n : nat) (f : list (option ascii) -> A) st :
  exists st' tr,
    run rng (symbols <- draw_symbols alpha n ;; Ret (f symbols)) st =
      (Ok (f (map (nth_error alpha) (map snd tr))), st', tr) /\
    length tr = n /\ Forall (fun d => fst d = length alpha) tr.
Proof.
  rewrite run_bind.
  destruct (run_draw_symbols rng alpha n st) as [st' [tr [Hr [Hl Hf]]]].
  rewrite Hr. exists st', tr. simpl. rewrite app_nil_r. auto.
Qed.

Lemma generate_run_shape (o : Options) st st' g tr :
  run rng (generate o) st = (Ok g, st', tr) ->
  exists t tr',
    g = build_output o t (map (nth_error (default (alphabet o) DEFAULT_ALPHABET)) (map snd tr')) /\
    length tr' = unique_slots t /\
    Forall (fun d => fst d = length (default (alphabet o) DEFAULT_ALPHABET)) tr' /\
    ((default (templates o) DEFAULT_TEMPLATES = [t] /\ tr = tr') \/
     (length (default (templates o) DEFAULT_TEMPLATES) <> 1 /\
      exists v, tr = (length (default (templates o) DEFAULT_TEMPLATES), v) :: tr' /\
                nth_error (default (templates o) DEFAULT_TEMPLATES) v = Some t)).
Proof.
  unfold generate.
  remember (default (alphabet o) DEFAULT_ALPHABET) as alpha eqn:Ea.
  remember (default (templates o) DEFAULT_TEMPLATES) as pool eqn:Ep.
  destruct (length alpha <? 2); [discriminate|].
  destruct (has_duplicate [] alpha); [discriminate|].
  destruct (length pool =? 0) eqn:E0; [discriminate|].
  intro Hrun. rewrite run_bind in Hrun.
  destruct pool as [|t0 [|t1 rest]]; [discriminate| |].
  - cbn [select_template run] in Hrun.
    destruct (run_draw_then alpha (unique_slots t0) (build_output o t0) st)
      as [st2 [tr' [Hr [Hl Hf]]]].
    rewrite Hr in Hrun. inversion Hrun; subst. exists t0, tr. auto 7.
  - unfold select_template in Hrun. cbn [run] in Hrun.
    destruct (rng st (length (t0 :: t1 :: rest))) as [v st1].
    destruct (nth_error (t0 :: t1 :: rest) v) as [t|] eqn:Ev.
    + cbn [run] in Hrun.
      destruct (run_draw_then alpha (unique_slots t) (build_output o t) st1)
        as [st2 [tr' [Hr [Hl Hf]]]].
      rewrite Hr in Hrun. inversion Hrun; subst. exists t, tr'.
      split; [reflexivity|]. split; [exact Hl|]. split; [exact Hf|].
      right. split; [discriminate|]. exists v. auto.
    + cbn [run] in Hrun. discriminate.
Qed.

Hypothesis rng_in_range : forall st m, 0 < m -> fst (rng st m) < m.

(** With an alphabet that [toUpperCase] leaves unchanged and an in-range
    source, [validateCode] accepts every code [generate] returns. *)
Lemma generate_self_accepted (A : str) (P : list Template) st st' g tr :
  Forall (fun c => char_upper c = c) A ->
  run rng (generate (mkOptions (Some A) (Some P) None JUndefined None None None)) st
    = (Ok g, st', tr) ->
  (exists t, In t P /\ template g = name t /\ length (code g) = length (idx t)) /\
  validateCode (code g) (mkOptions (Some A) (Some P) None JUndefined None None None) = true.
Proof.
  intros HA Hrun.
  assert (HA2 : 2 <= length A).
  { destruct (length A <? 2) eqn:E.
    - unfold generate in Hrun. cbn [default alphabet] in Hrun. rewrite E in Hrun. discriminate.
    - apply Nat.ltb_ge, E. }
  pose proof (run_trace_in_range rng rng_in_range _ _ _ _ _ Hrun) as Htr.
  destruct (generate_run_shape _ _ _ _ _ Hrun) as [t [tr' [Hg [Hl [Hf Hcase]]]]].
  cbn [default alphabet templates] in *.
  assert (HtP : In t P /\ Forall (fun d => 0 < fst d -> snd d < fst d) tr').
  { destruct Hcase as [[-> ->] | [_ [v [-> Hv]]]].
    - split; [left; reflexivity | exact Htr].
    - split; [eapply nth_error_In; eauto | inversion Htr; assumption]. }
  destruct HtP as [HtP Htr'].
  set (vals := map snd tr') in *.
  assert (Hvals : Forall (fun v => v < length A) vals).
  { unfold vals. rewrite Forall_map. rewrite Forall_forall in *. intros d Hd.
    specialize (Hf d Hd). specialize (Htr' d Hd). rewrite Hf in Htr'. apply Htr'. lia. }
  assert (Hix : Forall (fun i => i < length vals) (idx t)).
  { apply Forall_forall. intros i Hi. unfold vals. rewrite length_map, Hl.
    apply slot_lt_unique_slots, Hi. }
  set (f := fun i => nth (nth i vals 0) A "0"%char).
  assert (Hcode : code g = map f (idx t)).
  { rewrite Hg. unfold build_output. cbn [code]. apply assemble_map; assumption. }
  assert (HfA : forall i, In i (idx t) -> In (f i) A).
  { intros i Hi. unfold f. apply nth_In. rewrite Forall_forall in Hvals, Hix.
    apply Hvals, nth_In, Hix, Hi. }
  assert (Hup : toUpperCase (code g) = code g).
  { rewrite Hcode. unfold toUpperCase. rewrite map_map. apply map_ext_in.
    intros i Hi. rewrite Forall_forall in HA. apply HA, HfA, Hi. }
  split.
  - exists t. split; [exact HtP|]. split.
    + rewrite Hg. reflexivity.
    + rewrite Hcode, length_map. reflexivity.
  - unfold validateCode. cbn [default alphabet templates hmac secret].
    rewrite Hup.
    assert (Hall : forallb (fun ch => mem ch A) (code g) = true).
    { apply forallb_forall. intros c Hc. rewrite Hcode in Hc.
      apply in_map_iff in Hc as [i [<- Hi]].
      unfold mem. apply existsb_exists. exists (f i). split; [apply HfA, Hi|].
      apply ascii_eqb_spec. reflexivity. }
    assert (Hex : existsb (matchesTemplate (code g)) P = true).
    { apply existsb_exists. exists t. split; [exact HtP|].
      apply matchesTemplate_spec. rewrite Hcode, length_map. split; [reflexivity|].
      intros i j sl Hi Hj. rewrite !nth_error_map, Hi, Hj. reflexivity. }
    rewrite Hall, Hex. reflexivity.
Qed.
End GenerateFacts.

(** *** Entropy in exact real arithmetic *)

Local Open Scope R_scope.

Lemma ln2_pos : 0 < ln 2.
Proof. rewrite <- ln_1. apply ln_increasing; lra. Qed.

Lemma Rpower_scaled (a : R) (u U : nat) :
  0 < a -> Rpower 2 ((INR u - INR U) * (ln a / ln 2)) = a ^ u * / a ^ U.
Proof.
  intro Ha. pose proof ln2_pos as H2. unfold Rpower.
  replace ((INR u - INR U) * (ln a / ln 2) * ln 2) with (INR u * ln a + - (INR U * ln a))
    by (field; lra).
  rewrite exp_plus, exp_Ropp, <- !ln_pow by exact Ha.
  rewrite !exp_ln by (apply pow_lt; exact Ha). reflexivity.
Qed.

Lemma sumScaled_R (a : R) (U : nat) (us : list nat) (c : R) :
  0 < a ->
  fold_left (fun acc u => (acc + match u with
                                 | Some u => Rpower 2 ((INR u - INR U) * (ln a / ln 2))
                                 | None => 0
                                 end)%R) (map Some us) c =
  c + fold_right (fun u acc => a ^ u + acc) 0 us * / a ^ U.
Proof.
  intro Ha. revert c; induction us as [|u us IH]; intro c; simpl.
  - ring.
  - rewrite IH, Rpower_scaled by exact Ha. ring.
Qed.

Lemma pool_outcomes_R (pool : list Template) (n : nat) :
  IZR (pool_outcomes pool n) = fold_right (fun u acc => INR n ^ u + acc) 0 (map unique_slots pool).
Proof.
  induction pool as [|t pool IH]; [reflexivity|].
  simpl. rewrite plus_IZR, IH, <- pow_IZR, <- INR_IZR_INZ. reflexivity.
Qed.

Lemma pool_outcomes_pos (pool : list Template) (n : nat) :
  pool <> [] -> (1 <= n)%nat -> (1 <= pool_outcomes pool n)%Z.
Proof.
  intros Hne Hn. destruct pool as [|t pool]; [congruence|]. clear Hne.
  change (pool_outcomes (t :: pool) n)
    with (Z.of_nat n ^ Z.of_nat (unique_slots t) + pool_outcomes pool n)%Z.
  assert (H1 : (0 < Z.of_nat n ^ Z.of_nat (unique_slots t))%Z)
    by (apply Z.pow_pos_nonneg; lia).
  assert (H2 : forall l, (0 <= pool_outcomes l n)%Z).
  { induction l as [|t' l IH]; [unfold pool_outcomes; simpl; lia|].
    change (pool_outcomes (t' :: l) n)
      with (Z.of_nat n ^ Z.of_nat (unique_slots t') + pool_outcomes l n)%Z.
    pose proof (Z.pow_nonneg (Z.of_nat n) (Z.of_nat (unique_slots t')) (Nat2Z.is_nonneg n)). lia. }
  specialize (H2 pool). lia.
Qed.

Lemma Int_part_log2 (N : Z) :
  (0 < N)%Z -> Int_part (ln (IZR N) / ln 2) = Z.log2 N.
Proof.
  intro HN. pose proof ln2_pos as H2.
  destruct (Z.log2_spec N HN) as [Hlo Hhi].
  pose proof (Z.log2_nonneg N) as Hk.
  remember (Z.log2 N) as k eqn:Ek.
  assert (Hn : k = Z.of_nat (Z.to_nat k)) by lia.
  set (n := Z.to_nat k) in *.
  rewrite Hn in Hlo. rewrite Hn, <- Nat2Z.inj_succ in Hhi.
  apply IZR_le in Hlo. apply IZR_lt in Hhi.
  rewrite <- pow_IZR in Hlo, Hhi.
  assert (HN' : 0 < IZR N) by (apply IZR_lt; exact HN).
  assert (L1 : INR n * ln 2 <= ln (IZR N)).
  { rewrite <- ln_pow by lra. destruct (Rle_lt_or_eq_dec _ _ Hlo) as [Hl|He].
    - left. apply ln_increasing; [apply pow_lt; lra | exact Hl].
    - right. rewrite He. reflexivity. }
  assert (L2 : ln (IZR N) < INR (S n) * ln 2).
  { rewrite <- ln_pow by lra. apply ln_increasing; [exact HN' | exact Hhi]. }
  rewrite S_INR in L2.
  symmetry. apply Int_part_spec. rewrite Hn, <- INR_IZR_INZ. split.
  - apply (Rmult_lt_reg_r (ln 2)); [exact H2|].
    replace ((ln (IZR N) / ln 2 - 1) * ln 2) with (ln (IZR N) - ln 2) by (field; lra).
    lra.
  - apply (Rmult_le_reg_r (ln 2)); [exact H2|].
    replace (ln (IZR N) / ln 2 * ln 2) with (ln (IZR N)) by (field; lra).
    exact L1.
Qed.

Lemma slot_count_unique_slots (t : Template) :
  idx t <> [] -> slot_count t = Some (unique_slots t).
Proof. unfold slot_count, unique_slots. destruct (idx t); [congruence | reflexivity]. Qed.

(** In exact real arithmetic [calcPoolEntropyBits] is
    [floor(log2(Σ_t a ^ uniqueSlots(t)))] for templates with slots: the
    scaling by [a ^ uMax] cancels. *)
Lemma calc_R_exact (pool : list Template) (alphaLen : nat) :
  pool <> [] -> (2 <= alphaLen)%nat -> Forall (fun t => idx t <> []) pool ->
  calcPoolEntropyBits_R pool alphaLen = Ok (pool_bits_exact pool alphaLen).
Proof.
  intros Hne Ha Hidx.
  assert (Hmap : map slot_count pool = map Some (map unique_slots pool)).
  { rewrite map_map. apply map_ext_in. intros t Ht.
    apply slot_count_unique_slots. rewrite Forall_forall in Hidx. apply Hidx, Ht. }
  assert (Hpos : (1 <= pool_outcomes pool alphaLen)%Z) by (apply pool_outcomes_pos; [exact Hne | lia]).
  unfold calcPoolEntropyBits_R.
  replace (alphaLen <? 2)%nat with false by (symmetry; apply Nat.ltb_ge; lia).
  assert (Hbody : forall U : nat,
    (INR U * Math_log2 (INR alphaLen) +
     Math_log2 (fold_left (fun acc u => (acc + match u with
                                 | Some u => Rpower 2 ((INR u - INR U) * Math_log2 (INR alphaLen))
                                 | None => 0
                                 end)%R) (map slot_count pool) 0))%R =
    ln (IZR (pool_outcomes pool alphaLen)) / ln 2).
  { intro U. pose proof ln2_pos as H2.
    assert (Ha' : 0 < INR alphaLen) by (apply lt_0_INR; lia).
    unfold Math_log2. rewrite Hmap, sumScaled_R by exact Ha'.
    rewrite <- pool_outcomes_R, Rplus_0_l.
    assert (HN : 0 < IZR (pool_outcomes pool alphaLen)) by (apply IZR_lt; lia).
    rewrite ln_mult, ln_Rinv, ln_pow by (try apply Rinv_0_lt_compat; try apply pow_lt; lra).
    field. lra. }
  destruct pool as [|t0 rest]; [congruence|].
  cbv beta iota zeta. rewrite Hbody. unfold pool_bits_exact.
  rewrite Int_part_log2 by lia. reflexivity.
Qed.

Local Close Scope R_scope.

(** *** [pattern] *)

Lemma mem_In (c : ascii) (l : str) : mem c l = true <-> In c l.
Proof.
  unfold mem. rewrite existsb_exists. split.
  - intros [x [Hx He]]. apply ascii_eqb_spec in He. subst. exact Hx.
  - intro H. exists c. split; [exact H | apply ascii_eqb_spec; reflexivity].
Qed.

Lemma ascii_eqb_refl (a : ascii) : ascii_eqb a a = true.
Proof. apply ascii_eqb_spec. reflexivity. Qed.

Lemma ascii_eqb_sym (a b : ascii) : ascii_eqb a b = ascii_eqb b a.
Proof.
  destruct (ascii_eqb a b) eqn:E.
  - apply ascii_eqb_spec in E. subst. symmetry. apply ascii_eqb_refl.
  - destruct (ascii_eqb b a) eqn:E'; [|reflexivity].
    apply ascii_eqb_spec in E'. subst. rewrite ascii_eqb_refl in E. discriminate.
Qed.

Lemma find_combine_seq (u : ascii) (ks : str) (n : nat) :
  find (fun p => ascii_eqb (fst p) u) (combine ks (seq n (length ks))) =
  if mem u ks then Some (u, n + pos u ks) else None.
Proof.
  revert n; induction ks as [|k ks IH]; intro n; [reflexivity|].
  cbn [length seq combine find fst]. rewrite IH.
  unfold mem. cbn [existsb pos].
  rewrite (ascii_eqb_sym k u).
  destruct (ascii_eqb u k) eqn:E1.
  - apply ascii_eqb_spec in E1. subst k. simpl. f_equal. f_equal. lia.
  - simpl. destruct (existsb (ascii_eqb u) ks); [f_equal; f_equal; lia | reflexivity].
Qed.

Lemma combine_seq_snoc (ks : str) (u : ascii) (n : nat) :
  combine ks (seq n (length ks)) ++ [(u, n + length ks)] =
  combine (ks ++ [u]) (seq n (length (ks ++ [u]))).
Proof.
  revert n; induction ks as [|k ks IH]; intro n; simpl.
  - rewrite Nat.add_0_r. reflexivity.
  - f_equal. rewrite <- IH. do 3 f_equal. lia.
Qed.

Lemma extend_keys_app (ks l : str) : exists sfx, extend_keys ks l = ks ++ sfx.
Proof.
  revert ks; induction l as [|c l IH]; intro ks; simpl.
  - exists []. rewrite app_nil_r. reflexivity.
  - destruct (IH (add_key ks c)) as [sfx E]. unfold extend_keys in *. simpl. rewrite E.
    unfold add_key. destruct (mem c ks).
    + exists sfx. reflexivity.
    + exists (c :: sfx). rewrite <- app_assoc. reflexivity.
Qed.

Lemma pos_app (c : ascii) (ks x : str) : In c ks -> pos c (ks ++ x) = pos c ks.
Proof.
  induction ks as [|k ks IH]; [intros []|]. intro H. simpl.
  destruct (ascii_eqb c k) eqn:E; [reflexivity|].
  destruct H as [H|H]; [subst; rewrite ascii_eqb_refl in E; discriminate|].
  f_equal. apply IH, H.
Qed.

Lemma In_add_key (ks : str) (c : ascii) : In c (add_key ks c).
Proof.
  unfold add_key. destruct (mem c ks) eqn:E.
  - apply mem_In, E.
  - apply in_or_app. right. left. reflexivity.
Qed.

Lemma pattern_idx_letters (ks cs : str) :
  Forall (fun c => is_letter c = true) cs ->
  pattern_idx (combine ks (seq 0 (length ks))) cs =
  Ok (map (fun c => pos (char_upper c) (extend_keys ks (map char_upper cs))) cs).
Proof.
  revert ks; induction cs as [|c cs IH]; intros ks Hl; [reflexivity|].
  inversion Hl as [|? ? Hc Hcs]; subst. unfold is_letter in Hc.
  cbn [pattern_idx]. rewrite Hc. cbn [negb].
  set (u := char_upper c).
  assert (Hm' : (match find (fun p => ascii_eqb (fst p) u) (combine ks (seq 0 (length ks))) with
                 | Some _ => combine ks (seq 0 (length ks))
                 | None => combine ks (seq 0 (length ks)) ++ [(u, length (combine ks (seq 0 (length ks))))]
                 end) = combine (add_key ks u) (seq 0 (length (add_key ks u)))).
  { rewrite find_combine_seq. unfold add_key.
    destruct (mem u ks); [reflexivity|].
    rewrite length_combine, length_seq, Nat.min_id.
    apply (combine_seq_snoc ks u 0). }
  rewrite Hm'.
  rewrite find_combine_seq.
  replace (mem u (add_key ks u)) with true by (symmetry; apply mem_In, In_add_key).
  rewrite (IH _ Hcs). cbn [snd map]. f_equal. f_equal.
  change (extend_keys ks (char_upper c :: map char_upper cs))
    with (extend_keys (add_key ks u) (map char_upper cs)).
  fold u.
  destruct (extend_keys_app (add_key ks u) (map char_upper cs)) as [sfx ->].
  rewrite pos_app by apply In_add_key. reflexivity.
Qed.

Lemma pattern_idx_throws (m : list (ascii * nat)) (cs : str) :
  Exists (fun c => is_letter c = false) cs -> pattern_idx m cs = Throw ErrPatternLetters.
Proof.
  revert m; induction cs as [|c cs IH]; intros m H; [inversion H|].
  cbn [pattern_idx]. unfold is_letter in H.
  destruct (is_upper_letter (char_upper c)) eqn:Ec; cbn [negb]; [|reflexivity].
  inversion H as [? ? Hc|? ? Hcs]; subst; [unfold is_letter in Hc; congruence|].
  rewrite IH by exact Hcs. reflexivity.
Qed.

Lemma In_extend_keys (c : ascii) (ks l : str) :
  In c (extend_keys ks l) <-> In c ks \/ In c l.
Proof.
  revert ks; induction l as [|x l IH]; intro ks; simpl.
  - tauto.
  - unfold extend_keys in *. simpl. rewrite IH. unfold add_key.
    destruct (mem x ks) eqn:E.
    + apply mem_In in E. split; [tauto|]. intros [H|[H|H]]; subst; tauto.
    + rewrite in_app_iff. simpl. tauto.
Qed.

Lemma NoDup_extend_keys (ks l : str) : NoDup ks -> NoDup (extend_keys ks l).
Proof.
  revert ks; induction l as [|x l IH]; intros ks H; [exact H|].
  unfold extend_keys. simpl. apply IH. unfold add_key.
  destruct (mem x ks) eqn:E; [exact H|].
  apply NoDup_app; [exact H | repeat constructor; intros [] |].
  intros a Ha [<-|[]]. rewrite <- mem_In in Ha. congruence.
Qed.

Lemma pos_inj (a b : ascii) (K : str) :
  In a K -> In b K -> pos a K = pos b K -> a = b.
Proof.
  induction K as [|k K IH]; [intros []|]. intros Ha Hb. simpl.
  destruct (ascii_eqb a k) eqn:Ea, (ascii_eqb b k) eqn:Eb;
    try apply ascii_eqb_spec in Ea; try apply ascii_eqb_spec in Eb; try congruence.
  - intro. subst. destruct Ha as [Ha|Ha]; [subst; rewrite ascii_eqb_refl in Ea; discriminate|].
    destruct Hb as [Hb|Hb]; [subst; rewrite ascii_eqb_refl in Eb; discriminate|].
    injection H as H. apply IH; assumption.
Qed.

Lemma pos_lt (a : ascii) (K : str) : In a K -> pos a K < length K.
Proof.
  induction K as [|k K IH]; [intros []|]. intros [H|H]; simpl.
  - subst. rewrite ascii_eqb_refl. lia.
  - destruct (ascii_eqb a k); [lia|]. specialize (IH H). lia.
Qed.

Lemma upper_letter_in_AZ (c : ascii) :
  is_upper_letter c = true -> In c (s "ABCDEFGHIJKLMNOPQRSTUVWXYZ").
Proof.
  destruct c as [b0 b1 b2 b3 b4 b5 b6 b7].
  destruct b0, b1, b2, b3, b4, b5, b6, b7; vm_compute;
    first [discriminate | intros _; repeat (first [left; reflexivity | right])].
Qed.

Lemma char_upper_idem (c : ascii) : char_upper (char_upper c) = char_upper c.
Proof.
  destruct c as [b0 b1 b2 b3 b4 b5 b6 b7].
  destruct b0, b1, b2, b3, b4, b5, b6, b7; reflexivity.
Qed.

Lemma unique_slots_le (t : Template) (n : nat) :
  Forall (fun i => i < n) (idx t) -> unique_slots t <= n.
Proof.
  unfold unique_slots. destruct (idx t) as [|i l]; [lia|]. intro H.
  inversion H as [|? ? Hi Hl]; subst.
  assert (G : forall (xs : list nat) a, a < n -> Forall (fun i => i < n) xs -> fold_left Nat.max xs a < n).
  { induction xs as [|x xs IH]; intros a Ha Hxs; [exact Ha|].
    inversion Hxs; subst. simpl. apply IH; [lia | assumption]. }
  specialize (G l i Hi Hl). lia.
Qed.

Lemma forallb_Exists_letters (x : str) :
  forallb is_letter x = false -> Exists (fun c => is_letter c = false) x.
Proof.
  induction x as [|c x IH]; [discriminate|]. simpl.
  destruct (is_letter c) eqn:E; simpl; intro H; [right; apply IH, H | left; exact E].
Qed.

Lemma pattern_ok_shape (x : str) (t : Template) :
  pattern x = Ok t ->
  x <> [] /\ Forall (fun c => is_letter c = true) x /\
  t = {| name := toUpperCase x;
         idx := map (fun c => pos (char_upper c) (extend_keys [] (map char_upper x))) x |}.
Proof.
  intro H. destruct x as [|c0 x0]; [discriminate|].
  destruct (forallb is_letter (c0 :: x0)) eqn:Ef.
  - assert (Hl : Forall (fun c => is_letter c = true) (c0 :: x0))
      by (apply Forall_forall; intros c Hc; eapply forallb_forall in Ef; eauto).
    split; [discriminate|]. split; [exact Hl|].
    pose proof (pattern_idx_letters [] (c0 :: x0) Hl) as E. cbn [combine seq length] in E.
    unfold pattern in H. cbv iota in H. rewrite E in H. injection H as <-. reflexivity.
  - apply forallb_Exists_letters in Ef.
    unfold pattern in H. cbv iota in H. rewrite pattern_idx_throws in H by exact Ef. discriminate.
Qed.

Lemma pos_app_notin (c : ascii) (l1 l2 : str) :
  ~ In c l1 -> pos c (l1 ++ l2) = length l1 + pos c l2.
Proof.
  induction l1 as [|a l1 IH]; intro Hn; [reflexivity|].
  cbn [app pos length]. destruct (ascii_eqb c a) eqn:E.
  - apply ascii_eqb_spec in E. subst. exfalso. apply Hn. left. reflexivity.
  - rewrite IH; [reflexivity|]. intro H. apply Hn. right. exact H.
Qed.

Lemma unique_slots_list_max (i : nat) (is : list nat) (t : Template) :
  idx t = i :: is -> unique_slots t = S (list_max (i :: is)).
Proof.
  intro H. unfold unique_slots. rewrite H. f_equal.
  assert (G : forall l a, fold_left Nat.max l a = Nat.max a (list_max l)).
  { induction l as [|b l IH]; intro a; cbn [fold_left list_max fold_right].
    - lia.
    - rewrite IH. change (fold_right Nat.max 0 l) with (list_max l). lia. }
  rewrite G. reflexivity.
Qed.

Lemma letters_upper_in_AZ (x : str) :
  Forall (fun c => is_letter c = true) x ->
  incl (toUpperCase x) (s "ABCDEFGHIJKLMNOPQRSTUVWXYZ").
Proof.
  intros Hl c Hc. unfold toUpperCase in Hc. apply in_map_iff in Hc as [a [<- Ha]].
  apply upper_letter_in_AZ. rewrite Forall_forall in Hl. apply (Hl a Ha).
Qed.

Lemma extend_keys_count (x : str) :
  length (extend_keys [] (toUpperCase x)) = length (nodup ascii_dec (toUpperCase x)).
Proof.
  apply Permutation_length, NoDup_Permutation.
  - apply NoDup_extend_keys. constructor.
  - apply NoDup_nodup.
  - intro k. rewrite In_extend_keys, nodup_In. simpl. tauto.
Qed.

Lemma pattern_unique_slots (x : str) (t : Template) :
  pattern x = Ok t -> unique_slots t = length (nodup ascii_dec (toUpperCase x)).
Proof.
  intro H. apply pattern_ok_shape in H as [Hne [Hl ->]].
  rewrite <- extend_keys_count. fold (toUpperCase x).
  set (K := extend_keys [] (toUpperCase x)).
  assert (HK : forall k, In k K <-> In k (toUpperCase x))
    by (intro k; unfold K; rewrite In_extend_keys; simpl; tauto).
  assert (HND : NoDup K) by (apply NoDup_extend_keys; constructor).
  destruct x as [|c0 x0]; [contradiction|].
  erewrite unique_slots_list_max; [|cbn [idx map]; reflexivity].
  change (pos (char_upper c0) K :: map (fun c => pos (char_upper c) K) x0)
    with (map (fun c => pos (char_upper c) K) (c0 :: x0)).
  assert (Hlt : forall c, In c (c0 :: x0) -> pos (char_upper c) K < length K).
  { intros c Hc. apply pos_lt, HK. unfold toUpperCase. apply in_map. exact Hc. }
  destruct (exists_last (l := K)) as [K' [k HKe]].
  { intro E. assert (In (char_upper c0) K) by (apply HK; left; reflexivity).
    rewrite E in H. exact H. }
  assert (Hk : In k (toUpperCase (c0 :: x0))) by (apply HK; rewrite HKe; apply in_or_app; right; left; reflexivity).
  unfold toUpperCase in Hk. apply in_map_iff in Hk as [c [Hc Hcx]].
  assert (Hpos : pos (char_upper c) K = length K').
  { rewrite Hc, HKe, pos_app_notin; [cbn [pos]; rewrite ascii_eqb_refl; lia|].
    rewrite HKe in HND. apply NoDup_remove_2 in HND. rewrite app_nil_r in HND. exact HND. }
  assert (Hlen : length K = S (length K')) by (rewrite HKe, length_app; simpl; lia).
  apply Nat.le_antisymm.
  - rewrite Hlen. apply le_n_S, list_max_le, Forall_forall. intros n Hn.
    apply in_map_iff in Hn as [c' [<- Hc']]. specialize (Hlt c' Hc'). lia.
  - rewrite Hlen. apply le_n_S. rewrite <- Hpos.
    assert (G := list_max_le (map (fun c => pos (char_upper c) K) (c0 :: x0))
                   (list_max (map (fun c => pos (char_upper c) K) (c0 :: x0)))).
    destruct G as [G _]. specialize (G (Nat.le_refl _)). rewrite Forall_forall in G.
    apply G. apply (in_map (fun c => pos (char_upper c) K)). exact Hcx.
Qed.

Lemma pattern_idx_upper (m : list (ascii * nat)) (cs : str) :
  pattern_idx m (toUpperCase cs) = pattern_idx m cs.
Proof.
  revert m; induction cs as [|c cs IH]; intro m; [reflexivity|].
  cbn [toUpperCase map pattern_idx]. fold (toUpperCase cs).
  rewrite char_upper_idem, IH. reflexivity.
Qed.

Lemma toUpperCase_idem (x : str) : toUpperCase (toUpperCase x) = toUpperCase x.
Proof.
  unfold toUpperCase. rewrite map_map. apply map_ext. apply char_upper_idem.
Qed.

(** *** [generate], [validateCode] and [ensureUniqueAlphabet] *)

Lemma bytes_eqb_spec (x y : bytes) : bytes_eqb x y = true <-> x = y.
Proof.
  revert y; induction x as [|a x IH]; intros [|b y]; simpl;
    try (split; [discriminate | congruence]); [split; reflexivity|].
  rewrite andb_true_iff, IH. split.
  - intros [Hab ->]. apply Byte.byte_dec_bl in Hab. congruence.
  - intro E. injection E as -> ->. split; [apply Byte.byte_dec_lb; reflexivity | reflexivity].
Qed.

Lemma has_duplicate_spec (seen l : str) :
  has_duplicate seen l = false <-> NoDup l /\ (forall c, In c l -> ~ In c seen).
Proof.
  revert seen; induction l as [|c l IH]; intro seen; simpl.
  - split; [intros _; split; [constructor | intros c []] | reflexivity].
  - destruct (mem c seen) eqn:Em.
    + split; [discriminate|]. intros [_ H]. apply mem_In in Em. exfalso. apply (H c); auto.
    + rewrite IH. split.
      * intros [Hnd Hs]. split.
        -- constructor; [intro Hc; apply (Hs c Hc); left; reflexivity | exact Hnd].
        -- intros c' [<-|Hc'] Hin.
           ++ apply mem_In in Hin. congruence.
           ++ apply (Hs c' Hc'). right. exact Hin.
      * intros [Hnd Hs]. inversion Hnd; subst. split; [assumption|].
        intros c' Hc' [<-|Hin]; [contradiction|]. apply (Hs c'); auto.
Qed.

Section GenerateMore.
Context {platform : Platform}.
Context {σ : Type} (rng : σ -> nat -> nat * σ).
Hypothesis rng_in_range : forall st m, 0 < m -> fst (rng st m) < m.

Lemma generate_ok_props (o : Options) st st' g tr :
  run rng (generate o) st = (Ok g, st', tr) ->
  exists t, In t (default (templates o) DEFAULT_TEMPLATES) /\
    template g = name t /\
    matchesTemplate (code g) t = true /\
    Forall (fun c => In c (default (alphabet o) DEFAULT_ALPHABET)) (code g) /\
    length tr = (if length (default (templates o) DEFAULT_TEMPLATES) =? 1 then 0 else 1)
                + unique_slots t.
Proof.
  intro Hrun.
  set (A := default (alphabet o) DEFAULT_ALPHABET) in *.
  set (P := default (templates o) DEFAULT_TEMPLATES) in *.
  assert (HA2 : 2 <= length A).
  { destruct (length A <? 2) eqn:E.
    - unfold generate in Hrun. fold A in Hrun. rewrite E in Hrun. discriminate.
    - apply Nat.ltb_ge, E. }
  pose proof (run_trace_in_range rng rng_in_range _ _ _ _ _ Hrun) as Htr.
  destruct (generate_run_shape rng _ _ _ _ _ Hrun) as [t [tr' [Hg [Hl [Hf Hcase]]]]].
  fold A P in Hg, Hf, Hcase.
  assert (HtP : In t P /\ Forall (fun d => 0 < fst d -> snd d < fst d) tr' /\
                length tr = (if length P =? 1 then 0 else 1) + unique_slots t).
  { destruct Hcase as [[HP ->] | [Hn1 [v [-> Hv]]]].
    - rewrite HP. split; [left; reflexivity|]. split; [exact Htr | simpl; lia].
    - split; [eapply nth_error_In; eauto|]. split; [inversion Htr; assumption|].
      apply Nat.eqb_neq in Hn1. rewrite Hn1. simpl. lia. }
  destruct HtP as [HtP [Htr' Hlen]].
  set (vals := map snd tr') in *.
  assert (Hvals : Forall (fun v => v < length A) vals).
  { unfold vals. rewrite Forall_map. rewrite Forall_forall in *. intros d Hd.
    specialize (Hf d Hd). specialize (Htr' d Hd). rewrite Hf in Htr'. apply Htr'. lia. }
  assert (Hix : Forall (fun i => i < length vals) (idx t)).
  { apply Forall_forall. intros i Hi. unfold vals. rewrite length_map, Hl.
    apply slot_lt_unique_slots, Hi. }
  set (f := fun i => nth (nth i vals 0) A "0"%char).
  assert (Hcode : code g = map f (idx t)).
  { rewrite Hg. unfold build_output. cbn [code]. apply assemble_map; assumption. }
  exists t. split; [exact HtP|]. split; [rewrite Hg; reflexivity|]. split.
  - apply matchesTemplate_spec. rewrite Hcode, length_map. split; [reflexivity|].
    intros i j sl Hi Hj. rewrite !nth_error_map, Hi, Hj. reflexivity.
  - split; [|exact Hlen].
    rewrite Hcode, Forall_map, Forall_forall. intros i Hi. unfold f. apply nth_In.
    rewrite Forall_forall in Hvals, Hix. apply Hvals, nth_In, Hix, Hi.
Qed.

Lemma generate_valid_runs_ok (o : Options) st :
  2 <= length (default (alphabet o) DEFAULT_ALPHABET) ->
  NoDup (default (alphabet o) DEFAULT_ALPHABET) ->
  default (templates o) DEFAULT_TEMPLATES <> [] ->
  exists g st' tr, run rng (generate o) st = (Ok g, st', tr).
Proof.
  intros H2 Hnd Hne. unfold generate.
  set (A := default (alphabet o) DEFAULT_ALPHABET) in *.
  set (P := default (templates o) DEFAULT_TEMPLATES) in *.
  assert (E1 : (length A <? 2) = false) by (apply Nat.ltb_ge; exact H2).
  assert (E2 : has_duplicate [] A = false)
    by (apply has_duplicate_spec; split; [exact Hnd | intros c _ []]).
  assert (E3 : (length P =? 0) = false) by (destruct P; [contradiction | reflexivity]).
  rewrite E1, E2, E3. rewrite run_bind.
  destruct P as [|t0 [|t1 rest]]; [contradiction| |].
  - cbn [select_template run].
    destruct (run_draw_then rng A (unique_slots t0) (build_output o t0) st)
      as [st2 [tr' [Hr _]]].
    rewrite Hr. eauto.
  - unfold select_template. cbn [run].
    pose proof (rng_in_range st (length (t0 :: t1 :: rest))) as Hv.
    destruct (rng st (length (t0 :: t1 :: rest))) as [v st1].
    cbn [fst] in Hv. specialize (Hv ltac:(simpl; lia)).
    destruct (nth_error (t0 :: t1 :: rest) v) as [t|] eqn:Ev.
    + cbn [run].
      destruct (run_draw_then rng A (unique_slots t) (build_output o t) st1)
        as [st2 [tr' [Hr _]]].
      rewrite Hr. eauto.
    + apply nth_error_None in Ev. lia.
Qed.
End GenerateMore.

(** *** Object spread and [canonicalize] *)

Lemma str_eqb_spec (x y : str) : str_eqb x y = true <-> x = y.
Proof.
  revert y; induction x as [|a x IH]; intros [|b y]; simpl;
    try (split; [discriminate | congruence]); [split; reflexivity|].
  rewrite andb_true_iff, ascii_eqb_spec, IH. split; [intros [-> ->]; reflexivity|].
  intro E; injection E as -> ->; auto.
Qed.

Lemma agree_except_keys (k0 : str) o1 o2 :
  agree_except k0 o1 o2 -> map fst o1 = map fst o2.
Proof. induction 1 as [|a b o1 o2 [Hk _] _ IH]; simpl; congruence. Qed.

Lemma agree_except_existsb (k0 : str) (p : str -> bool) o1 o2 :
  agree_except k0 o1 o2 ->
  existsb (fun kv => p (fst kv)) o1 = existsb (fun kv => p (fst kv)) o2.
Proof. induction 1 as [|a b ? ? [Hk _] _ IH]; simpl; [reflexivity | rewrite Hk, IH; reflexivity]. Qed.

Lemma set_prop_agree (k0 k : str) (v : jsval) o1 o2 :
  agree_except k0 o1 o2 -> agree_except k0 (set_prop o1 k v) (set_prop o2 k v).
Proof.
  intro H. unfold set_prop.
  assert (Hex : existsb (fun kv => str_eqb k (fst kv)) o1 =
                existsb (fun kv => str_eqb k (fst kv)) o2).
  { apply (agree_except_existsb k0 (str_eqb k)), H. }
  rewrite Hex. destruct (existsb _ o2).
  - clear Hex. induction H as [|a b o1 o2 [Hk Hv] _ IH]; simpl; [constructor|].
    constructor; [|exact IH]. rewrite Hk. destruct (str_eqb k (fst b)); simpl; [split; auto | rewrite <- Hk; auto].
  - apply Forall2_app; [exact H|]. constructor; [split; auto | constructor].
Qed.

Lemma agree_except_eq (k0 : str) o1 o2 :
  agree_except k0 o1 o2 -> existsb (fun kv => str_eqb k0 (fst kv)) o1 = false -> o1 = o2.
Proof.
  induction 1 as [|a b o1 o2 [Hk Hv] _ IH]; [reflexivity|].
  simpl. intro E. apply orb_false_iff in E as [E1 E2]. rewrite (IH E2).
  destruct Hv as [Hv|Hv]; [destruct a, b; simpl in *; congruence|].
  rewrite Hv, (proj2 (str_eqb_spec _ _) eq_refl) in E1. discriminate.
Qed.

Lemma set_prop_agree_eq (k0 : str) (v : jsval) o1 o2 :
  agree_except k0 o1 o2 -> set_prop o1 k0 v = set_prop o2 k0 v.
Proof.
  intro H. unfold set_prop.
  assert (Hex : existsb (fun kv => str_eqb k0 (fst kv)) o1 =
                existsb (fun kv => str_eqb k0 (fst kv)) o2).
  { apply (agree_except_existsb k0 (str_eqb k0)), H. }
  destruct (existsb _ o1) eqn:E1; rewrite <- Hex.
  - clear E1 Hex. induction H as [|a b o1 o2 [Hk Hv] _ IH]; [reflexivity|]. simpl. rewrite IH, Hk.
    destruct (str_eqb k0 (fst b)) eqn:E; [reflexivity|].
    destruct Hv as [Hv|Hv]; [destruct a, b; simpl in *; congruence|].
    rewrite Hk in Hv. subst k0. rewrite (proj2 (str_eqb_spec _ _) eq_refl) in E. discriminate.
  - rewrite (agree_except_eq _ _ _ H E1). reflexivity.
Qed.

Lemma fold_set_prop_agree (k0 : str) (fs : list (str * jsval)) o1 o2 :
  agree_except k0 o1 o2 -> In k0 (map fst fs) ->
  fold_left (fun o kv => set_prop o (fst kv) (snd kv)) fs o1 =
  fold_left (fun o kv => set_prop o (fst kv) (snd kv)) fs o2.
Proof.
  revert o1 o2; induction fs as [|[k v] fs IH]; intros o1 o2 H Hin; [destruct Hin|].
  simpl. destruct (str_eqb k k0) eqn:E.
  - apply str_eqb_spec in E. subst k. rewrite (set_prop_agree_eq k0 v o1 o2 H). reflexivity.
  - destruct Hin as [Hin|Hin]; [simpl in Hin; subst k; rewrite (proj2 (str_eqb_spec _ _) eq_refl) in E; discriminate|].
    apply IH; [apply set_prop_agree, H | exact Hin].
Qed.

Lemma In_insert_sorted (x k : str) (l : list str) :
  In x (insert_sorted k l) <-> x = k \/ In x l.
Proof.
  induction l as [|k' l IH]; simpl; [intuition congruence|].
  destruct (str_ltb k' k); simpl; [rewrite IH|]; intuition congruence.
Qed.

Lemma In_sort_keys (x : str) (l : list str) : In x (sort_keys l) <-> In x l.
Proof.
  induction l as [|k l IH]; simpl; [tauto|].
  rewrite In_insert_sorted, IH. intuition congruence.
Qed.

Lemma lookup_str_map {A B} (f : A -> B) (k : str) (fs : list (str * A)) :
  lookup_str k (map (fun kv => (fst kv, f (snd kv))) fs) = option_map f (lookup_str k fs).
Proof.
  induction fs as [|[k' a] fs IH]; [reflexivity|]. simpl.
  destruct (str_eqb k k'); [reflexivity | exact IH].
Qed.

Lemma lookup_str_In_keys {A} (k : str) (fs : list (str * A)) (a : A) :
  lookup_str k fs = Some a -> In k (map fst fs).
Proof.
  induction fs as [|[k' a'] fs IH]; [discriminate|]. simpl.
  destruct (str_eqb k k') eqn:E; [apply str_eqb_spec in E; auto|].
  intro H. right. apply IH, H.
Qed.

(** A property of a plain-object [meta] with a defined value is a key of
    [asFlatMetaObject(meta)]. *)
Lemma asFlatMetaObject_keeps_key (fs : list (str * jsval)) (k : str) (v : jsval) :
  lookup_str k fs = Some v -> v <> JUndefined ->
  In k (map fst (asFlatMetaObject (JObject fs))).
Proof.
  intros Hl Hv. unfold asFlatMetaObject. cbn [canonicalize]. unfold canon_object.
  set (cfs := map (fun kv => (fst kv, (is_undefined (snd kv), canonicalize (snd kv)))) fs).
  assert (Hc : lookup_str k cfs = Some (false, canonicalize v)).
  { unfold cfs. rewrite (lookup_str_map (fun x => (is_undefined x, canonicalize x))), Hl.
    destruct v; try reflexivity. contradiction. }
  assert (Hk : In k (sort_keys (map fst cfs)))
    by (apply In_sort_keys; eapply lookup_str_In_keys; eauto).
  apply in_map_iff. exists (k, canonicalize v). split; [reflexivity|].
  apply in_flat_map. exists k. split; [exact Hk|]. rewrite Hc. left. reflexivity.
Qed.

Lemma str_ltb_irrefl (x : str) : str_ltb x x = false.
Proof.
  induction x as [|a x IH]; [reflexivity|]. simpl.
  rewrite Nat.ltb_irrefl. exact IH.
Qed.

Lemma str_ltb_asym (x y : str) : str_ltb x y = true -> str_ltb y x = false.
Proof.
  revert y; induction x as [|a x IH]; intros [|b y]; simpl; try discriminate; try reflexivity.
  destruct (nat_of_ascii a <? nat_of_ascii b) eqn:E1;
  destruct (nat_of_ascii b <? nat_of_ascii a) eqn:E2; intro H; try reflexivity; try discriminate.
  - apply Nat.ltb_lt in E1, E2. lia.
  - apply IH, H.
Qed.

Lemma str_ltb_trans (x y z : str) :
  str_ltb x y = true -> str_ltb y z = true -> str_ltb x z = true.
Proof.
  revert y z; induction x as [|a x IH]; intros [|b y] [|c z]; simpl; try discriminate; try reflexivity.
  destruct (nat_of_ascii a <? nat_of_ascii b) eqn:Eab;
  destruct (nat_of_ascii b <? nat_of_ascii a) eqn:Eba;
  destruct (nat_of_ascii b <? nat_of_ascii c) eqn:Ebc;
  destruct (nat_of_ascii c <? nat_of_ascii b) eqn:Ecb;
  destruct (nat_of_ascii a <? nat_of_ascii c) eqn:Eac;
  destruct (nat_of_ascii c <? nat_of_ascii a) eqn:Eca;
  intros H1 H2;
  repeat match goal with
         | H : (_ <? _) = true |- _ => apply Nat.ltb_lt in H
         | H : (_ <? _) = false |- _ => apply Nat.ltb_ge in H
         end;
  first [reflexivity | discriminate | lia | (eapply IH; eassumption)].
Qed.

Lemma str_ltb_total (x y : str) : x <> y -> str_ltb x y = true \/ str_ltb y x = true.
Proof.
  revert y; induction x as [|a x IH]; intros [|b y] Hne; simpl;
    [contradiction | left; reflexivity | right; reflexivity |].
  destruct (nat_of_ascii a <? nat_of_ascii b) eqn:E1; auto.
  destruct (nat_of_ascii b <? nat_of_ascii a) eqn:E2; auto.
  rewrite Nat.ltb_ge in E1, E2.
  assert (a = b) by (rewrite <- (ascii_nat_embedding a), <- (ascii_nat_embedding b); f_equal; lia).
  subst b. apply IH. congruence.
Qed.

Lemma str_le_trans (x y z : str) : str_le x y -> str_le y z -> str_le x z.
Proof.
  unfold str_le. intros H1 H2.
  destruct (str_ltb z x) eqn:E; [|reflexivity]. exfalso.
  destruct (list_eq_dec ascii_dec x y) as [->|Hne]; [congruence|].
  destruct (str_ltb_total x y Hne) as [H|H]; [|congruence].
  rewrite (str_ltb_trans z x y E H) in H2. discriminate.
Qed.

Lemma str_le_antisym (x y : str) : str_le x y -> str_le y x -> x = y.
Proof.
  unfold str_le. intros H1 H2.
  destruct (list_eq_dec ascii_dec x y) as [->|Hne]; [reflexivity|].
  destruct (str_ltb_total x y Hne); congruence.
Qed.

Lemma str_le_total (x y : str) : str_le x y \/ str_le y x.
Proof.
  unfold str_le. destruct (str_ltb y x) eqn:E; [|auto]. right. apply str_ltb_asym, E.
Qed.

Lemma insert_sorted_perm (k : str) (l : list str) : Permutation (insert_sorted k l) (k :: l).
Proof.
  induction l as [|k' l IH]; simpl; [reflexivity|].
  destruct (str_ltb k' k); [|reflexivity].
  rewrite IH. apply perm_swap.
Qed.

Lemma sort_keys_perm (l : list str) : Permutation (sort_keys l) l.
Proof.
  induction l as [|k l IH]; simpl; [reflexivity|].
  rewrite insert_sorted_perm, IH. reflexivity.
Qed.

Lemma insert_sorted_sorted (k : str) (l : list str) :
  StronglySorted str_le l -> StronglySorted str_le (insert_sorted k l).
Proof.
  induction 1 as [|k' l Hs IH Hall]; simpl; [repeat constructor|].
  destruct (str_ltb k' k) eqn:E.
  - constructor; [exact IH|]. apply Forall_forall. intros x Hx.
    apply (Permutation_in _ (insert_sorted_perm k l)) in Hx as [<-|Hx].
    + apply str_ltb_asym, E.
    + rewrite Forall_forall in Hall. apply Hall, Hx.
  - constructor; [constructor; assumption|]. constructor; [exact E|].
    rewrite Forall_forall in *. intros x Hx. apply (str_le_trans _ k'); auto.
Qed.

Lemma sort_keys_sorted (l : list str) : StronglySorted str_le (sort_keys l).
Proof. induction l as [|k l IH]; simpl; [constructor | apply insert_sorted_sorted, IH]. Qed.

Lemma sorted_perm_eq (l1 l2 : list str) :
  StronglySorted str_le l1 -> StronglySorted str_le l2 -> Permutation l1 l2 -> l1 = l2.
Proof.
  revert l2; induction l1 as [|a l1 IH]; intros l2 H1 H2 Hp.
  - symmetry. apply Permutation_nil, Hp.
  - destruct l2 as [|b l2]; [apply Permutation_sym, Permutation_nil in Hp; discriminate|].
    inversion H1 as [|? ? H1' Ha]; inversion H2 as [|? ? H2' Hb]; subst.
    assert (Eab : a = b).
    { assert (Ha2 : In a (b :: l2)) by (apply (Permutation_in _ Hp); left; reflexivity).
      assert (Hb1 : In b (a :: l1)) by (apply (Permutation_in _ (Permutation_sym Hp)); left; reflexivity).
      destruct Ha2 as [<-|Ha2]; [reflexivity|]. destruct Hb1 as [->|Hb1]; [reflexivity|].
      rewrite Forall_forall in Ha, Hb. apply str_le_antisym; [apply Ha, Hb1 | apply Hb, Ha2]. }
    subst b. f_equal. apply IH; auto. apply Permutation_cons_inv in Hp. exact Hp.
Qed.

Lemma sort_keys_perm_eq (l l' : list str) : Permutation l l' -> sort_keys l = sort_keys l'.
Proof.
  intro Hp. apply sorted_perm_eq; try apply sort_keys_sorted.
  rewrite !sort_keys_perm. exact Hp.
Qed.

Lemma lookup_str_In {A} (k : str) (fs : list (str * A)) (a : A) :
  lookup_str k fs = Some a -> In (k, a) fs.
Proof.
  induction fs as [|[k' a'] fs IH]; [discriminate|]. simpl.
  destruct (str_eqb k k') eqn:E.
  - apply str_eqb_spec in E. subst k'. intro H. injection H as ->. left. reflexivity.
  - intro H. right. apply IH, H.
Qed.

Lemma lookup_str_None {A} (k : str) (fs : list (str * A)) :
  lookup_str k fs = None -> ~ In k (map fst fs).
Proof.
  induction fs as [|[k' a'] fs IH]; [intros _ []|]. simpl.
  destruct (str_eqb k k') eqn:E; [discriminate|]. intros H [Hk|Hk].
  - subst k'. rewrite (proj2 (str_eqb_spec k k) eq_refl) in E. discriminate.
  - apply (IH H Hk).
Qed.

Lemma lookup_str_NoDup {A} (k : str) (fs : list (str * A)) (a : A) :
  NoDup (map fst fs) -> In (k, a) fs -> lookup_str k fs = Some a.
Proof.
  induction fs as [|[k' a'] fs IH]; [intros _ []|]. simpl. intros Hnd Hin.
  inversion Hnd as [|? ? Hk' Hnd']; subst.
  destruct (str_eqb k k') eqn:E.
  - apply str_eqb_spec in E. subst k'. destruct Hin as [Hin|Hin]; [congruence|].
    exfalso. apply Hk'. apply (in_map fst) in Hin. exact Hin.
  - destruct Hin as [Hin|Hin]; [injection Hin as -> ->; rewrite (proj2 (str_eqb_spec k k) eq_refl) in E; discriminate|].
    apply IH; assumption.
Qed.

Lemma lookup_str_perm {A} (fs fs' : list (str * A)) (k : str) :
  NoDup (map fst fs) -> Permutation fs fs' -> lookup_str k fs = lookup_str k fs'.
Proof.
  intros Hnd Hp.
  assert (Hnd' : NoDup (map fst fs')) by (eapply Permutation_NoDup; [apply Permutation_map, Hp | exact Hnd]).
  destruct (lookup_str k fs) as [a|] eqn:E1; destruct (lookup_str k fs') as [a'|] eqn:E2.
  - apply lookup_str_In in E1. apply (Permutation_in _ Hp) in E1.
    rewrite (lookup_str_NoDup k fs' a Hnd' E1) in E2. exact E2.
  - apply lookup_str_In in E1. apply (Permutation_in _ Hp) in E1.
    rewrite (lookup_str_NoDup k fs' a Hnd' E1) in E2. discriminate.
  - apply lookup_str_In in E2. apply (Permutation_in _ (Permutation_sym Hp)) in E2.
    rewrite (lookup_str_NoDup k fs a' Hnd E2) in E1. discriminate.
  - reflexivity.
Qed.

Lemma canonicalize_object_perm (fs fs' : list (str * jsval)) :
  NoDup (map fst fs) -> Permutation fs fs' ->
  canonicalize (JObject fs) = canonicalize (JObject fs').
Proof.
  intros Hnd Hp. cbn [canonicalize]. f_equal. unfold canon_object.
  set (g := fun kv : str * jsval => (fst kv, (is_undefined (snd kv), canonicalize (snd kv)))).
  assert (Hk : forall l, map fst (map g l) = map fst l)
    by (intro l; rewrite map_map; reflexivity).
  rewrite !Hk. rewrite (sort_keys_perm_eq (map fst fs) (map fst fs')) by (apply Permutation_map, Hp).
  apply flat_map_ext. intro k.
  rewrite (lookup_str_perm (map g fs) (map g fs')); [reflexivity | rewrite Hk; exact Hnd | apply Permutation_map, Hp].
Qed.

Lemma StronglySorted_keys_sorted (l : list str) :
  StronglySorted str_le l -> keys_sorted l = true.
Proof.
  induction 1 as [|k l Hs IH Hall]; [reflexivity|].
  destruct l as [|k2 l]; [reflexivity|].
  change (keys_sorted (k :: k2 :: l)) with (negb (str_ltb k2 k) && keys_sorted (k2 :: l)).
  rewrite IH, andb_true_r.
  inversion Hall as [|? ? Hk _]; subst. unfold str_le in Hk. rewrite Hk. reflexivity.
Qed.

Lemma StronglySorted_canon_keys (cfs : list (str * (bool * jsval))) :
  StronglySorted str_le (map fst (canon_object cfs)).
Proof.
  unfold canon_object. generalize (sort_keys_sorted (map fst cfs)).
  induction 1 as [|k l Hs IH Hall]; [constructor|]. cbn [flat_map].
  destruct (lookup_str k cfs) as [[[|] cv]|]; cbn [app map]; try exact IH.
  constructor; [exact IH|]. apply Forall_forall. intros x Hx.
  apply in_map_iff in Hx as [[x' v] [<- Hx]]. apply in_flat_map in Hx as [k' [Hk' Hx]].
  rewrite Forall_forall in Hall.
  destruct (lookup_str k' cfs) as [[[|] cv']|]; [destruct Hx | | destruct Hx].
  destruct Hx as [Hx|[]]. injection Hx as <- _. apply Hall, Hk'.
Qed.

Lemma canon_object_fields (fs : list (str * jsval)) (k : str) (cv : jsval) :
  In (k, cv) (canon_object (map (fun kv => (fst kv, (is_undefined (snd kv), canonicalize (snd kv)))) fs))
  <-> exists v, lookup_str k fs = Some v /\ v <> JUndefined /\ cv = canonicalize v.
Proof.
  unfold canon_object. rewrite in_flat_map. split.
  - intros [k' [_ Hin]].
    rewrite (lookup_str_map (fun x => (is_undefined x, canonicalize x))) in Hin.
    destruct (lookup_str k' fs) as [x|] eqn:Ex; [|destruct Hin].
    cbn [option_map] in Hin. destruct (is_undefined x) eqn:Eu; [destruct Hin|].
    destruct Hin as [Hin|[]]. injection Hin as <- <-. exists x.
    split; [exact Ex|]. split; [destruct x; discriminate|reflexivity].
  - intros [v [Hl [Hv ->]]]. exists k. split.
    + apply In_sort_keys. rewrite map_map. cbn [fst]. apply lookup_str_In in Hl.
      apply (in_map fst) in Hl. exact Hl.
    + rewrite (lookup_str_map (fun x => (is_undefined x, canonicalize x))), Hl.
      cbn [option_map]. destruct v; try (left; reflexivity). contradiction.
Qed.

(** *** Codecs, pool outcomes and out-of-range sources *)

Lemma hex_of_byte_digits (b : Byte.byte) :
  Forall (fun c => In c (s "0123456789abcdef")) (hex_of_byte b).
Proof.
  destruct b; vm_compute;
    repeat (apply Forall_cons; [repeat (first [left; reflexivity | right])|]); apply Forall_nil.
Qed.

Lemma b64_char_in_table (v : nat) : In (b64_char v) b64_table.
Proof.
  unfold b64_char. destruct (Nat.lt_ge_cases v (length b64_table)) as [H|H].
  - apply nth_In, H.
  - rewrite nth_overflow by exact H. left. reflexivity.
Qed.

Lemma pad_to_4_mod (L : nat) : (L + pad_to 4 L) mod 4 = 0.
Proof.
  unfold pad_to. pose proof (Nat.div_mod L 4 ltac:(lia)) as HL.
  pose proof (Nat.mod_upper_bound L 4 ltac:(lia)) as Hr.
  remember (L mod 4) as r eqn:Er. remember (L / 4) as q eqn:Eq.
  rewrite HL.
  replace (4 * q + r + (4 - r) mod 4) with ((r + (4 - r) mod 4) + q * 4) by lia.
  rewrite Nat.Div0.mod_add.
  destruct r as [|[|[|[|r]]]]; [reflexivity | reflexivity | reflexivity | reflexivity | lia].
Qed.

Lemma url_char_table (c : ascii) : In c b64_table -> In (url_char c) b64url_table.
Proof.
  intro H. unfold b64_table in H. cbn [s] in H.
  repeat (destruct H as [<-|H]; [vm_compute; repeat (first [left; reflexivity | right])|]).
  destruct H.
Qed.

Section RunOutOfRange.
Context {σ : Type} (rng : σ -> nat -> nat * σ).
Hypothesis rng_out : forall st m, m <= fst (rng st m).

Lemma run_trace_out_of_range {A} (p : Prog A) st r st' tr :
  run rng p st = (r, st', tr) -> Forall (fun d => fst d <= snd d) tr.
Proof.
  revert st r st' tr; induction p as [a|e|m k IH]; intros st r st' tr H; simpl in H.
  - inversion H; constructor.
  - inversion H; constructor.
  - pose proof (rng_out st m) as Hm.
    destruct (rng st m) as [v st1] eqn:E.
    destruct (run rng (k v) st1) as [[r1 st2] tr1] eqn:E1.
    inversion H; subst. constructor; [exact Hm | eapply IH; eauto].
Qed.
End RunOutOfRange.

Lemma assemble_out_of_range (ix vals : list nat) (A : str) :
  Forall (fun v => length A <= v) vals -> assemble ix (map (nth_error A) vals) = [].
Proof.
  intro Hv. unfold assemble. induction ix as [|i ix IH]; [reflexivity|].
  cbn [flat_map]. rewrite IH, app_nil_r. rewrite nth_error_map.
  destruct (nth_error vals i) as [v|] eqn:Ei; [|reflexivity]. cbn [option_map].
  rewrite (proj2 (nth_error_None A v)); [reflexivity|].
  rewrite Forall_forall in Hv. apply Hv. eapply nth_error_In; eauto.
Qed.

(** *** [calcPoolEntropyBits] in binary64 *)

Local Open Scope R_scope.

Lemma ln_le' (x y : R) : 0 < x -> x <= y -> ln x <= ln y.
Proof.
  intros Hx H. destruct (Rle_lt_or_eq_dec _ _ H) as [Hlt|Heq];
    [left; apply ln_increasing; assumption | rewrite Heq; lra].
Qed.

Lemma exp_le' (x y : R) : x <= y -> exp x <= exp y.
Proof.
  intro H. destruct (Rle_lt_or_eq_dec _ _ H) as [Hlt|Heq];
    [left; apply exp_increasing; assumption | rewrite Heq; lra].
Qed.

Lemma log2_ge_frac (x : R) (p q : nat) :
  0 < x -> (0 < q)%nat -> 2 ^ p <= x ^ q -> INR p / INR q <= Math_log2 x.
Proof.
  intros Hx Hq H. unfold Math_log2.
  assert (Hl : INR p * ln 2 <= INR q * ln x).
  { rewrite <- !ln_pow by lra. apply ln_le'; [apply pow_lt; lra | exact H]. }
  pose proof ln2_pos. assert (0 < INR q) by (apply lt_0_INR; lia).
  replace (INR p / INR q) with ((INR p * ln 2) * / (INR q * ln 2)) by (field; lra).
  replace (ln x / ln 2) with ((INR q * ln x) * / (INR q * ln 2)) by (field; lra).
  apply Rmult_le_compat_r; [left; apply Rinv_0_lt_compat; nra | exact Hl].
Qed.

Lemma log2_le_frac (x : R) (p q : nat) :
  0 < x -> (0 < q)%nat -> x ^ q <= 2 ^ p -> Math_log2 x <= INR p / INR q.
Proof.
  intros Hx Hq H. unfold Math_log2.
  assert (Hl : INR q * ln x <= INR p * ln 2).
  { rewrite <- !ln_pow by lra. apply ln_le'; [apply pow_lt; lra | exact H]. }
  pose proof ln2_pos. assert (0 < INR q) by (apply lt_0_INR; lia).
  replace (INR p / INR q) with ((INR p * ln 2) * / (INR q * ln 2)) by (field; lra).
  replace (ln x / ln 2) with ((INR q * ln x) * / (INR q * ln 2)) by (field; lra).
  apply Rmult_le_compat_r; [left; apply Rinv_0_lt_compat; nra | exact Hl].
Qed.

Lemma Rpower2_le_inv_pow (y : R) (n : nat) : y <= - INR n -> Rpower 2 y <= / 2 ^ n.
Proof.
  intro H. rewrite <- Rpower_pow by lra. rewrite <- Rpower_Ropp.
  apply Rle_Rpower; lra.
Qed.

Lemma Rpower2_ge_root (y r : R) (p q : nat) :
  (0 < q)%nat -> 0 < r -> - (INR p / INR q) <= y -> r ^ q <= / 2 ^ p -> r <= Rpower 2 y.
Proof.
  intros Hq Hr Hy H. pose proof ln2_pos. assert (0 < INR q) by (apply lt_0_INR; lia).
  assert (Hl : INR q * ln r <= - (INR p * ln 2)).
  { rewrite <- ln_pow by lra. rewrite <- ln_pow by lra. rewrite <- ln_Rinv by (apply pow_lt; lra).
    apply ln_le'; [apply pow_lt; lra | exact H]. }
  assert (Hl' : ln r <= y * ln 2).
  { apply Rle_trans with (- (INR p / INR q) * ln 2); [|apply Rmult_le_compat_r; lra].
    replace (- (INR p / INR q) * ln 2) with (- (INR p * ln 2) * / INR q) by (field; lra).
    replace (ln r) with ((INR q * ln r) * / INR q) by (field; lra).
    apply Rmult_le_compat_r; [left; apply Rinv_0_lt_compat; lra | exact Hl]. }
  unfold Rpower. rewrite <- (exp_ln r Hr) at 1. apply exp_le'. lra.
Qed.

Lemma Rpower2_pos (y : R) : 0 < Rpower 2 y.
Proof. apply exp_pos. Qed.

(** Numeric facts. *)
Lemma log2_33_bounds : 141 / 28 <= Math_log2 33 <= 91 / 18.
Proof.
  split.
  - replace (141 / 28) with (INR 141 / INR 28) by (rewrite !INR_IZR_INZ; reflexivity).
    apply log2_ge_frac; [lra | lia |]. rewrite !pow_IZR. apply IZR_le. vm_compute. discriminate.
  - replace (91 / 18) with (INR 91 / INR 18) by (rewrite !INR_IZR_INZ; reflexivity).
    apply log2_le_frac; [lra | lia |]. rewrite !pow_IZR. apply IZR_le. vm_compute. discriminate.
Qed.

Lemma Rpower2_le_root (y r : R) (p q : nat) :
  (0 < q)%nat -> 0 < r -> y <= - (INR p / INR q) -> / 2 ^ p <= r ^ q -> Rpower 2 y <= r.
Proof.
  intros Hq Hr Hy H. pose proof ln2_pos. assert (0 < INR q) by (apply lt_0_INR; lia).
  assert (Hl : - (INR p * ln 2) <= INR q * ln r).
  { rewrite <- ln_pow by lra. rewrite <- ln_pow by lra. rewrite <- ln_Rinv by (apply pow_lt; lra).
    apply ln_le'; [apply Rinv_0_lt_compat, pow_lt; lra | exact H]. }
  assert (Hl' : y * ln 2 <= ln r).
  { apply Rle_trans with (- (INR p / INR q) * ln 2); [apply Rmult_le_compat_r; lra|].
    replace (- (INR p / INR q) * ln 2) with (- (INR p * ln 2) * / INR q) by (field; lra).
    replace (ln r) with ((INR q * ln r) * / INR q) by (field; lra).
    apply Rmult_le_compat_r; [left; apply Rinv_0_lt_compat; lra | exact Hl]. }
  unfold Rpower. rewrite <- (exp_ln r Hr). apply exp_le'. lra.
Qed.

Lemma calc_B_default_shape (log2_impl pow2_impl : f64 -> f64) :
  calcPoolEntropyBits_B log2_impl pow2_impl DEFAULT_TEMPLATES 33 =
  (let L := log2_impl (f64_of_nat 33) in
   let e1 := f64_mul (f64_sub (f64_of_nat 3) (f64_of_nat 4)) L in
   let e2 := f64_mul (f64_sub (f64_of_nat 2) (f64_of_nat 4)) L in
   let e0 := f64_mul (f64_sub (f64_of_nat 4) (f64_of_nat 4)) L in
   let p1 := pow2_impl e1 in let p2 := pow2_impl e2 in let p0 := pow2_impl e0 in
   let s := f64_add (f64_add (f64_add (f64_add (f64_add f64_zero p1) p2) p2) p0) p1 in
   let l := log2_impl s in
   (Ok (Math_floor_f64 (f64_add (f64_mul (f64_of_nat 4) L) l)),
    [Log2Call (f64_of_nat 33) L; Pow2Call e1 p1; Pow2Call e2 p2; Pow2Call e2 p2;
     Pow2Call e0 p0; Pow2Call e1 p1; Log2Call s l])).
Proof. reflexivity. Qed.

Lemma powerRZ2_neg (p : positive) : powerRZ 2 (Zneg p) = / IZR (2 ^ Zpos p).
Proof. cbn [powerRZ]. rewrite pow_IZR, positive_nat_Z. reflexivity. Qed.

Ltac b2r_const :=
  rewrite ?B2R_finite; cbn [cond_Zopp Z.opp];
  rewrite ?powerRZ2_neg;
  repeat match goal with |- context [IZR (?a ^ ?b)%Z] =>
    let v := eval vm_compute in (a ^ b)%Z in change (a ^ b)%Z with v end;
  lra.

Lemma B2R_pos_finite (x : f64) :
  is_finite_f64 x = true -> 0 < B2R x -> exists m e, x = S754_finite false m e.
Proof.
  destruct x as [sg|sg| |sg m e]; cbn [is_finite_f64 B2R]; intros Hf Hp;
    try discriminate; try lra.
  destruct sg; [|eauto].
  exfalso. rewrite IZR_cond_Zopp in Hp.
  pose proof (powerRZ2_pos e). assert (0 < IZR (Zpos m)) by (apply IZR_lt; lia). nra.
Qed.

Lemma rel_err_bounds (r x X : R) :
  Rabs (r - x) <= / IZR (2 ^ 52) * X -> 0 <= X -> x - X / 1000000 <= r <= x + X / 1000000.
Proof.
  intros H HX. apply Rabs_le_between' in H.
  change (2 ^ 52)%Z with 4503599627370496%Z in H. lra.
Qed.

Lemma f64_mul_by_const (sx : bool) (mx : positive) (ex : Z) (c : R) (my : positive) (ey : Z) :
  B2R (S754_finite sx mx ex) = c ->
  powerRZ 2 (-900) <= Rabs c * B2R (S754_finite false my ey) <= powerRZ 2 800 ->
  0 < B2R (S754_finite false my ey) ->
  exists m' e', f64_mul (S754_finite sx mx ex) (S754_finite false my ey) = S754_finite sx m' e' /\
    c * B2R (S754_finite false my ey) - Rabs c * B2R (S754_finite false my ey) / 1000000
      <= B2R (S754_finite sx m' e') <=
    c * B2R (S754_finite false my ey) + Rabs c * B2R (S754_finite false my ey) / 1000000.
Proof.
  intros Hc Hr Hy.
  assert (Ea : Rabs (B2R (S754_finite sx mx ex) * B2R (S754_finite false my ey)) =
               Rabs c * B2R (S754_finite false my ey)).
  { rewrite Rabs_mult, Hc, (Rabs_pos_eq (B2R _)) by lra. reflexivity. }
  rewrite <- Ea in Hr. destruct (f64_mul_finite sx false mx my ex ey Hr) as (m' & e' & E & B).
  rewrite xorb_false_r in E, B. exists m', e'. split; [exact E|].
  rewrite Ea, Hc in B. apply rel_err_bounds in B; [lra|].
  apply Rmult_le_pos; [apply Rabs_pos | lra].
Qed.

Lemma f64_add_pos' (mx my : positive) (ex ey : Z) :
  powerRZ 2 (-900) <= B2R (S754_finite false mx ex) + B2R (S754_finite false my ey) <= powerRZ 2 800 ->
  exists m' e', f64_add (S754_finite false mx ex) (S754_finite false my ey) = S754_finite false m' e' /\
    (B2R (S754_finite false mx ex) + B2R (S754_finite false my ey)) * (1 - / 1000000)
      <= B2R (S754_finite false m' e') <=
    (B2R (S754_finite false mx ex) + B2R (S754_finite false my ey)) * (1 + / 1000000).
Proof.
  intro Hr. destruct (f64_add_pos mx my ex ey Hr) as (m' & e' & E & B).
  exists m', e'. split; [exact E|]. apply rel_err_bounds in B.
  - lra.
  - pose proof (powerRZ2_pos (-900)). lra.
Qed.

Lemma f64_add_zero_l (m : positive) (e : Z) :
  f64_add f64_zero (S754_finite false m e) = S754_finite false m e.
Proof. reflexivity. Qed.

Lemma floor_f64_20 (m : positive) (e : Z) :
  20 <= B2R (S754_finite false m e) < 21 -> Math_floor_f64 (S754_finite false m e) = Some 20%Z.
Proof.
  rewrite B2R_finite. cbn [Math_floor_f64 cond_Zopp]. intros [H1 H2]. f_equal.
  destruct (Z_le_gt_dec 0 e) as [He|He].
  - rewrite Z.shiftl_mul_pow2 by lia. rewrite powerRZ2_IZR in H1, H2 by lia.
    rewrite <- mult_IZR in H1, H2. apply le_IZR in H1. apply lt_IZR in H2. lia.
  - replace e with (- (- e))%Z by lia. rewrite Z.shiftl_opp_r, Z.shiftr_div_pow2 by lia.
    set (k := (2 ^ (- e))%Z).
    assert (Hk : (0 < k)%Z) by (apply Z.pow_pos_nonneg; lia).
    assert (Hpk : powerRZ 2 e * IZR k = 1).
    { unfold k. rewrite <- powerRZ2_IZR by lia. rewrite <- powerRZ2_add.
      replace (e + - e)%Z with 0%Z by lia. reflexivity. }
    assert (HkR : 0 < IZR k) by (apply IZR_lt; exact Hk).
    assert (A1 : IZR (20 * k) <= IZR (Zpos m)).
    { rewrite mult_IZR. replace (IZR (Zpos m)) with (IZR (Zpos m) * powerRZ 2 e * IZR k)
        by (rewrite Rmult_assoc, Hpk; ring). nra. }
    assert (A2 : IZR (Zpos m) < IZR (21 * k)).
    { rewrite mult_IZR. replace (IZR (Zpos m)) with (IZR (Zpos m) * powerRZ 2 e * IZR k)
        by (rewrite Rmult_assoc, Hpk; ring). nra. }
    apply le_IZR in A1. apply lt_IZR in A2.
    symmetry. apply Z.div_unique with (Zpos m - 20 * k)%Z; [left; lia | ring].
Qed.

Lemma powerRZ2_small : powerRZ 2 (-900) <= / 1024.
Proof.
  apply Rle_trans with (powerRZ 2 (-10)); [left; apply powerRZ2_lt; lia|].
  rewrite powerRZ2_neg. change (2 ^ 10)%Z with 1024%Z. lra.
Qed.

Lemma powerRZ2_large : 1024 <= powerRZ 2 800.
Proof.
  apply Rle_trans with (powerRZ 2 10); [|left; apply powerRZ2_lt; lia].
  rewrite powerRZ2_IZR by lia. change (2 ^ 10)%Z with 1024%Z. lra.
Qed.

Lemma num1 : (29 / 1000) ^ 25 <= / 2 ^ 127.
Proof. simpl. lra. Qed.
Lemma num2 : 2 ^ 1 <= (104 / 100) ^ 20.
Proof. simpl. lra. Qed.
Lemma num3 : (1085 / 1000) ^ 8 <= 2 ^ 1.
Proof. simpl. lra. Qed.

Lemma pos_form (x : f64) (lo : R) :
  is_finite_f64 x = true -> 0 < lo -> lo <= B2R x ->
  exists m e, x = S754_finite false m e.
Proof. intros Hf Hlo H. apply B2R_pos_finite; [exact Hf | lra]. Qed.

Lemma calc_B_default_20 (log2_impl pow2_impl : f64 -> f64) :
  Forall (call_accurate (/ 64)%R)
    (snd (calcPoolEntropyBits_B log2_impl pow2_impl DEFAULT_TEMPLATES (length DEFAULT_ALPHABET))) ->
  fst (calcPoolEntropyBits_B log2_impl pow2_impl DEFAULT_TEMPLATES (length DEFAULT_ALPHABET)) =
    Ok (Some 20%Z).
Proof.
  change (length DEFAULT_ALPHABET) with 33%nat.
  rewrite calc_B_default_shape. cbv zeta. cbn [fst snd]. intro Hacc.
  change (f64_sub (f64_of_nat 3) (f64_of_nat 4)) with (S754_finite true 4503599627370496 (-52)) in *.
  change (f64_sub (f64_of_nat 2) (f64_of_nat 4)) with (S754_finite true 4503599627370496 (-51)) in *.
  change (f64_sub (f64_of_nat 4) (f64_of_nat 4)) with (S754_zero false) in *.
  change (f64_of_nat 4) with (S754_finite false 4503599627370496 (-50)) in *.
  change (f64_of_nat 33) with (S754_finite false 4644337115725824 (-47)) in *.
  pose proof powerRZ2_small as Psmall. pose proof powerRZ2_large as Plarge.
  pose proof log2_33_bounds as H33.
  (* Math.log2(33) *)
  remember (log2_impl (S754_finite false 4644337115725824 (-47))) as L eqn:EL; clear EL.
  apply Forall_cons_iff in Hacc as [HL Hacc]. cbn [call_accurate] in HL.
  assert (B33 : B2R (S754_finite false 4644337115725824 (-47)) = 33) by b2r_const.
  rewrite B33 in HL. destruct (HL eq_refl ltac:(lra)) as [FL HL'].
  apply Rabs_le_between' in HL'.
  destruct (pos_form L (5) FL ltac:(lra) ltac:(lra)) as (mL & eL & ->).
  set (l2 := B2R (S754_finite false mL eL)) in *.
  (* exponents *)
  destruct (f64_mul_by_const true 4503599627370496 (-52) (-1) mL eL ltac:(b2r_const)
              ltac:(rewrite Rabs_left by lra; fold l2; lra) ltac:(fold l2; lra))
    as (m1 & x1 & E1 & B1).
  destruct (f64_mul_by_const true 4503599627370496 (-51) (-2) mL eL ltac:(b2r_const)
              ltac:(rewrite Rabs_left by lra; fold l2; lra) ltac:(fold l2; lra))
    as (m2 & x2 & E2 & B2).
  rewrite E1, E2 in *. fold l2 in B1, B2. rewrite Rabs_left in B1, B2 by lra.
  change (f64_mul (S754_zero false) (S754_finite false mL eL)) with (S754_zero false) in *.
  (* 2 ** exp *)
  remember (pow2_impl (S754_finite true m1 x1)) as p1 eqn:Ep1; clear Ep1.
  remember (pow2_impl (S754_finite true m2 x2)) as p2 eqn:Ep2; clear Ep2.
  remember (pow2_impl (S754_zero false)) as p0 eqn:Ep0; clear Ep0.
  apply Forall_cons_iff in Hacc as [HP1 Hacc]. cbn [call_accurate] in HP1.
  apply Forall_cons_iff in Hacc as [HP2 Hacc]. cbn [call_accurate] in HP2.
  apply Forall_cons_iff in Hacc as [_ Hacc].
  apply Forall_cons_iff in Hacc as [HP0 Hacc]. cbn [call_accurate] in HP0.
  apply Forall_cons_iff in Hacc as [_ Hacc].
  apply Forall_cons_iff in Hacc as [Hl _]. cbn [call_accurate] in Hl.
  destruct (HP1 eq_refl) as [F1 HP1']. destruct (HP2 eq_refl) as [F2 HP2'].
  destruct (HP0 eq_refl) as [F0 HP0']. clear HP1 HP2 HP0.
  set (y1 := B2R (S754_finite true m1 x1)) in *. set (y2 := B2R (S754_finite true m2 x2)) in *.
  assert (R1u : Rpower 2 y1 <= / 2 ^ 5).
  { apply Rpower2_le_inv_pow. simpl INR. lra. }
  assert (R1l : 29 / 1000 <= Rpower 2 y1).
  { apply (Rpower2_ge_root y1 (29 / 1000) 127 25); [lia | lra | | exact num1].
    replace (INR 127 / INR 25) with (127 / 25) by (rewrite !INR_IZR_INZ; cbn; field). lra. }
  assert (R2u : Rpower 2 y2 <= / 2 ^ 10).
  { apply Rpower2_le_inv_pow. simpl INR. lra. }
  pose proof (Rpower2_pos y2) as R2l.
  assert (R0 : Rpower 2 (B2R (S754_zero false)) = 1) by (apply Rpower_O; lra).
  rewrite R0 in HP0'.
  apply Rabs_le_between' in HP1', HP2', HP0'.
  simpl pow in R1u, R2u.
  destruct (pos_form p1 (1 / 100) F1 ltac:(lra) ltac:(lra)) as (q1 & z1 & ->).
  destruct (pos_form p2 (Rpower 2 y2 / 2) F2 ltac:(lra) ltac:(lra)) as (q2 & z2 & ->).
  destruct (pos_form p0 (1 / 2) F0 ltac:(lra) ltac:(lra)) as (q0 & z0 & ->).
  (* the sum *)
  rewrite f64_add_zero_l in *.
  set (P1 := B2R (S754_finite false q1 z1)) in *.
  set (P2 := B2R (S754_finite false q2 z2)) in *.
  set (P0 := B2R (S754_finite false q0 z0)) in *.
  destruct (f64_add_pos' q1 q2 z1 z2 ltac:(fold P1 P2; lra)) as (a2 & f2 & A2 & S2).
  rewrite A2 in *. fold P1 P2 in S2.
  set (s2 := B2R (S754_finite false a2 f2)) in *.
  destruct (f64_add_pos' a2 q2 f2 z2 ltac:(fold s2 P2; lra)) as (a3 & f3 & A3 & S3).
  rewrite A3 in *. fold s2 P2 in S3.
  set (s3 := B2R (S754_finite false a3 f3)) in *.
  destruct (f64_add_pos' a3 q0 f3 z0 ltac:(fold s3 P0; lra)) as (a4 & f4 & A4 & S4).
  rewrite A4 in *. fold s3 P0 in S4.
  set (s4 := B2R (S754_finite false a4 f4)) in *.
  destruct (f64_add_pos' a4 q1 f4 z1 ltac:(fold s4 P1; lra)) as (a5 & f5 & A5 & S5).
  rewrite A5 in *. fold s4 P1 in S5.
  set (s5 := B2R (S754_finite false a5 f5)) in *.
  assert (Hs : 104 / 100 <= s5 <= 1085 / 1000) by lra.
  (* Math.log2(sumScaled) *)
  remember (log2_impl (S754_finite false a5 f5)) as l eqn:El; clear El.
  destruct (Hl eq_refl ltac:(lra)) as [Fl Hl']. clear Hl.
  apply Rabs_le_between' in Hl'.
  assert (Ls : 1 / 20 <= Math_log2 s5 <= 1 / 8).
  { split.
    - replace (1 / 20) with (INR 1 / INR 20) by (simpl; field).
      apply log2_ge_frac; [lra | lia |]. eapply Rle_trans; [exact num2|]. apply pow_incr. lra.
    - replace (1 / 8) with (INR 1 / INR 8) by (simpl; field).
      apply log2_le_frac; [lra | lia |]. eapply Rle_trans; [|exact num3]. apply pow_incr. lra. }
  destruct (pos_form l (1 / 40) Fl ltac:(lra) ltac:(lra)) as (ml & el & ->).
  (* uMax * log2a + l *)
  destruct (f64_mul_by_const false 4503599627370496 (-50) 4 mL eL ltac:(b2r_const)
              ltac:(rewrite Rabs_pos_eq by lra; fold l2; lra) ltac:(fold l2; lra))
    as (m4 & x4 & E4 & B4).
  rewrite E4. fold l2 in B4. rewrite Rabs_pos_eq in B4 by lra.
  set (lv := B2R (S754_finite false ml el)) in *.
  set (u4 := B2R (S754_finite false m4 x4)) in *.
  destruct (f64_add_pos' m4 ml x4 el ltac:(fold u4 lv; lra)) as (mb & eb & Eb & Bb).
  rewrite Eb. fold u4 lv in Bb. f_equal.
  apply floor_f64_20. lra.
Qed.

Lemma INR_frac (p q : nat) : INR p / INR q = IZR (Z.of_nat p) / IZR (Z.of_nat q).
Proof. rewrite !INR_IZR_INZ. reflexivity. Qed.

Lemma approx_calls_accurate :
  Forall (call_accurate (/ 64)%R)
    (snd (calcPoolEntropyBits_B approx_log2 approx_pow2 DEFAULT_TEMPLATES (length DEFAULT_ALPHABET))).
Proof.
  replace (snd (calcPoolEntropyBits_B approx_log2 approx_pow2 DEFAULT_TEMPLATES (length DEFAULT_ALPHABET)))
    with [Log2Call (S754_finite false 4644337115725824 (-47)) (S754_finite false 5682276092346368 (-50));
          Pow2Call (S754_finite true 5682276092346368 (-50)) (S754_finite false 8725724278030336 (-58));
          Pow2Call (S754_finite true 5682276092346368 (-49)) (S754_finite false 8444249301319680 (-63));
          Pow2Call (S754_finite true 5682276092346368 (-49)) (S754_finite false 8444249301319680 (-63));
          Pow2Call (S754_zero false) (S754_finite false 4503599627370496 (-52));
          Pow2Call (S754_finite true 5682276092346368 (-50)) (S754_finite false 8725724278030336 (-58));
          Log2Call (S754_finite false 4784524848267264 (-52)) (S754_finite false 6755399441055744 (-56))]
    by (vm_compute; reflexivity).
  assert (A33 : B2R (S754_finite false 4644337115725824 (-47)) = 33) by b2r_const.
  assert (AL : B2R (S754_finite false 5682276092346368 (-50)) = 323 / 64) by b2r_const.
  assert (AE1 : B2R (S754_finite true 5682276092346368 (-50)) = - (323 / 64)) by b2r_const.
  assert (AE2 : B2R (S754_finite true 5682276092346368 (-49)) = - (323 / 32)) by b2r_const.
  assert (AP1 : B2R (S754_finite false 8725724278030336 (-58)) = 31 / 1024) by b2r_const.
  assert (AP2 : B2R (S754_finite false 8444249301319680 (-63)) = 15 / 16384) by b2r_const.
  assert (A1 : B2R (S754_finite false 4503599627370496 (-52)) = 1) by b2r_const.
  assert (As : B2R (S754_finite false 4784524848267264 (-52)) = 8703 / 8192) by b2r_const.
  assert (AQ : B2R (S754_finite false 6755399441055744 (-56)) = 3 / 32) by b2r_const.
  assert (R1 : 3 / 100 <= Rpower 2 (- (323 / 64)) <= 305 / 10000).
  { split.
    - apply (Rpower2_ge_root _ _ 323 64); [lia | lra | rewrite INR_frac; cbn; lra | simpl; lra].
    - apply (Rpower2_le_root _ _ 323 64); [lia | lra | rewrite INR_frac; cbn; lra | simpl; lra]. }
  assert (R2 : 905 / 1000000 <= Rpower 2 (- (323 / 32)) <= 92 / 100000).
  { split.
    - apply (Rpower2_ge_root _ _ 323 32); [lia | lra | rewrite INR_frac; cbn; lra | simpl; lra].
    - apply (Rpower2_le_root _ _ 323 32); [lia | lra | rewrite INR_frac; cbn; lra | simpl; lra]. }
  assert (R0 : Rpower 2 (B2R (S754_zero false)) = 1) by (apply Rpower_O; lra).
  assert (L33 : 322 / 64 <= Math_log2 33 <= 324 / 64).
  { split.
    - replace (322 / 64) with (INR 322 / INR 64) by (rewrite INR_frac; reflexivity).
      apply log2_ge_frac; [lra | lia |]. rewrite !pow_IZR. apply IZR_le. vm_compute. discriminate.
    - replace (324 / 64) with (INR 324 / INR 64) by (rewrite INR_frac; reflexivity).
      apply log2_le_frac; [lra | lia |]. rewrite !pow_IZR. apply IZR_le. vm_compute. discriminate. }
  assert (Ls : 5 / 64 <= Math_log2 (8703 / 8192) <= 7 / 64).
  { split.
    - replace (5 / 64) with (INR 5 / INR 64) by (rewrite INR_frac; reflexivity).
      apply log2_ge_frac; [lra | lia | simpl; lra].
    - replace (7 / 64) with (INR 7 / INR 64) by (rewrite INR_frac; reflexivity).
      apply log2_le_frac; [lra | lia | simpl; lra]. }
  repeat (apply Forall_cons;
    [cbn [call_accurate]; intros; split; [reflexivity|];
     rewrite ?A33, ?AL, ?AE1, ?AE2, ?AP1, ?AP2, ?A1, ?As, ?AQ, ?R0; apply Rabs_le; lra|]).
  apply Forall_nil.
Qed.


Local Close Scope R_scope.

(** ** Claims *)

(** C7: a candidate matches a template exactly when the lengths agree and
    any two positions sharing a slot index hold the same character; nothing
    is required of positions with different slot indices (so "AAAAAA"
    matches ABCABC). *)
Theorem matchesTemplate_same_slot_same_char (code : str) (t : Template) :
  (matchesTemplate code t = true <->
   length code = length (idx t) /\
   (forall i j sl, nth_error (idx t) i = Some sl -> nth_error (idx t) j = Some sl ->
                   nth_error code i = nth_error code j)) /\
  matchesTemplate (s "AAAAAA") (pattern_lit "ABCABC") = true.
Proof. split; [apply matchesTemplate_spec | reflexivity]. Qed.

Section DigestProofs.
Context {platform : Platform}.

(** C8: for a code that is syntactically valid under the alphabet and
    pool, [validateCode] accepts the digest [computeCodeHmac] produced for
    it with the same secret, metadata, algorithm and encoding. *)
Theorem validateCode_accepts_own_digest (code : str) (alpha : option str)
    (pool : option (list Template)) (sec : secret_key) (m : jsval)
    (algo : option hmac_algorithm) (enc : option hmac_encoding) :
  syntactic (toUpperCase code) (default alpha DEFAULT_ALPHABET)
            (default pool DEFAULT_TEMPLATES) = true ->
  validateCode code (mkOptions alpha pool (Some sec) m algo enc
                       (Some (computeCodeHmac code sec m algo enc))) = true.
Proof.
  intro Hsyn. unfold syntactic in Hsyn. apply andb_prop in Hsyn as [H1 H2].
  unfold validateCode. cbn [alphabet templates hmac secret meta hmacAlgorithm hmacEncoding].
  rewrite H1, H2. cbn [negb].
  destruct (hmac_truthy _ && secret_truthy _); [|reflexivity].
  unfold integrity_check, computeCodeHmac. cbn [meta hmacAlgorithm hmacEncoding].
  rewrite decode_encode, Nat.eqb_refl. apply bytes_eqb_refl.
Qed.

(** C9: with no secret, an empty-string secret, or an empty stored digest,
    the digest is never examined: [validateCode] returns the syntactic
    verdict. *)
Theorem validateCode_skips_integrity (code : str) (o : Options) :
  (secret o = None \/ secret o = Some (SecretString []) \/ hmac o = Some []) ->
  validateCode code o =
    syntactic (toUpperCase code) (default (alphabet o) DEFAULT_ALPHABET)
              (default (templates o) DEFAULT_TEMPLATES).
Proof.
  intro H. unfold validateCode, syntactic.
  destruct (forallb _ _); [|reflexivity].
  destruct (existsb _ _); [|reflexivity]. cbn [negb andb].
  destruct H as [H | [H | H]]; rewrite H.
  - destruct (hmac o); reflexivity.
  - destruct (hmac o); [cbn [secret_truthy]; rewrite andb_false_r|]; reflexivity.
  - destruct (secret o); reflexivity.
Qed.

(** C10: replacing every [bigint] in the metadata by its decimal string
    leaves the canonical payload, hence the digest, unchanged; in
    particular metadata [1n] and ["1"] give the same digest. *)
Theorem bigint_meta_same_digest (code : str) (sec : secret_key) (m : jsval)
    (algo : option hmac_algorithm) (enc : option hmac_encoding) :
  canonicalJson (payload_object code (debigint m)) = canonicalJson (payload_object code m) /\
  computeCodeHmac code sec (debigint m) algo enc = computeCodeHmac code sec m algo enc /\
  computeCodeHmac code sec (JBigInt 1) algo enc = computeCodeHmac code sec (JString (s "1")) algo enc.
Proof.
  assert (Hp : forall c, canonicalJson (payload_object c (debigint m)) =
                         canonicalJson (payload_object c m))
    by (intro c; rewrite payload_object_debigint; reflexivity).
  split; [apply Hp|]. split.
  - unfold computeCodeHmac, computeCodeHmacRaw. rewrite Hp. reflexivity.
  - unfold computeCodeHmac, computeCodeHmacRaw.
    rewrite <- (payload_object_debigint _ (JBigInt 1)). reflexivity.
Qed.
(** C6: [generate]'s outcome is a function of its options and of the
    values drawn: replaying the drawn values reproduces it.  A successful
    run makes one draw in [[0, templates.length)] when the pool does not
    have exactly one template, none otherwise, then exactly [U] draws for
    the [U] unique slots of the selected template.  With the counter
    source (0, 1, 2, ... modulo the range), the pool [[pattern("ABCABC")]]
    and a valid alphabet [A] of at least 3 symbols, the code is
    [A[0] A[1] A[2] A[0] A[1] A[2]]. *)
Theorem generate_reproducible {σ} (rng : σ -> nat -> nat * σ) (o : Options)
    (st st' : σ) (r : jsres GeneratedCode) (tr : list (nat * nat)) :
  run rng (generate o) st = (r, st', tr) ->
  replay (generate o) (map snd tr) = Some r /\
  (forall g, r = Ok g ->
     exists t tr',
       g = build_output o t
             (map (nth_error (default (alphabet o) DEFAULT_ALPHABET)) (map snd tr')) /\
       length tr' = unique_slots t /\
       ((default (templates o) DEFAULT_TEMPLATES = [t] /\ tr = tr') \/
        (length (default (templates o) DEFAULT_TEMPLATES) <> 1 /\
         exists v, tr = (length (default (templates o) DEFAULT_TEMPLATES), v) :: tr' /\
                   nth_error (default (templates o) DEFAULT_TEMPLATES) v = Some t))) /\
  (forall A : str, 3 <= length A -> has_duplicate [] A = false ->
     fst (fst (run counter_rng
       (generate (mkOptions (Some A) (Some [pattern_lit "ABCABC"]) None JUndefined
                            None None None)) 0)) =
     Ok {| code := [nth 0 A "0"%char; nth 1 A "0"%char; nth 2 A "0"%char;
                    nth 0 A "0"%char; nth 1 A "0"%char; nth 2 A "0"%char];
           template := s "ABCABC"; gen_hmac := None |}).
Proof.
  intro Hrun. split; [eapply run_replay; eauto|]. split.
  - intros g ->.
    destruct (generate_run_shape rng _ _ _ _ _ Hrun) as [t [tr' [Hg [Hl [_ Hc]]]]].
    exists t, tr'. auto.
  - intros A Hlen Hdup.
    destruct A as [|a0 [|a1 [|a2 A']]]; simpl in Hlen; try lia.
    unfold generate. cbn [default alphabet templates secret].
    rewrite Hdup. cbn -[Nat.modulo].
    change (unique_slots (pattern_lit "ABCABC")) with 3.
    change (idx (pattern_lit "ABCABC")) with [0; 1; 2; 0; 1; 2].
    cbn -[Nat.modulo].
    rewrite !Nat.mod_small by lia.
    reflexivity.
Qed.

(** C3: [validateCode] returns a verdict for every candidate and every
    options value, and never checks the alphabet: an explicit empty pool
    gives [false], missing [alphabet]/[templates] mean the defaults, and
    a one-symbol alphabet or one with a repeated symbol is used as given
    (["A"] is accepted under both, where [generate] throws). *)
Theorem validateCode_options_unchecked (code : str) (o : Options) :
  (templates o = Some [] -> validateCode code o = false) /\
  validateCode code o = validateCode code (with_defaults o) /\
  validateCode (s "A") one_symbol_options = true /\
  validateCode (s "A") duplicate_symbol_options = true.
Proof.
  split; [|split; [reflexivity | split; reflexivity]].
  intro H. unfold validateCode. rewrite H. cbn [default existsb negb].
  destruct (forallb _ _); reflexivity.
Qed.

(** C1: self-acceptance fails for a lower-case alphabet: with alphabet
    ["ab"] and pool [[pattern("A")]], [generate] returns ["a"] or ["b"]
    for any source answering in range, and [validateCode] with the same
    options rejects it, since it upper-cases the candidate and not the
    alphabet. *)
Theorem generate_lowercase_not_self_accepted {σ} (rng : σ -> nat -> nat * σ) (st : σ) :
  (forall st0 m, 0 < m -> fst (rng st0 m) < m) ->
  exists g st' tr,
    run rng (generate lower_ab_options) st = (Ok g, st', tr) /\
    (code g = s "a" \/ code g = s "b") /\
    validateCode (code g) lower_ab_options = false.
Proof.
  intro Hr. unfold generate. cbn -[pattern_lit].
  change (unique_slots (pattern_lit "A")) with 1.
  change (idx (pattern_lit "A")) with [0].
  cbn -[pattern_lit].
  destruct (rng st 2) as [v st1] eqn:E.
  assert (Hv : v < 2) by (specialize (Hr st 2); rewrite E in Hr; simpl in Hr; lia).
  destruct v as [|[|v]]; [| |lia]; cbn; eexists _, _, _;
    (split; [reflexivity|]); split; try (left; reflexivity); try (right; reflexivity);
    reflexivity.
Qed.
End DigestProofs.

(** *** Concrete runs of the claims above, on [sample_platform] *)

Lemma validateCode_accepts_own_digest_witness :
  syntactic (toUpperCase (s "012012")) DEFAULT_ALPHABET DEFAULT_TEMPLATES = true /\
  validateCode (s "012012")
    (mkOptions None None (Some (SecretString (s "k"))) JUndefined None None
       (Some (computeCodeHmac (s "012012") (SecretString (s "k")) JUndefined None None)))
  = true.
Proof.
  assert (H : syntactic (toUpperCase (s "012012")) DEFAULT_ALPHABET DEFAULT_TEMPLATES = true)
    by (vm_compute; reflexivity).
  split; [exact H|].
  exact (validateCode_accepts_own_digest (s "012012") None None (SecretString (s "k"))
           JUndefined None None H).
Defined.

Lemma validateCode_skips_integrity_witness :
  validateCode (s "012012")
    (mkOptions None None None JUndefined None None (Some (s "deadbeef"))) = true.
Proof.
  rewrite (validateCode_skips_integrity (s "012012")
             (mkOptions None None None JUndefined None None (Some (s "deadbeef"))))
    by (left; reflexivity).
  vm_compute. reflexivity.
Defined.

Lemma generate_reproducible_witness :
  run counter_rng (generate no_options) 0 =
    (Ok {| code := s "123123"; template := s "ABCABC"; gen_hmac := None |}, 4,
     [(5, 0); (33, 1); (33, 2); (33, 3)]) /\
  replay (generate no_options) [0; 1; 2; 3] =
    Some (Ok {| code := s "123123"; template := s "ABCABC"; gen_hmac := None |}) /\
  fst (fst (run counter_rng
    (generate (mkOptions (Some DEFAULT_ALPHABET) (Some [pattern_lit "ABCABC"]) None
                         JUndefined None None None)) 0)) =
    Ok {| code := s "012012"; template := s "ABCABC"; gen_hmac := None |}.
Proof.
  assert (E : run counter_rng (generate no_options) 0 =
    (Ok {| code := s "123123"; template := s "ABCABC"; gen_hmac := None |}, 4,
     [(5, 0); (33, 1); (33, 2); (33, 3)])) by (vm_compute; reflexivity).
  destruct (generate_reproducible counter_rng no_options _ _ _ _ E) as [H1 [_ H3]].
  split; [exact E|]. split; [exact H1|].
  rewrite (H3 DEFAULT_ALPHABET); [reflexivity | simpl; lia | reflexivity].
Defined.

Lemma validateCode_options_unchecked_witness :
  validateCode (s "012012") (mkOptions None (Some []) None JUndefined None None None) = false /\
  validateCode (s "012012") no_options = true.
Proof.
  destruct (validateCode_options_unchecked (s "012012")
              (mkOptions None (Some []) None JUndefined None None None)) as [H1 _].
  split; [apply H1; reflexivity | vm_compute; reflexivity].
Defined.

(** Under the options where [generate] throws (a one-symbol alphabet, a
    repeated symbol, an empty pool), [validateCode] returns a verdict. *)
Lemma validateCode_unchecked_alphabet_example :
  validateCode (s "A") one_symbol_options = true /\
  fst (fst (run counter_rng (generate one_symbol_options) 0)) = Throw ErrAlphabetTooShort /\
  validateCode (s "A") duplicate_symbol_options = true /\
  fst (fst (run counter_rng (generate duplicate_symbol_options) 0)) = Throw ErrAlphabetDuplicate /\
  validateCode (s "A") (mkOptions None (Some []) None JUndefined None None None) = false /\
  fst (fst (run counter_rng (generate (mkOptions None (Some []) None JUndefined None None None)) 0))
    = Throw ErrNoTemplate.
Proof. vm_compute. repeat split. Qed.

Lemma generate_lowercase_not_self_accepted_witness :
  (forall st0 m, 0 < m -> fst (counter_rng st0 m) < m) /\
  exists g st' tr,
    run counter_rng (generate lower_ab_options) 0 = (Ok g, st', tr) /\
    (code g = s "a" \/ code g = s "b") /\
    validateCode (code g) lower_ab_options = false.
Proof.
  assert (H : forall st0 m, 0 < m -> fst (counter_rng st0 m) < m)
    by (intros st0 m Hm; apply Nat.mod_upper_bound; lia).
  split; [exact H | exact (generate_lowercase_not_self_accepted counter_rng 0 H)].
Defined.

(** The test's counter source with alphabet ["ab"] and pool [[pattern("A")]]:
    [generate] returns ["a"], which [validateCode] rejects. *)
Lemma lower_ab_generated_code_rejected :
  run counter_rng (generate lower_ab_options) 0 =
    (Ok {| code := s "a"; template := s "A"; gen_hmac := None |}, 1, [(2, 0)]) /\
  validateCode (s "a") lower_ab_options = false.
Proof. vm_compute. split; reflexivity. Qed.

(** *** Entropy of a template pool *)

(** C2 (amended): for a non-empty pool of templates with non-empty slot
    sequences and an alphabet length of at least 2, [calcPoolEntropyBits]
    read in exact real arithmetic returns [floor(log2(Σ_t a ^ u(t)))], with
    [u(t)] one more than the largest slot index of [t]. *)
Theorem calcPoolEntropyBits_exact_real (pool : list Template) (alphaLen : nat) :
  pool <> [] -> 2 <= alphaLen -> Forall (fun t => idx t <> []) pool ->
  calcPoolEntropyBits_R pool alphaLen = Ok (Z.log2 (pool_outcomes pool alphaLen)).
Proof. intros Hne Ha Hidx. exact (calc_R_exact pool alphaLen Hne Ha Hidx). Qed.

(** C4 (amended): the default pool has five templates of six characters
    with unique-slot counts 3, 2, 2, 4, 3 (the alternating template ABABAB
    has two), the default alphabet has 33 symbols, and the entropy is 20
    bits, strictly below 21: in binary64, for every [Math.log2] and [2 ** x]
    whose results on the calls made are within 1/64 of the exact values
    (relatively for [**]), and in exact real arithmetic. *)
Theorem default_pool_entropy_20 (log2_impl pow2_impl : f64 -> f64)
    (Hacc : Forall (call_accurate (/ 64)%R)
              (snd (calcPoolEntropyBits_B log2_impl pow2_impl DEFAULT_TEMPLATES
                      (length DEFAULT_ALPHABET)))) :
  map unique_slots DEFAULT_TEMPLATES = [3; 2; 2; 4; 3] /\
  Forall (fun t => length (name t) = 6 /\ length (idx t) = 6) DEFAULT_TEMPLATES /\
  length DEFAULT_ALPHABET = 33 /\
  fst (calcPoolEntropyBits_B log2_impl pow2_impl DEFAULT_TEMPLATES (length DEFAULT_ALPHABET)) =
    Ok (Some 20%Z) /\
  calcPoolEntropyBits_R DEFAULT_TEMPLATES (length DEFAULT_ALPHABET) = Ok 20%Z /\
  (20 < 21)%Z.
Proof.
  split; [vm_compute; reflexivity|].
  split; [repeat constructor|].
  split; [reflexivity|].
  split; [exact (calc_B_default_20 log2_impl pow2_impl Hacc)|].
  split; [|lia].
  rewrite calc_R_exact; [vm_compute; reflexivity | discriminate | cbn; lia |].
  repeat constructor; discriminate.
Qed.

(** C5 (amended): with an alphabet of 2 symbols and a single template with
    one unique slot, [calcPoolEntropyBits] returns 1 ([log2(2 ^ 1)]), in
    binary64 and in exact real arithmetic. *)
Theorem single_slot_binary_entropy_one (t : Template) :
  slot_count t = Some 1 ->
  calcPoolEntropyBits_F [t] 2 = Ok (Some 1) /\ calcPoolEntropyBits_R [t] 2 = Ok 1%Z.
Proof.
  intro H. split.
  - unfold calcPoolEntropyBits_F. cbn [map]. rewrite H. vm_compute. reflexivity.
  - assert (Hidx : idx t <> []) by (unfold slot_count in H; destruct (idx t); congruence).
    rewrite calc_R_exact; [| discriminate | lia | repeat constructor; exact Hidx].
    rewrite slot_count_unique_slots in H by exact Hidx. injection H as Hu.
    unfold pool_bits_exact, pool_outcomes. cbn [fold_right]. rewrite Hu. reflexivity.
Qed.

Lemma calcPoolEntropyBits_exact_real_witness :
  DEFAULT_TEMPLATES <> [] /\ 2 <= 33 /\ Forall (fun t => idx t <> []) DEFAULT_TEMPLATES /\
  calcPoolEntropyBits_R DEFAULT_TEMPLATES 33 = Ok (Z.log2 (pool_outcomes DEFAULT_TEMPLATES 33)).
Proof.
  assert (H1 : DEFAULT_TEMPLATES <> []) by (vm_compute; discriminate).
  assert (H2 : 2 <= 33) by lia.
  assert (H3 : Forall (fun t => idx t <> []) DEFAULT_TEMPLATES)
    by (vm_compute; repeat constructor; discriminate).
  split; [exact H1|]. split; [exact H2|]. split; [exact H3|].
  exact (calcPoolEntropyBits_exact_real DEFAULT_TEMPLATES 33 H1 H2 H3).
Defined.

(** In binary64 the sum of the scaled terms rounds: for alphabet length 2
    and the pool [pool_1_to_54], [Σ 2 ^ (u - 54)] is [2 - 2 ^ -53], stored
    as [2], and the function returns 55 where [floor(log2(2 ^ 55 - 2))] is
    54. *)
Lemma pool_1_to_54_entropy_rounds_up :
  calcPoolEntropyBits_F pool_1_to_54 2 = Ok (Some 55) /\
  Z.log2 (pool_outcomes pool_1_to_54 2) = 54%Z.
Proof. split; vm_compute; reflexivity. Qed.

(** The alternating default template ABABAB has two unique slots, not three. *)
Lemma default_pool_slot_counts_differ :
  map unique_slots DEFAULT_TEMPLATES <> [3; 2; 3; 4; 3] /\
  name (nth 2 DEFAULT_TEMPLATES (mkTemplate [] [])) = s "ABABAB" /\
  unique_slots (nth 2 DEFAULT_TEMPLATES (mkTemplate [] [])) = 2.
Proof. vm_compute. split; [discriminate | split; reflexivity]. Qed.

Lemma default_pool_entropy_20_witness :
  Forall (call_accurate (/ 64)%R)
    (snd (calcPoolEntropyBits_B approx_log2 approx_pow2 DEFAULT_TEMPLATES (length DEFAULT_ALPHABET))) /\
  fst (calcPoolEntropyBits_B approx_log2 approx_pow2 DEFAULT_TEMPLATES (length DEFAULT_ALPHABET)) =
    Ok (Some 20%Z).
Proof.
  split; [exact approx_calls_accurate|].
  exact (proj1 (proj2 (proj2 (proj2
           (default_pool_entropy_20 approx_log2 approx_pow2 approx_calls_accurate))))).
Defined.

Lemma single_slot_binary_entropy_one_witness :
  slot_count (pattern_lit "A") = Some 1 /\
  calcPoolEntropyBits_F [pattern_lit "A"] 2 = Ok (Some 1) /\
  calcPoolEntropyBits_R [pattern_lit "A"] 2 = Ok 1%Z.
Proof.
  assert (H : slot_count (pattern_lit "A") = Some 1) by reflexivity.
  split; [exact H | exact (single_slot_binary_entropy_one (pattern_lit "A") H)].
Defined.

(** [calcPoolEntropyBits([pattern("A")], 2)] is 1, not 0. *)
Lemma binary_single_slot_entropy_not_zero :
  calcPoolEntropyBits_F [pattern_lit "A"] 2 = Ok (Some 1) /\
  calcPoolEntropyBits_F [pattern_lit "A"] 2 <> Ok (Some 0).
Proof. vm_compute. split; [reflexivity | discriminate]. Qed.

(** ** Further properties of the module *)

(** *** [pattern] *)


(** The template built by [pattern x] is named by the upper-cased string,
    has one slot per character, gives two positions the same slot exactly
    when they hold the same letter up to case, and accepts its own name. *)
Theorem pattern_slots (x : str) (t : Template) (H : pattern x = Ok t) :
  name t = toUpperCase x /\
  length (idx t) = length x /\
  (forall i j a b, nth_error x i = Some a -> nth_error x j = Some b ->
     (nth_error (idx t) i = nth_error (idx t) j <-> char_upper a = char_upper b)) /\
  matchesTemplate (name t) t = true.
Proof.
  apply pattern_ok_shape in H as [_ [_ ->]]. cbn [name idx].
  set (K := extend_keys [] (map char_upper x)).
  assert (HK : forall c, In c x -> In (char_upper c) K)
    by (intros c Hc; unfold K; apply In_extend_keys; right; apply in_map, Hc).
  assert (Hslot : forall i j a b, nth_error x i = Some a -> nth_error x j = Some b ->
     (nth_error (map (fun c => pos (char_upper c) K) x) i =
      nth_error (map (fun c => pos (char_upper c) K) x) j <-> char_upper a = char_upper b)).
  { intros i j a b Ha Hb. rewrite !nth_error_map, Ha, Hb. cbn [option_map]. split.
    - intro E. injection E as E. eapply pos_inj; [| |exact E]; apply HK;
        eapply nth_error_In; eassumption.
    - intros ->. reflexivity. }
  split; [reflexivity|]. split; [apply length_map|]. split; [exact Hslot|].
  apply matchesTemplate_spec. cbn [idx]. split; [unfold toUpperCase; rewrite !length_map; reflexivity|].
  intros i j sl Hi Hj.
  rewrite nth_error_map in Hi, Hj.
  destruct (nth_error x i) as [a|] eqn:Ha; [|discriminate].
  destruct (nth_error x j) as [b|] eqn:Hb; [|discriminate].
  assert (E : char_upper a = char_upper b).
  { apply (Hslot i j a b Ha Hb). rewrite !nth_error_map, Ha, Hb. cbn [option_map] in *. congruence. }
  unfold toUpperCase. rewrite !nth_error_map, Ha, Hb. cbn [option_map]. rewrite E. reflexivity.
Qed.

(** The number of slots of [pattern x]'s template is the number of distinct
    letters of [x] up to case, hence at most 26. *)
Theorem pattern_slot_count (x : str) (t : Template) (H : pattern x = Ok t) :
  unique_slots t = length (nodup ascii_dec (toUpperCase x)) /\ unique_slots t <= 26.
Proof.
  pose proof (pattern_unique_slots x t H) as E. split; [exact E|].
  apply pattern_ok_shape in H as [_ [Hl _]]. rewrite E.
  change 26 with (length (s "ABCDEFGHIJKLMNOPQRSTUVWXYZ")).
  apply NoDup_incl_length; [apply NoDup_nodup|].
  intros c Hc. apply nodup_In in Hc. apply (letters_upper_in_AZ x Hl c Hc).
Qed.

(** On 7-bit ASCII text, [pattern] reads its argument up to case: an
    upper-cased string gives the same result, template or error; in
    particular the name of a template [pattern] built gives that template
    back. *)
Theorem pattern_case_insensitive (x : str) (Hx : forallb is_ascii7 x = true) :
  pattern (toUpperCase x) = pattern x /\
  (forall t, pattern x = Ok t -> pattern (name t) = Ok t).
Proof.
  assert (E : pattern (toUpperCase x) = pattern x).
  { destruct x as [|c0 x0]; [reflexivity|].
    unfold pattern. rewrite pattern_idx_upper, toUpperCase_idem. reflexivity. }
  split; [exact E|]. intros t H.
  assert (Hn : name t = toUpperCase x)
    by (destruct (pattern_ok_shape x t H) as [_ [_ ->]]; reflexivity).
  rewrite Hn, E. exact H.
Qed.


Lemma pattern_case_insensitive_witness :
  forallb is_ascii7 (s "aB") = true /\ pattern (toUpperCase (s "aB")) = pattern (s "aB").
Proof.
  split; [reflexivity|].
  exact (proj1 (pattern_case_insensitive (s "aB") eq_refl)).
Defined.

Lemma pattern_slots_witness :
  pattern (s "abA") = Ok {| name := s "ABA"; idx := [0; 1; 0] |} /\
  matchesTemplate (s "ABA") {| name := s "ABA"; idx := [0; 1; 0] |} = true.
Proof.
  split; [reflexivity|].
  exact (proj2 (proj2 (proj2 (pattern_slots (s "abA") _ eq_refl)))).
Defined.

Lemma pattern_slot_count_witness :
  unique_slots {| name := s "ABA"; idx := [0; 1; 0] |} <= 26.
Proof. exact (proj2 (pattern_slot_count (s "abA") _ eq_refl)). Defined.

(** *** [generate] and [validateCode] *)

Section Extras.
Context {platform : Platform}.

(** [generate] checks its options in order, before any draw: an alphabet
    shorter than 2 throws [ErrAlphabetTooShort], then a repeated symbol
    throws [ErrAlphabetDuplicate], then an empty pool throws
    [ErrNoTemplate]; the source is left untouched. *)
Theorem generate_option_errors {σ} (rng : σ -> nat -> nat * σ) (o : Options) (st : σ) :
  (length (default (alphabet o) DEFAULT_ALPHABET) < 2 ->
     run rng (generate o) st = (Throw ErrAlphabetTooShort, st, [])) /\
  (2 <= length (default (alphabet o) DEFAULT_ALPHABET) ->
   ~ NoDup (default (alphabet o) DEFAULT_ALPHABET) ->
     run rng (generate o) st = (Throw ErrAlphabetDuplicate, st, [])) /\
  (2 <= length (default (alphabet o) DEFAULT_ALPHABET) ->
   NoDup (default (alphabet o) DEFAULT_ALPHABET) ->
   default (templates o) DEFAULT_TEMPLATES = [] ->
     run rng (generate o) st = (Throw ErrNoTemplate, st, [])).
Proof.
  unfold generate.
  set (A := default (alphabet o) DEFAULT_ALPHABET).
  set (P := default (templates o) DEFAULT_TEMPLATES).
  split; [|split].
  - intro H. apply Nat.ltb_lt in H. rewrite H. reflexivity.
  - intros H2 Hnd. apply Nat.ltb_ge in H2. rewrite H2.
    destruct (has_duplicate [] A) eqn:Ed; [reflexivity|].
    exfalso. apply Hnd, (proj1 (has_duplicate_spec [] A) Ed).
  - intros H2 Hnd HP. apply Nat.ltb_ge in H2. rewrite H2.
    assert (Ed : has_duplicate [] A = false)
      by (apply has_duplicate_spec; split; [exact Hnd | intros c _ []]).
    rewrite Ed, HP. reflexivity.
Qed.

(** With options [generate] accepts (at least 2 distinct symbols, a
    nonempty pool) and a source answering in range, [generate] returns a
    code: built from a template [t] of the pool, named after it, matching
    it, and made of alphabet symbols; the source is asked once for the
    template (unless the pool has one template) and once per unique slot. *)
Theorem generate_valid_options {σ} (rng : σ -> nat -> nat * σ) (o : Options) (st : σ)
    (Hr : forall st0 m, 0 < m -> fst (rng st0 m) < m)
    (H2 : 2 <= length (default (alphabet o) DEFAULT_ALPHABET))
    (Hnd : NoDup (default (alphabet o) DEFAULT_ALPHABET))
    (Hne : default (templates o) DEFAULT_TEMPLATES <> []) :
  exists g st' tr, run rng (generate o) st = (Ok g, st', tr) /\
  exists t, In t (default (templates o) DEFAULT_TEMPLATES) /\
    template g = name t /\
    matchesTemplate (code g) t = true /\
    Forall (fun c => In c (default (alphabet o) DEFAULT_ALPHABET)) (code g) /\
    length tr = (if length (default (templates o) DEFAULT_TEMPLATES) =? 1 then 0 else 1)
                + unique_slots t.
Proof.
  destruct (generate_valid_runs_ok rng Hr o st H2 Hnd Hne) as [g [st' [tr Hrun]]].
  exists g, st', tr. split; [exact Hrun|].
  exact (generate_ok_props rng Hr o st st' g tr Hrun).
Qed.

(** [generate] attaches [hmac] exactly when [opts.secret] is truthy, as
    [computeCodeHmac] of the code; when the alphabet is upper-case 7-bit
    ASCII, passing the returned [hmac] back to [validateCode] with the same
    options accepts the code. *)
Theorem generate_hmac_verifies {σ} (rng : σ -> nat -> nat * σ) (o : Options)
    (st st' : σ) (g : GeneratedCode) (tr : list (nat * nat))
    (Hr : forall st0 m, 0 < m -> fst (rng st0 m) < m)
    (HA : Forall (fun c => char_upper c = c) (default (alphabet o) DEFAULT_ALPHABET))
    (HA7 : forallb is_ascii7 (default (alphabet o) DEFAULT_ALPHABET) = true)
    (Hrun : run rng (generate o) st = (Ok g, st', tr)) :
  gen_hmac g = match secret o with
               | Some sec => if secret_truthy (secret o)
                             then Some (computeCodeHmac (code g) sec (meta o)
                                          (hmacAlgorithm o) (hmacEncoding o))
                             else None
               | None => None
               end /\
  validateCode (code g) (mkOptions (alphabet o) (templates o) (secret o) (meta o)
                           (hmacAlgorithm o) (hmacEncoding o) (gen_hmac g)) = true.
Proof.
  destruct (generate_run_shape rng _ _ _ _ _ Hrun) as [t0 [tr0 [Hg _]]].
  assert (Hh : gen_hmac g = match secret o with
               | Some sec => if secret_truthy (secret o)
                             then Some (computeCodeHmac (code g) sec (meta o)
                                          (hmacAlgorithm o) (hmacEncoding o))
                             else None
               | None => None
               end) by (rewrite Hg; reflexivity).
  split; [exact Hh|].
  destruct (generate_ok_props rng Hr o st st' g tr Hrun) as [t [HtP [_ [Hm [Hin _]]]]].
  set (A := default (alphabet o) DEFAULT_ALPHABET) in *.
  assert (Hup : toUpperCase (code g) = code g).
  { unfold toUpperCase. rewrite <- map_id. apply map_ext_in. intros c Hc.
    rewrite Forall_forall in HA, Hin. apply HA, Hin, Hc. }
  unfold validateCode. cbn [alphabet templates hmac secret meta hmacAlgorithm hmacEncoding].
  fold A. rewrite Hup.
  assert (Hall : forallb (fun ch => mem ch A) (code g) = true).
  { apply forallb_forall. intros c Hc. apply mem_In. rewrite Forall_forall in Hin. apply Hin, Hc. }
  assert (Hex : existsb (matchesTemplate (code g)) (default (templates o) DEFAULT_TEMPLATES) = true)
    by (apply existsb_exists; exists t; auto).
  rewrite Hall, Hex. cbn [negb].
  rewrite Hh. destruct (secret o) as [sec|]; [|reflexivity].
  destruct (secret_truthy (Some sec)); [|reflexivity].
  cbv iota beta.
  match goal with |- (if ?b then _ else _) = true => destruct b; [|reflexivity] end.
  unfold integrity_check, computeCodeHmac. cbn [meta hmacAlgorithm hmacEncoding].
  rewrite Hup, decode_encode, Nat.eqb_refl. apply bytes_eqb_refl.
Qed.

(** [validateCode] reads the candidate up to case, and accepts only a
    candidate whose upper-cased form is made of alphabet symbols and
    matches a template of the pool. *)
Theorem validateCode_case_insensitive (c : str) (o : Options) :
  validateCode (toUpperCase c) o = validateCode c o /\
  (validateCode c o = true ->
   syntactic (toUpperCase c) (default (alphabet o) DEFAULT_ALPHABET)
             (default (templates o) DEFAULT_TEMPLATES) = true).
Proof.
  split; [unfold validateCode; rewrite toUpperCase_idem; reflexivity|].
  unfold validateCode, syntactic.
  destruct (forallb _ _); [|discriminate]. destruct (existsb _ _); [|discriminate].
  intros _. reflexivity.
Qed.

(** With a nonempty stored [hmac] and a truthy [secret], [validateCode]
    accepts exactly the syntactically valid candidates for which the stored
    digest decodes to the digest [computeCodeHmacRaw] gives for the
    upper-cased candidate. *)
Theorem validateCode_integrity (c : str) (o : Options) (h : str) (sec : secret_key)
    (Hh : hmac o = Some h) (Hht : hmac_truthy (Some h) = true)
    (Hs : secret o = Some sec) (Hst : secret_truthy (Some sec) = true) :
  validateCode c o = true <->
  syntactic (toUpperCase c) (default (alphabet o) DEFAULT_ALPHABET)
            (default (templates o) DEFAULT_TEMPLATES) = true /\
  decodeHmacToBuffer h (default (hmacEncoding o) hex) =
    Some (computeCodeHmacRaw (toUpperCase c) sec (meta o) (hmacAlgorithm o)).
Proof.
  unfold validateCode, syntactic. rewrite Hh, Hs, Hht, Hst. cbn [andb].
  destruct (forallb _ _); [|cbn; split; [discriminate | intros [H _]; discriminate]].
  destruct (existsb _ _); [|cbn; split; [discriminate | intros [H _]; discriminate]].
  cbn [negb andb]. unfold integrity_check.
  destruct (decodeHmacToBuffer h _) as [raw|].
  - destruct (length raw =? length _) eqn:El; cbn [negb].
    + rewrite bytes_eqb_spec. split; [intros ->; auto | intros [_ E]; injection E as ->; reflexivity].
    + split; [discriminate|]. intros [_ E]. injection E as ->. rewrite Nat.eqb_refl in El. discriminate.
  - split; [discriminate | intros [_ E]; discriminate].
Qed.
End Extras.

Lemma generate_valid_options_witness :
  exists g st' tr, run counter_rng (generate no_options) 0 = (Ok g, st', tr) /\
  exists t, In t DEFAULT_TEMPLATES /\ template g = name t /\
    matchesTemplate (code g) t = true /\
    Forall (fun c => In c DEFAULT_ALPHABET) (code g) /\
    length tr = 1 + unique_slots t.
Proof.
  apply (generate_valid_options counter_rng no_options 0).
  - intros st0 m Hm. apply Nat.mod_upper_bound. lia.
  - vm_compute. lia.
  - apply (proj1 (has_duplicate_spec [] DEFAULT_ALPHABET)). vm_compute. reflexivity.
  - discriminate.
Defined.

Lemma generate_hmac_verifies_witness :
  gen_hmac {| code := s "123123"; template := s "ABCABC"; gen_hmac := Some (s "00") |} =
    Some (computeCodeHmac (s "123123") (SecretString (s "k")) JUndefined None None) /\
  validateCode (s "123123") (secret_k_hmac_options (s "00")) = true.
Proof.
  apply (generate_hmac_verifies counter_rng secret_k_options 0 4
           {| code := s "123123"; template := s "ABCABC"; gen_hmac := Some (s "00") |}
           [(5, 0); (33, 1); (33, 2); (33, 3)]).
  - intros st0 m Hm. apply Nat.mod_upper_bound. lia.
  - vm_compute. repeat constructor.
  - vm_compute. reflexivity.
  - vm_compute. reflexivity.
Defined.

Lemma validateCode_integrity_witness :
  validateCode (s "123123") (secret_k_hmac_options (s "00")) = true /\
  validateCode (s "123123") (secret_k_hmac_options (s "01")) = false.
Proof.
  split.
  - apply (proj2 (validateCode_integrity (s "123123") (secret_k_hmac_options (s "00"))
                    (s "00") (SecretString (s "k")) eq_refl eq_refl eq_refl eq_refl)).
    split; vm_compute; reflexivity.
  - destruct (validateCode (s "123123") (secret_k_hmac_options (s "01"))) eqn:E; [|reflexivity].
    apply (validateCode_integrity (s "123123") (secret_k_hmac_options (s "01"))
             (s "01") (SecretString (s "k")) eq_refl eq_refl eq_refl eq_refl) in E.
    destruct E as [_ E]. vm_compute in E. discriminate.
Defined.

(** *** Metadata and [canonicalize] *)

Section MetaCode.
Context {platform : Platform}.

(** When [meta] is a plain object with a defined [code] property and no
    [__proto__] property (whose assignment in [canonicalize] would replace
    the prototype of the result), the
    spread [{ code, ...meta }] overwrites the candidate: the payload and
    the digest no longer depend on the code, so once one code passes the
    integrity check with a stored [hmac], every syntactically valid code
    passes it. *)
Theorem meta_code_overrides (fs : list (str * jsval)) (v : jsval)
    (Hl : lookup_str (s "code") fs = Some v) (Hv : v <> JUndefined)
    (Hproto : lookup_str (s "__proto__") fs = None) :
  (forall c1 c2, payload_object c1 (JObject fs) = payload_object c2 (JObject fs)) /\
  (forall c1 c2 sec algo, computeCodeHmacRaw c1 sec (JObject fs) algo =
                          computeCodeHmacRaw c2 sec (JObject fs) algo) /\
  (forall c1 c2 o, meta o = JObject fs -> validateCode c1 o = true ->
     syntactic (toUpperCase c2) (default (alphabet o) DEFAULT_ALPHABET)
               (default (templates o) DEFAULT_TEMPLATES) = true ->
     validateCode c2 o = true).
Proof.
  assert (Hp : forall c1 c2, payload_object c1 (JObject fs) = payload_object c2 (JObject fs)).
  { intros c1 c2. unfold payload_object. f_equal. apply (fold_set_prop_agree (s "code")).
    - constructor; [split; [reflexivity | right; reflexivity] | constructor].
    - eapply asFlatMetaObject_keeps_key; eauto. }
  assert (Hd : forall c1 c2 sec algo, computeCodeHmacRaw c1 sec (JObject fs) algo =
                                      computeCodeHmacRaw c2 sec (JObject fs) algo)
    by (intros; unfold computeCodeHmacRaw; rewrite (Hp c1 c2); reflexivity).
  split; [exact Hp|]. split; [exact Hd|].
  intros c1 c2 o Hm H1 Hs. unfold syntactic in Hs. apply andb_prop in Hs as [Ha Hx].
  unfold validateCode in *. rewrite Ha, Hx. cbn [negb].
  destruct (forallb _ (toUpperCase c1)); [|discriminate].
  destruct (existsb _ _); [|discriminate]. cbn [negb] in H1.
  destruct (hmac o) as [h|]; [|reflexivity]. destruct (secret o) as [sec|]; [|reflexivity].
  destruct (hmac_truthy _ && secret_truthy _); [|reflexivity].
  unfold integrity_check in *. rewrite Hm in *.
  rewrite (Hd (toUpperCase c2) (toUpperCase c1)). exact H1.
Qed.
End MetaCode.

Lemma meta_code_overrides_witness :
  payload_object (s "111111") (JObject [(s "code", JString (s "X"))]) =
  payload_object (s "222222") (JObject [(s "code", JString (s "X"))]).
Proof.
  apply (proj1 (meta_code_overrides (platform := sample_platform)
                  [(s "code", JString (s "X"))] (JString (s "X")) eq_refl ltac:(discriminate) eq_refl)).
Defined.

Section CanonExtras.
Context {platform : Platform}.

(** [canonicalize] on a plain object with plain keys ([plain_keys]: no
    array-index and no [__proto__] key at any depth) keeps, under each key,
    the canonical form of the key's value unless it is [undefined], and
    lists the kept keys in sorted order. *)
Theorem canonicalize_object_fields (fs : list (str * jsval))
    (Hk : plain_keys (JObject fs) = true) :
  exists out, canonicalize (JObject fs) = JObject out /\
    keys_sorted (map fst out) = true /\
    (forall k cv, In (k, cv) out <->
       exists v, lookup_str k fs = Some v /\ v <> JUndefined /\ cv = canonicalize v).
Proof.
  eexists. split; [reflexivity|]. split.
  - apply StronglySorted_keys_sorted, StronglySorted_canon_keys.
  - apply canon_object_fields.
Qed.


(** The order of a plain object's keys does not matter: permuting the
    properties of [meta] gives the same canonical value and the same
    digest. *)
Theorem canonicalize_key_order (fs fs' : list (str * jsval))
    (Hnd : NoDup (map fst fs)) (Hp : Permutation fs fs') :
  canonicalize (JObject fs) = canonicalize (JObject fs') /\
  (forall code sec algo enc, computeCodeHmac code sec (JObject fs) algo enc =
                             computeCodeHmac code sec (JObject fs') algo enc).
Proof.
  pose proof (canonicalize_object_perm fs fs' Hnd Hp) as E.
  split; [exact E|]. intros code sec algo enc.
  unfold computeCodeHmac, computeCodeHmacRaw, payload_object, asFlatMetaObject.
  rewrite E. reflexivity.
Qed.
End CanonExtras.

Lemma canonicalize_object_fields_witness :
  plain_keys (JObject [(s "b", JNull); (s "a", JUndefined)]) = true /\
  exists out, canonicalize (JObject [(s "b", JNull); (s "a", JUndefined)]) = JObject out /\
    keys_sorted (map fst out) = true /\
    (forall k cv, In (k, cv) out <->
       exists v, lookup_str k [(s "b", JNull); (s "a", JUndefined)] = Some v /\
                 v <> JUndefined /\ cv = canonicalize v).
Proof.
  split; [reflexivity|].
  exact (canonicalize_object_fields [(s "b", JNull); (s "a", JUndefined)] eq_refl).
Defined.


Lemma canonicalize_key_order_witness :
  canonicalize (JObject [(s "b", JString (s "1")); (s "a", JNull)]) =
  canonicalize (JObject [(s "a", JNull); (s "b", JString (s "1"))]).
Proof.
  apply (canonicalize_key_order (platform := sample_platform)
           [(s "b", JString (s "1")); (s "a", JNull)] [(s "a", JNull); (s "b", JString (s "1"))]).
  - constructor; [simpl; intros [H|[]]; discriminate | repeat constructor; intros []].
  - apply perm_swap.
Defined.

(** *** Codecs *)

(** [encodeBuffer] is inverted by [decodeHmacToBuffer] with the same
    encoding, for every buffer and each of hex, base64 and base64url. *)
Theorem encodeBuffer_roundtrip (raw : bytes) (enc : hmac_encoding) :
  decodeHmacToBuffer (encodeBuffer raw enc) enc = Some raw.
Proof. apply decode_encode. Qed.

(** The text forms [encodeBuffer] produces: hex is two lower-case hex
    digits per byte; base64 has a length divisible by 4 and uses the
    base64 alphabet and [=]; base64url uses only the URL-safe alphabet, with
    no [+], [/] or padding. *)
Theorem encodeBuffer_shapes (raw : bytes) :
  length (encodeBuffer raw hex) = 2 * length raw /\
  Forall (fun c => In c (s "0123456789abcdef")) (encodeBuffer raw hex) /\
  length (encodeBuffer raw base64) mod 4 = 0 /\
  Forall (fun c => In c b64_table \/ c = "="%char) (encodeBuffer raw base64) /\
  Forall (fun c => In c b64url_table) (encodeBuffer raw base64url).
Proof.
  destruct (b64_encode_parts raw) as [ls [n [Hs [_ [_ He]]]]].
  split; [apply hex_length|]. split.
  { cbn [encodeBuffer]. clear He. induction raw as [|b raw IH]; [constructor|].
    cbn [flat_map]. apply Forall_app. split; [apply hex_of_byte_digits | exact IH]. }
  split.
  { cbn [encodeBuffer]. rewrite He, length_app, repeat_length, length_map. apply pad_to_4_mod. }
  split.
  { cbn [encodeBuffer]. rewrite He. apply Forall_app. split.
    - apply Forall_map, Forall_forall. intros l _. left. apply b64_char_in_table.
    - apply Forall_forall. intros c Hc. apply repeat_spec in Hc. right. exact Hc. }
  cbn [encodeBuffer]. rewrite He, url_replace, map_app.
  replace (map url_char (repeat "="%char (pad_to 4 (length ls))))
    with (repeat "="%char (pad_to 4 (length ls))) by (rewrite map_repeat; reflexivity).
  rewrite strip_trailing_eq_pad by (apply url_no_eq, body_no_eq, Hs).
  rewrite map_map. apply Forall_map, Forall_forall. intros l _.
  apply url_char_table, b64_char_in_table.
Qed.

(** *** Sources answering out of range *)

Section OutOfRangeExtra.
Context {platform : Platform}.

(** [generate] never checks what the source returns: with a source that
    always answers outside [[0, max)], a pool of several templates makes
    [templates[i]] undefined and [generate] throws after one draw, and a
    one-template pool yields the empty code (each [alphabet[k]] is
    undefined and joins as ""). *)
Theorem generate_unchecked_source {σ} (rng : σ -> nat -> nat * σ) (o : Options) (st : σ)
    (Hout : forall st0 m, m <= fst (rng st0 m))
    (H2 : 2 <= length (default (alphabet o) DEFAULT_ALPHABET))
    (Hnd : has_duplicate [] (default (alphabet o) DEFAULT_ALPHABET) = false) :
  (forall t, default (templates o) DEFAULT_TEMPLATES = [t] ->
     exists g st' tr, run rng (generate o) st = (Ok g, st', tr) /\
       code g = [] /\ template g = name t /\ length tr = unique_slots t) /\
  (2 <= length (default (templates o) DEFAULT_TEMPLATES) ->
     run rng (generate o) st =
       (Throw ErrTypeUndefined, snd (rng st (length (default (templates o) DEFAULT_TEMPLATES))),
        [(length (default (templates o) DEFAULT_TEMPLATES),
          fst (rng st (length (default (templates o) DEFAULT_TEMPLATES))))])).
Proof.
  unfold generate.
  set (A := default (alphabet o) DEFAULT_ALPHABET) in *.
  set (P := default (templates o) DEFAULT_TEMPLATES) in *.
  assert (E1 : (length A <? 2) = false) by (apply Nat.ltb_ge; exact H2).
  rewrite E1, Hnd. split.
  - intros t HP. rewrite HP. cbn [length Nat.eqb]. rewrite run_bind. cbn [select_template run].
    destruct (run_draw_then rng A (unique_slots t) (build_output o t) st)
      as [st2 [tr [Hr [Hl Hf]]]].
    rewrite Hr. do 3 eexists. split; [reflexivity|]. split; [|split; [reflexivity | exact Hl]].
    unfold build_output. cbn [code]. apply assemble_out_of_range.
    pose proof (run_trace_out_of_range rng Hout _ _ _ _ _ Hr) as Htr.
    rewrite Forall_map. rewrite Forall_forall in *. intros d Hd.
    rewrite <- (Hf d Hd). apply Htr, Hd.
  - intro HP. destruct P as [|t0 [|t1 rest]]; cbn [length] in HP; try lia.
    cbn [length Nat.eqb]. rewrite run_bind. unfold select_template. cbn [run].
    cbn [length] in *. pose proof (Hout st (S (S (length rest)))) as Hv.
    destruct (rng st (S (S (length rest)))) as [v st1]. cbn [fst snd] in *.
    rewrite (proj2 (nth_error_None (t0 :: t1 :: rest) v)) by (simpl; lia). reflexivity.
Qed.
End OutOfRangeExtra.

Lemma generate_unchecked_source_witness :
  exists g st' tr,
    run always_max (generate (mkOptions None (Some [pattern_lit "AB"]) None JUndefined None None None)) tt
      = (Ok g, st', tr) /\
    code g = [] /\ template g = name (pattern_lit "AB") /\ length tr = unique_slots (pattern_lit "AB").
Proof.
  apply (proj1 (generate_unchecked_source (platform := sample_platform) always_max
                  (mkOptions None (Some [pattern_lit "AB"]) None JUndefined None None None) tt
                  ltac:(intros; simpl; lia) ltac:(vm_compute; lia) ltac:(vm_compute; reflexivity))).
  reflexivity.
Defined.
